(** * OsqpSpline1dSolver: the QP formulation of one-dimensional spline fitting

    A shallow embedding of
    [modules/planning/math/smoothing_spline/osqp_spline_1d_solver.cc]
    and the properties of its constraint assembly, its solve step and its
    handling of the OSQP workspace.

    Numbers are IEEE 754 binary64 values ([c_float] is [double]), taken from
    the executable specification [SpecFloat] of the Standard Library.
    Matrices are Eigen's dense column-major matrices.  The heap blocks the
    class manages by hand (settings, data, the two CSC headers and the OSQP
    workspace) live in an explicit memory with a log of the allocator and
    solver calls.  Sizes and indices are natural numbers: every count the
    code keeps in an [int] or an [Eigen::Index] is the row or column count
    of a matrix held in memory.

    The solver, the spline and the dense-to-sparse converter are
    collaborators declared outside the file; they enter as classes, and
    the module [Scenario] gives stand-ins for running concrete inputs. *)

From Stdlib Require Import ZArith QArith List Bool Lia SpecFloat.
From stdpp Require Import base option list gmap.


(** ** Floating-point numbers *)

Module Ieee.

(** [c_float] of OSQP is [double]: precision 53, exponent bound 1024. *)
Definition c_float : Type := spec_float.
Definition dprec : Z := 53.
Definition demax : Z := 1024.

(** C++ [float]: precision 24, exponent bound 128. *)
Definition fprec : Z := 24.
Definition femax : Z := 128.

Definition dadd : c_float -> c_float -> c_float := SFadd dprec demax.
Definition dsub : c_float -> c_float -> c_float := SFsub dprec demax.
Definition dmul : c_float -> c_float -> c_float := SFmul dprec demax.
Definition ddiv : c_float -> c_float -> c_float := SFdiv dprec demax.
Definition dleb : c_float -> c_float -> bool := SFleb.
Definition dltb : c_float -> c_float -> bool := SFltb.
Definition deqb : c_float -> c_float -> bool := SFeqb.

(** The double nearest to an integer. *)
Definition of_Z (z : Z) : c_float := binary_normalize dprec demax z 0 false.

(** Decimal literal [m e-k] of type double: the double nearest to
    [m / 10^k] (both [m] and [10^k] are exact doubles in every use below,
    so the correctly rounded quotient is the correctly rounded literal). *)
Definition decimal (m : Z) (k : Z) : c_float := ddiv (of_Z m) (of_Z (10 ^ k)).

(** Conversion double -> float (round to nearest even) and the widening
    float -> double (exact). *)
Definition to_float (x : spec_float) : spec_float :=
  match x with
  | S754_finite s m e => binary_round fprec femax s m e
  | _ => x
  end.

Definition to_double (x : spec_float) : c_float :=
  match x with
  | S754_finite s m e => binary_round dprec demax s m e
  | _ => x
  end.

Definition is_nan (x : c_float) : bool :=
  match x with S754_nan => true | _ => false end.

Definition dzero : c_float := S754_zero false.

(** The rational a finite number stands for. *)
Definition exact_value (x : spec_float) : option Q :=
  match x with
  | S754_zero _ => Some 0%Q
  | S754_finite s m e =>
      Some ((if s then -1 else 1) * inject_Z (Zpos m) * 2 ^ e)%Q
  | _ => None
  end.

Definition has_value (x : spec_float) (q : Q) : Prop :=
  match exact_value x with
  | Some v => (v == q)%Q
  | None => False
  end.

End Ieee.
Import Ieee.

(** ** Eigen::MatrixXd *)

(** A dynamic matrix of doubles: the two sizes and the coefficients in
    column-major order, coefficient [(i, j)] at position [i + j * rows]. *)
Record MatrixXd : Type := mkMatrix {
  rows : nat;
  cols : nat;
  m_storage : list c_float
}.

(** [M.size()] *)
Definition msize (M : MatrixXd) : nat := rows M * cols M.

(** [M(i, j)] *)
Definition coeff (M : MatrixXd) (i j : nat) : c_float :=
  default dzero (m_storage M !! (i + j * rows M)).

(** [M(i)]: linear access into the storage. *)
Definition coeff1 (M : MatrixXd) (i : nat) : c_float :=
  default dzero (m_storage M !! i).

(** [M(i, j) = v] *)
Definition set_coeff (M : MatrixXd) (i j : nat) (v : c_float) : MatrixXd :=
  mkMatrix (rows M) (cols M) (<[i + j * rows M := v]> (m_storage M)).

(** [MatrixXd A(r, c)]: storage of [r * c] coefficients, not yet given
    values; every use below writes a coefficient before it is read. *)
Definition MatrixXd_sized (r c : nat) : MatrixXd :=
  mkMatrix r c (replicate (r * c) dzero).

(** [MatrixXd::Zero(r, c)] *)
Definition MatrixXd_Zero (r c : nat) : MatrixXd :=
  mkMatrix r c (replicate (r * c) dzero).

(** [A.block(r0, c0, X.rows(), X.cols()) = X], column after column. *)
Definition assign_column (X : MatrixXd) (r0 c0 j : nat) (A : MatrixXd) : MatrixXd :=
  foldl (fun A' i => set_coeff A' (r0 + i) (c0 + j) (coeff X i j)) A (seq 0 (rows X)).

Definition assign_block (A : MatrixXd) (r0 c0 : nat) (X : MatrixXd) : MatrixXd :=
  foldl (fun A' j => assign_column X r0 c0 j A') A (seq 0 (cols X)).

(** [A << X, Y] for an [A] as wide as [X]: the comma initialiser puts [X] at
    the top left corner; the row of blocks is then full, so [Y] starts the
    next one, [X.rows()] further down. *)
Definition comma_init2 (A X Y : MatrixXd) : MatrixXd :=
  assign_block (assign_block A 0 0 X) (rows X) 0 Y.

(** A matrix whose storage has the size its dimensions announce. *)
Definition wf_matrix (M : MatrixXd) : Prop :=
  length (m_storage M) = rows M * cols M.

(** ** The spline model the solver reads and writes *)

(** Modelled from the spec: the kernel source (section 6), a class of the
    repository declared outside this file; exposes the quadratic cost matrix
    and the one-column linear cost. *)
Record Spline1dKernel : Type := mkKernel {
  kernel_matrix : MatrixXd;
  offset : MatrixXd
}.

(** Modelled from the spec: a constraint block (sections 4.2 and 6), a class
    of the repository declared outside this file; holds a constraint matrix
    and a one-column boundary matrix. *)
Record AffineConstraint : Type := mkAffine {
  constraint_matrix : MatrixXd;
  constraint_boundary : MatrixXd
}.

(** Modelled from the spec: the constraint source (section 6), with its
    inequality block and its equality block. *)
Record Spline1dConstraint : Type := mkConstraint {
  inequality_constraint : AffineConstraint;
  equality_constraint : AffineConstraint
}.

(** A block as the spec describes it: one boundary value per matrix row, in
    a single column. *)
Definition wf_block (b : AffineConstraint) : Prop :=
  rows (constraint_boundary b) = rows (constraint_matrix b) /\
  cols (constraint_boundary b) = 1.

Definition wf_constraint (c : Spline1dConstraint) : Prop :=
  wf_block (inequality_constraint c) /\
  wf_block (equality_constraint c) /\
  cols (constraint_matrix (equality_constraint c)) =
  cols (constraint_matrix (inequality_constraint c)).

(** Modelled from the spec: the spline target (section 6), a class of the
    repository declared outside this file: its order, and the
    segment-setting operation, which answers a success flag and leaves the
    spline updated. *)
Class Spline1dApi (Spline1d : Type) : Type := {
  spline_order : Spline1d -> nat;
  SetSplineSegs : Spline1d -> MatrixXd -> nat -> bool * Spline1d
}.

(** Modelled from the spec: the dense-to-sparse converter (section 4.1),
    [apollo::common::math::DenseToCSCMatrix], defined outside this file:
    values, row indices and column pointers of a dense matrix. *)
Class MatrixOperations : Type := {
  DenseToCSCMatrix : MatrixXd -> list c_float * list Z * list Z
}.

(** ** OSQP: data, settings, workspace *)

(** Compressed sparse column header, as [csc_matrix] fills it. *)
Record csc : Type := mkCsc {
  csc_m : nat;
  csc_n : nat;
  csc_nzmax : nat;
  csc_x : list c_float;
  csc_i : list Z;
  csc_p : list Z
}.

(** A null pointer, the address of a heap block, or the indeterminate value
    of a pointer field that [c_malloc] left unset. *)
Inductive ptr : Type :=
  | nullptr
  | addr (a : nat)
  | wild.

Global Instance ptr_eq_dec : EqDecision ptr.
Proof. solve_decision. Defined.

(** [OSQPData]; [q], [l] and [u] stand for the arrays the fields point to. *)
Record OSQPData : Type := mkData {
  d_n : nat;
  d_m : nat;
  d_P : ptr;
  d_q : list c_float;
  d_A : ptr;
  d_l : list c_float;
  d_u : list c_float
}.

(** The fields of [OSQPSettings] the constructor assigns, and [polish]. *)
Record OSQPSettings : Type := mkSettings {
  alpha : c_float;
  eps_abs : c_float;
  eps_rel : c_float;
  max_iter : Z;
  polish : bool;
  verbose : bool;
  warm_start : bool
}.

(** [work->info->status_val] *)
Inductive osqp_status : Type :=
  | OSQP_SOLVED
  | OSQP_MAX_ITER_REACHED
  | OSQP_PRIMAL_INFEASIBLE
  | OSQP_DUAL_INFEASIBLE
  | OSQP_UNSOLVED.

(** The solver reports non-convergence or infeasibility. *)
Definition reports_failure (st : osqp_status) : bool :=
  match st with
  | OSQP_MAX_ITER_REACHED | OSQP_PRIMAL_INFEASIBLE | OSQP_DUAL_INFEASIBLE => true
  | OSQP_SOLVED | OSQP_UNSOLVED => false
  end.

(** The problem [osqp_setup] reads through its [OSQPData] argument, with the
    two CSC headers followed, and the settings it is given ([None]: a
    settings block that was allocated and never filled). *)
Record QPProblem : Type := mkQP {
  qp_n : nat;
  qp_m : nat;
  qp_P : csc;
  qp_q : list c_float;
  qp_A : csc;
  qp_l : list c_float;
  qp_u : list c_float
}.

(** [OSQPWorkspace]: the primal vector [solution->x] and [info->status_val],
    with the problem and settings the workspace was set up from. *)
Record OSQPWorkspace : Type := mkWork {
  w_problem : QPProblem;
  w_settings : option OSQPSettings;
  solution_x : list c_float;
  info_status_val : osqp_status
}.

(** The solver is an oracle behind a fixed contract: the default settings,
    what [osqp_setup] builds from a problem ([None]: it answers a null
    workspace) and how [osqp_solve] leaves a workspace. *)
Class OsqpApi : Type := {
  osqp_default_settings : OSQPSettings;
  osqp_setup_workspace : QPProblem -> option OSQPSettings -> option OSQPWorkspace;
  osqp_solve_workspace : OSQPWorkspace -> OSQPWorkspace
}.

(** ** Memory *)

Inductive block : Type :=
  | BSettings (s : option OSQPSettings)
  | BData (d : OSQPData)
  | BCsc (c : csc)
  | BWorkspace (w : OSQPWorkspace).

(** The calls made to the allocator and to the solver, in order. *)
Inductive event : Type :=
  | ev_malloc (a : nat)
  | ev_free (p : ptr)
  | ev_setup (w : ptr)
  | ev_solve (w : ptr)
  | ev_cleanup (w : ptr).

Global Instance event_eq_dec : EqDecision event.
Proof. solve_decision. Defined.

Record memory : Type := mkMemory {
  heap : gmap nat block;
  brk : nat;
  trace : list event
}.

(** What C++ leaves undefined: reading or writing through a pointer to no
    live block, and releasing such a pointer. *)
Inductive fault : Type :=
  | bad_deref (p : ptr)
  | bad_free (p : ptr)
  | bad_cleanup (p : ptr).

Inductive result (A : Type) : Type :=
  | Ok (a : A)
  | Fault (f : fault).
Arguments Ok {A} a.
Arguments Fault {A} f.

Definition Mem (A : Type) : Type := memory -> result A * memory.

Definition ret {A} (a : A) : Mem A := fun mu => (Ok a, mu).

Definition bind {A B} (c : Mem A) (k : A -> Mem B) : Mem B :=
  fun mu =>
    match c mu with
    | (Ok a, mu') => k a mu'
    | (Fault f, mu') => (Fault f, mu')
    end.

Definition throw {A} (f : fault) : Mem A := fun mu => (Fault f, mu).

Notation "'let*' x ':=' c 'in' k" := (bind c (fun x => k))
  (at level 10, x name, c at level 100, k at level 200).

Definition log (e : event) : Mem unit :=
  fun mu => (Ok tt, mkMemory (heap mu) (brk mu) (trace mu ++ [e])).

Definition load (p : ptr) : Mem block :=
  fun mu =>
    match p with
    | addr a =>
        match heap mu !! a with
        | Some b => (Ok b, mu)
        | None => (Fault (bad_deref p), mu)
        end
    | _ => (Fault (bad_deref p), mu)
    end.

Definition store (p : ptr) (b : block) : Mem unit :=
  fun mu =>
    match p with
    | addr a =>
        match heap mu !! a with
        | Some _ => (Ok tt, mkMemory (<[a := b]> (heap mu)) (brk mu) (trace mu))
        | None => (Fault (bad_deref p), mu)
        end
    | _ => (Fault (bad_deref p), mu)
    end.

(** A fresh block.  An address is never handed out twice, so a pointer to a
    released block never names a live one. *)
Definition alloc (b : block) : Mem ptr :=
  fun mu =>
    (Ok (addr (brk mu)),
     mkMemory (<[brk mu := b]> (heap mu)) (S (brk mu)) (trace mu)).

(** [c_malloc(sizeof ...)]: a block with the given (unset) content. *)
Definition c_malloc (b : block) : Mem ptr :=
  fun mu =>
    (Ok (addr (brk mu)),
     mkMemory (<[brk mu := b]> (heap mu)) (S (brk mu))
              (trace mu ++ [ev_malloc (brk mu)])).

Definition release (a : nat) : Mem unit :=
  fun mu => (Ok tt, mkMemory (delete a (heap mu)) (brk mu) (trace mu)).

(** [c_free(p)]: nothing for a null pointer, the block released when [p]
    is live, undefined otherwise. *)
Definition c_free (p : ptr) : Mem unit :=
  let* _ := log (ev_free p) in
  fun mu =>
    match p with
    | nullptr => (Ok tt, mu)
    | addr a =>
        match heap mu !! a with
        | Some _ => release a mu
        | None => (Fault (bad_free p), mu)
        end
    | wild => (Fault (bad_free p), mu)
    end.

Definition load_data (p : ptr) : Mem OSQPData :=
  let* b := load p in
  match b with
  | BData d => ret d
  | _ => throw (bad_deref p)
  end.

(** [p->field = ...] on an [OSQPData] block. *)
Definition update_data (p : ptr) (f : OSQPData -> OSQPData) : Mem unit :=
  let* d := load_data p in
  store p (BData (f d)).

Definition set_d_n (v : nat) (d : OSQPData) : OSQPData :=
  mkData v (d_m d) (d_P d) (d_q d) (d_A d) (d_l d) (d_u d).
Definition set_d_m (v : nat) (d : OSQPData) : OSQPData :=
  mkData (d_n d) v (d_P d) (d_q d) (d_A d) (d_l d) (d_u d).
Definition set_d_P (v : ptr) (d : OSQPData) : OSQPData :=
  mkData (d_n d) (d_m d) v (d_q d) (d_A d) (d_l d) (d_u d).
Definition set_d_q (v : list c_float) (d : OSQPData) : OSQPData :=
  mkData (d_n d) (d_m d) (d_P d) v (d_A d) (d_l d) (d_u d).
Definition set_d_A (v : ptr) (d : OSQPData) : OSQPData :=
  mkData (d_n d) (d_m d) (d_P d) (d_q d) v (d_l d) (d_u d).
Definition set_d_l (v : list c_float) (d : OSQPData) : OSQPData :=
  mkData (d_n d) (d_m d) (d_P d) (d_q d) (d_A d) v (d_u d).
Definition set_d_u (v : list c_float) (d : OSQPData) : OSQPData :=
  mkData (d_n d) (d_m d) (d_P d) (d_q d) (d_A d) (d_l d) v.

(** An [OSQPData] block as [c_malloc] hands it out. *)
Definition unset_data : OSQPData := mkData 0 0 wild [] wild [] [].

(** ** The OSQP entry points the class calls *)

(** [csc_matrix(m, n, nzmax, x, i, p)]: a fresh header over the caller's
    three arrays. *)
Definition csc_matrix (m n nzmax : nat) (x : list c_float) (i p : list Z) : Mem ptr :=
  c_malloc (BCsc (mkCsc m n nzmax x i p)).

Section Osqp.
Context `{OsqpApi}.

(** [osqp_setup(data, settings)]: a fresh workspace, or null when the
    solver rejects the problem. *)
Definition osqp_setup (data settings : ptr) : Mem ptr :=
  let* d := load_data data in
  let* bP := load (d_P d) in
  let* bA := load (d_A d) in
  let* bs := load settings in
  match bP, bA, bs with
  | BCsc P, BCsc A, BSettings so =>
      match osqp_setup_workspace
              (mkQP (d_n d) (d_m d) P (d_q d) A (d_l d) (d_u d)) so with
      | Some w =>
          let* p := alloc (BWorkspace w) in
          let* _ := log (ev_setup p) in
          ret p
      | None =>
          let* _ := log (ev_setup nullptr) in
          ret nullptr
      end
  | _, _, _ => throw (bad_deref data)
  end.

(** [osqp_solve(work)]: runs the iteration, leaving solution and status in
    the workspace. *)
Definition osqp_solve (work : ptr) : Mem unit :=
  let* _ := log (ev_solve work) in
  let* b := load work in
  match b with
  | BWorkspace w => store work (BWorkspace (osqp_solve_workspace w))
  | _ => throw (bad_deref work)
  end.

(** [osqp_cleanup(work)]: nothing for a null workspace, the workspace
    released when it is live, undefined otherwise. *)
Definition osqp_cleanup (work : ptr) : Mem unit :=
  let* _ := log (ev_cleanup work) in
  fun mu =>
    match work with
    | nullptr => (Ok tt, mu)
    | addr a =>
        match heap mu !! a with
        | Some (BWorkspace _) => release a mu
        | _ => (Fault (bad_cleanup work), mu)
        end
    | wild => (Fault (bad_cleanup work), mu)
    end.

End Osqp.

(** ** OsqpSpline1dSolver *)

(** The members of the class and of its base [Spline1dSolver]. *)
Record OsqpSpline1dSolver (Spline1d : Type) : Type := mkSolver {
  spline_ : Spline1d;
  kernel_ : Spline1dKernel;
  constraint_ : Spline1dConstraint;
  last_num_constraint_ : nat;
  last_num_param_ : nat;
  settings_ : ptr;
  work_ : ptr;
  data_ : ptr
}.
Arguments mkSolver {Spline1d}.
Arguments spline_ {Spline1d}.
Arguments kernel_ {Spline1d}.
Arguments constraint_ {Spline1d}.
Arguments last_num_constraint_ {Spline1d}.
Arguments last_num_param_ {Spline1d}.
Arguments settings_ {Spline1d}.
Arguments work_ {Spline1d}.
Arguments data_ {Spline1d}.

(** [constexpr float kEpsilon = 1e-9;] and [constexpr float kUpperLimit = 1e9;]
    the double literal converted to float. *)
Definition kEpsilon : spec_float := to_float (decimal 1 9).
Definition kUpperLimit : spec_float := to_float (of_Z (10 ^ 9)).

(** Lines 136-140: the array [q] and the loop that fills it. *)
Definition offset_array (q_eigen : MatrixXd) : list c_float :=
  foldl (fun q i => <[i := coeff1 q_eigen i]> q)
        (replicate (rows q_eigen) dzero)
        (seq 0 (msize q_eigen)).

(** Lines 152-163: the arrays [l] and [u] and the loop that fills them;
    a float operand is widened to double. *)
Definition bound_step (inequality_constraint_boundary equality_constraint_boundary : MatrixXd)
    (lu : list c_float * list c_float) (i : nat) : list c_float * list c_float :=
  if i <? rows inequality_constraint_boundary then
    (<[i := coeff inequality_constraint_boundary i 0]> (fst lu),
     <[i := to_double kUpperLimit]> (snd lu))
  else
    let idx := i - rows inequality_constraint_boundary in
    (<[i := dsub (coeff equality_constraint_boundary idx 0) (to_double kEpsilon)]> (fst lu),
     <[i := dadd (coeff equality_constraint_boundary idx 0) (to_double kEpsilon)]> (snd lu)).

Definition bound_arrays (inequality_constraint_boundary equality_constraint_boundary : MatrixXd)
    : list c_float * list c_float :=
  let constraint_num :=
    rows inequality_constraint_boundary + rows equality_constraint_boundary in
  foldl (bound_step inequality_constraint_boundary equality_constraint_boundary)
        (replicate constraint_num dzero, replicate constraint_num dzero)
        (seq 0 constraint_num).

(** The bound arrays of a constraint source. *)
Definition lower_bounds (c : Spline1dConstraint) : list c_float :=
  fst (bound_arrays (constraint_boundary (inequality_constraint c))
                    (constraint_boundary (equality_constraint c))).

Definition upper_bounds (c : Spline1dConstraint) : list c_float :=
  snd (bound_arrays (constraint_boundary (inequality_constraint c))
                    (constraint_boundary (equality_constraint c))).

(** Lines 111-114: the combined constraint matrix. *)
Definition stack_constraints (inequality_constraint_matrix equality_constraint_matrix : MatrixXd)
    : MatrixXd :=
  comma_init2
    (MatrixXd_sized
       (rows inequality_constraint_matrix + rows equality_constraint_matrix)
       (cols inequality_constraint_matrix))
    inequality_constraint_matrix equality_constraint_matrix.

(** Lines 178-181: the solution copied into a one-column matrix. *)
Definition solved_params_of (n : nat) (x : list c_float) : MatrixXd :=
  foldl (fun M i => set_coeff M i 0 (default dzero (x !! i)))
        (MatrixXd_Zero n 1) (seq 0 n).

Section Methods.
Context {Spline1d : Type} `{Spline1dApi Spline1d} `{OsqpApi} `{MatrixOperations}.

Definition with_settings (s : OsqpSpline1dSolver Spline1d) (p : ptr) :=
  mkSolver (spline_ s) (kernel_ s) (constraint_ s) (last_num_constraint_ s)
           (last_num_param_ s) p (work_ s) (data_ s).
Definition with_data (s : OsqpSpline1dSolver Spline1d) (p : ptr) :=
  mkSolver (spline_ s) (kernel_ s) (constraint_ s) (last_num_constraint_ s)
           (last_num_param_ s) (settings_ s) (work_ s) p.
Definition with_work (s : OsqpSpline1dSolver Spline1d) (p : ptr) :=
  mkSolver (spline_ s) (kernel_ s) (constraint_ s) (last_num_constraint_ s)
           (last_num_param_ s) (settings_ s) p (data_ s).
Definition with_last_num_param (s : OsqpSpline1dSolver Spline1d) (v : nat) :=
  mkSolver (spline_ s) (kernel_ s) (constraint_ s) (last_num_constraint_ s)
           v (settings_ s) (work_ s) (data_ s).
Definition with_last_num_constraint (s : OsqpSpline1dSolver Spline1d) (v : nat) :=
  mkSolver (spline_ s) (kernel_ s) (constraint_ s) v
           (last_num_param_ s) (settings_ s) (work_ s) (data_ s).
Definition with_spline (s : OsqpSpline1dSolver Spline1d) (v : Spline1d) :=
  mkSolver v (kernel_ s) (constraint_ s) (last_num_constraint_ s)
           (last_num_param_ s) (settings_ s) (work_ s) (data_ s).

(** The settings the constructor leaves in its block: OSQP's defaults with
    six fields overwritten ([polish] stays as the defaults have it). *)
Definition constructor_settings : OSQPSettings :=
  mkSettings (of_Z 1) (decimal 1 3) (decimal 1 3) 5000
             (polish osqp_default_settings) false true.

(** [OsqpSpline1dSolver(x_knots, order)].  The base class constructor has
    built the spline, the kernel and the constraint from the knots and the
    order and given the two counts their initial values; [work_] starts
    with the initialiser [work0] of the class declaration. *)
Definition OsqpSpline1dSolver_new (spline : Spline1d) (kernel : Spline1dKernel)
    (constraint : Spline1dConstraint) (num_constraint0 num_param0 : nat)
    (work0 : ptr) : Mem (OsqpSpline1dSolver Spline1d) :=
  let* settings := c_malloc (BSettings None) in
  let* _ := store settings (BSettings (Some osqp_default_settings)) in
  let* _ := store settings (BSettings (Some constructor_settings)) in
  let* data := c_malloc (BData unset_data) in
  ret (mkSolver spline kernel constraint num_constraint0 num_param0
                settings work0 data).

(** [CleanUp()] *)
Definition CleanUp (s : OsqpSpline1dSolver Spline1d) : Mem unit :=
  let* _ := osqp_cleanup (work_ s) in
  let* _ :=
    if decide (data_ s = nullptr) then ret tt
    else
      let* d := load_data (data_ s) in
      let* _ := c_free (d_A d) in
      let* d' := load_data (data_ s) in
      let* _ := c_free (d_P d') in
      c_free (data_ s) in
  if decide (settings_ s = nullptr) then ret tt
  else c_free (settings_ s).

(** The destructor. *)
Definition OsqpSpline1dSolver_delete (s : OsqpSpline1dSolver Spline1d) : Mem unit :=
  CleanUp s.

(** [ResetOsqp()] *)
Definition ResetOsqp (s : OsqpSpline1dSolver Spline1d)
    : Mem (OsqpSpline1dSolver Spline1d) :=
  let* settings := c_malloc (BSettings None) in
  let* data := c_malloc (BData unset_data) in
  ret (with_data (with_settings s settings) data).

(** [Solve()] *)
Definition Solve (s : OsqpSpline1dSolver Spline1d)
    : Mem (bool * OsqpSpline1dSolver Spline1d) :=
  (* change P to csc format *)
  let P := kernel_matrix (kernel_ s) in
  if rows P =? 0 then ret (false, s) else
  let '(P_data, P_indices, P_indptr) := DenseToCSCMatrix P in
  let P_nnz := length P_data in
  let P_x := P_data in
  let P_i := P_indices in
  let P_p := P_indptr in
  (* change A to csc format *)
  let inequality_constraint_matrix :=
    constraint_matrix (inequality_constraint (constraint_ s)) in
  let equality_constraint_matrix :=
    constraint_matrix (equality_constraint (constraint_ s)) in
  let A := stack_constraints inequality_constraint_matrix equality_constraint_matrix in
  if rows A =? 0 then ret (false, s) else
  let '(A_data, A_indices, A_indptr) := DenseToCSCMatrix A in
  let A_nnz := length A_data in
  let A_x := A_data in
  let A_i := A_indices in
  let A_p := A_indptr in
  (* set q, l, u: l < A < u *)
  let q := offset_array (offset (kernel_ s)) in
  let inequality_constraint_boundary :=
    constraint_boundary (inequality_constraint (constraint_ s)) in
  let equality_constraint_boundary :=
    constraint_boundary (equality_constraint (constraint_ s)) in
  let constraint_num :=
    rows inequality_constraint_boundary + rows equality_constraint_boundary in
  let '(l, u) := bound_arrays inequality_constraint_boundary equality_constraint_boundary in
  let* _ := update_data (data_ s) (set_d_n (rows P)) in
  let* _ := update_data (data_ s) (set_d_m constraint_num) in
  let* d := load_data (data_ s) in
  let* data_P := csc_matrix (d_n d) (d_n d) P_nnz P_x P_i P_p in
  let* _ := update_data (data_ s) (set_d_P data_P) in
  let* _ := update_data (data_ s) (set_d_q q) in
  let* d := load_data (data_ s) in
  let* data_A := csc_matrix (d_m d) (d_n d) A_nnz A_x A_i A_p in
  let* _ := update_data (data_ s) (set_d_A data_A) in
  let* _ := update_data (data_ s) (set_d_l l) in
  let* _ := update_data (data_ s) (set_d_u u) in
  let* work := osqp_setup (data_ s) (settings_ s) in
  let s := with_work s work in
  (* Solve Problem *)
  let* _ := osqp_solve (work_ s) in
  let* b := load (work_ s) in
  match b with
  | BWorkspace w =>
      let solved_params := solved_params_of (rows P) (solution_x w) in
      let s := with_last_num_param s (rows P) in
      let s := with_last_num_constraint s constraint_num in
      let '(ok, spline) :=
        SetSplineSegs (spline_ s) solved_params (spline_order (spline_ s)) in
      ret (ok, with_spline s spline)
  | _ => throw (bad_deref (work_ s))
  end.

End Methods.

(** ** Sequences of calls on one solver object *)

Inductive call : Type :=
  | call_Solve
  | call_CleanUp
  | call_ResetOsqp.

Section Lifetime.
Context {Spline1d : Type} `{Spline1dApi Spline1d} `{OsqpApi} `{MatrixOperations}.

Definition do_call (c : call) (s : OsqpSpline1dSolver Spline1d)
    : Mem (OsqpSpline1dSolver Spline1d) :=
  match c with
  | call_Solve => let* r := Solve s in ret (snd r)
  | call_CleanUp => let* _ := CleanUp s in ret s
  | call_ResetOsqp => ResetOsqp s
  end.

Fixpoint do_calls (cs : list call) (s : OsqpSpline1dSolver Spline1d)
    : Mem (OsqpSpline1dSolver Spline1d) :=
  match cs with
  | [] => ret s
  | c :: cs' => let* s' := do_call c s in do_calls cs' s'
  end.

(** Construction, the calls, destruction. *)
Definition lifetime (spline : Spline1d) (kernel : Spline1dKernel)
    (constraint : Spline1dConstraint) (cs : list call) : Mem unit :=
  let* s := OsqpSpline1dSolver_new spline kernel constraint 0 0 nullptr in
  let* s' := do_calls cs s in
  OsqpSpline1dSolver_delete s'.

End Lifetime.

Definition empty_memory : memory := mkMemory ∅ 0 [].

(** How often a workspace was handed to [osqp_cleanup]. *)
Definition cleanups (w : nat) (tr : list event) : nat :=
  length (List.filter (fun e => bool_decide (e = ev_cleanup (addr w))) tr).

(** The workspaces [osqp_setup] created. *)
Definition setups (tr : list event) : list nat :=
  omap (fun e => match e with ev_setup (addr w) => Some w | _ => None end) tr.

(** The solver was entered: a setup or a solve call is on the log. *)
Definition is_solver_call (e : event) : bool :=
  match e with
  | ev_setup _ | ev_solve _ => true
  | _ => false
  end.

Definition solver_calls (tr : list event) : list event :=
  List.filter is_solver_call tr.

(** ** Stand-ins for the collaborators, for concrete runs *)

Module Scenario.

(** A spline that records the parameters and the order it is given and
    accepts them. *)
Record recorded : Type := mkRecorded {
  r_order : nat;
  r_params : option MatrixXd
}.

Global Instance recorded_api : Spline1dApi recorded := {|
  spline_order := r_order;
  SetSplineSegs := fun sp params order => (true, mkRecorded order (Some params))
|}.

(** Modelled from the spec: the converter of section 4.1, columns left to
    right, rows top to bottom, a value emitted when it is not zero. *)
Definition csc_column (M : MatrixXd) (c : nat)
    (acc : list c_float * list Z * list Z) : list c_float * list Z * list Z :=
  foldl (fun '(data, indices, indptr) r =>
           if deqb (coeff M r c) dzero then (data, indices, indptr)
           else (data ++ [coeff M r c], indices ++ [Z.of_nat r], indptr))
        (let '(data, indices, indptr) := acc in
         (data, indices, indptr ++ [Z.of_nat (length data)]))
        (seq 0 (rows M)).

Definition dense_to_csc (M : MatrixXd) : list c_float * list Z * list Z :=
  let '(data, indices, indptr) :=
    foldl (fun acc c => csc_column M c acc) ([], [], []) (seq 0 (cols M)) in
  (data, indices, indptr ++ [Z.of_nat (length data)]).

Global Instance matrix_operations : MatrixOperations := {|
  DenseToCSCMatrix := dense_to_csc
|}.

Definition default_settings : OSQPSettings :=
  mkSettings (decimal 16 1) (decimal 1 3) (decimal 1 3) 4000 false true true.

(** A solver that accepts every problem and answers the status [st] and
    the vector [x]. *)
Definition answering (st : osqp_status) (x : list c_float) : OsqpApi := {|
  osqp_default_settings := default_settings;
  osqp_setup_workspace := fun qp so =>
    Some (mkWork qp so (replicate (qp_n qp) dzero) OSQP_UNSOLVED);
  osqp_solve_workspace := fun w =>
    mkWork (w_problem w) (w_settings w) x st
|}.

(** A solver that rejects every problem. *)
Definition rejecting : OsqpApi := {|
  osqp_default_settings := default_settings;
  osqp_setup_workspace := fun _ _ => None;
  osqp_solve_workspace := fun w => w
|}.

Definition column (xs : list Z) : MatrixXd :=
  mkMatrix (length xs) 1 (of_Z <$> xs).

(** Cost [[2,0],[0,2]], offset [0,0]. *)
Definition kernel : Spline1dKernel :=
  mkKernel (mkMatrix 2 2 (of_Z <$> [2; 0; 0; 2]%Z)) (column [0; 0]%Z).

(** [x0 >= 1] and [x1 == 3]. *)
Definition constraint : Spline1dConstraint :=
  mkConstraint
    (mkAffine (mkMatrix 1 2 (of_Z <$> [1; 0]%Z)) (column [1]%Z))
    (mkAffine (mkMatrix 1 2 (of_Z <$> [0; 1]%Z)) (column [3]%Z)).

(** [x0 >= 1] and [x0 == 0]: no point satisfies both. *)
Definition infeasible_constraint : Spline1dConstraint :=
  mkConstraint
    (mkAffine (mkMatrix 1 2 (of_Z <$> [1; 0]%Z)) (column [1]%Z))
    (mkAffine (mkMatrix 1 2 (of_Z <$> [1; 0]%Z)) (column [0]%Z)).

(** [x0 >= 2e9] and [x1 == 3]: a lower bound above the sentinel. *)
Definition high_floor_constraint : Spline1dConstraint :=
mkConstraint
  (mkAffine (mkMatrix 1 2 (of_Z <$> [1; 0]%Z)) (column [2000000000]%Z))
  (mkAffine (mkMatrix 1 2 (of_Z <$> [0; 1]%Z)) (column [3]%Z)).

Definition no_constraint : Spline1dConstraint :=
  mkConstraint
    (mkAffine (mkMatrix 0 2 []) (mkMatrix 0 1 []))
    (mkAffine (mkMatrix 0 2 []) (mkMatrix 0 1 [])).

Definition empty_kernel : Spline1dKernel :=
  mkKernel (mkMatrix 0 0 []) (mkMatrix 0 1 []).

Definition spline0 : recorded := mkRecorded 5 None.

(** A solver object after construction, in the memory the constructor left. *)
Definition constructed (O : OsqpApi) (k : Spline1dKernel) (c : Spline1dConstraint)
    : result (OsqpSpline1dSolver recorded) * memory :=
  OsqpSpline1dSolver_new spline0 k c 0 0 nullptr empty_memory.

Definition fresh (k : Spline1dKernel) (c : Spline1dConstraint)
    : OsqpSpline1dSolver recorded :=
  mkSolver spline0 k c 0 0 (addr 0) nullptr (addr 1).

Definition fresh_memory (O : OsqpApi) : memory :=
  snd (constructed O kernel constraint).

End Scenario.

(** ** Prefixes of the loops, for the proofs *)

(** The rows of one column written so far. *)
Definition column_prefix (X : MatrixXd) (r0 c0 j : nat) (A : MatrixXd) (n : nat) : MatrixXd :=
  foldl (fun A' i => set_coeff A' (r0 + i) (c0 + j) (coeff X i j)) A (seq 0 n).

(** The columns of a block written so far. *)
Definition block_prefix (A : MatrixXd) (r0 c0 : nat) (X : MatrixXd) (n : nat) : MatrixXd :=
  foldl (fun A' j => assign_column X r0 c0 j A') A (seq 0 n).


(** The passes of the bound loop made so far. *)
Definition bound_prefix (I E : MatrixXd) (n : nat) : list c_float * list c_float :=
  foldl (bound_step I E)
        (replicate (rows I + rows E) dzero, replicate (rows I + rows E) dzero)
        (seq 0 n).

(** What the loop stores in [l[i]] and in [u[i]]. *)
Definition lower_entry (I E : MatrixXd) (i : nat) : c_float :=
  if i <? rows I then coeff I i 0
  else dsub (coeff E (i - rows I) 0) (to_double kEpsilon).

Definition upper_entry (I E : MatrixXd) (i : nat) : c_float :=
  if i <? rows I then to_double kUpperLimit
  else dadd (coeff E (i - rows I) 0) (to_double kEpsilon).

(** ** What a call that reaches the solver hands over and leaves behind *)

Section Assembled.
Context {Spline1d : Type} `{Spline1dApi Spline1d} `{OsqpApi} `{MatrixOperations}.

Definition csc_of (m n : nat) (M : MatrixXd) : csc :=
  let '(data, indices, indptr) := DenseToCSCMatrix M in
  mkCsc m n (length data) data indices indptr.

Definition constraint_num_of (c : Spline1dConstraint) : nat :=
  rows (constraint_boundary (inequality_constraint c)) +
  rows (constraint_boundary (equality_constraint c)).

Definition combined_matrix (c : Spline1dConstraint) : MatrixXd :=
  stack_constraints (constraint_matrix (inequality_constraint c))
                    (constraint_matrix (equality_constraint c)).

(** The problem lines 165-171 leave behind [data_]. *)
Definition assembled_problem (s : OsqpSpline1dSolver Spline1d) : QPProblem :=
  let n := rows (kernel_matrix (kernel_ s)) in
  let m := constraint_num_of (constraint_ s) in
  mkQP n m
       (csc_of n n (kernel_matrix (kernel_ s)))
       (offset_array (offset (kernel_ s)))
       (csc_of m n (combined_matrix (constraint_ s)))
       (lower_bounds (constraint_ s))
       (upper_bounds (constraint_ s)).

(** The [OSQPData] block after lines 165-171. *)
Definition assembled_data (s : OsqpSpline1dSolver Spline1d) (pP pA : ptr) : OSQPData :=
  let qp := assembled_problem s in
  mkData (qp_n qp) (qp_m qp) pP (qp_q qp) pA (qp_l qp) (qp_u qp).

(** The memory after a call that went through setup and solve, with the
    data block at [dA] and the workspace [w]. *)
Definition memory_after_solve (s : OsqpSpline1dSolver Spline1d) (mu : memory)
    (dA : nat) (w : OSQPWorkspace) : memory :=
  let qp := assembled_problem s in
  mkMemory
    (<[brk mu + 2 := BWorkspace w]>
       (<[dA := BData (assembled_data s (addr (brk mu)) (addr (brk mu + 1)))]>
          (<[brk mu + 1 := BCsc (qp_A qp)]>
             (<[brk mu := BCsc (qp_P qp)]> (heap mu)))))
    (brk mu + 3)
    (trace mu ++ [ev_malloc (brk mu); ev_malloc (brk mu + 1);
                  ev_setup (addr (brk mu + 2)); ev_solve (addr (brk mu + 2))]).

(** The object after such a call. *)
Definition solver_after_solve (s : OsqpSpline1dSolver Spline1d) (mu : memory)
    (w : OSQPWorkspace) : bool * OsqpSpline1dSolver Spline1d :=
  let n := rows (kernel_matrix (kernel_ s)) in
  let r := SetSplineSegs (spline_ s) (solved_params_of n (solution_x w))
                         (spline_order (spline_ s)) in
  (fst r,
   mkSolver (snd r) (kernel_ s) (constraint_ s)
            (constraint_num_of (constraint_ s)) n
            (settings_ s) (addr (brk mu + 2)) (data_ s)).

End Assembled.

(** Every live block lies below the allocation mark. *)
Definition wf_memory (mu : memory) : Prop :=
  map_Forall (fun a _ => a < brk mu) (heap mu).

(** The passes of the copy loop of lines 179-181 made so far. *)
Definition solved_prefix (n : nat) (x : list c_float) (k : nat) : MatrixXd :=
  foldl (fun M i => set_coeff M i 0 (default dzero (x !! i)))
        (MatrixXd_Zero n 1) (seq 0 k).

(** ** Rounding to nearest even, in integers *)

Module Rounding.
Local Open Scope Z_scope.

(** The integer nearest to [M / 2^k], ties to even. *)
Definition rne (M k : Z) : Z :=
  let m := M / 2 ^ k in
  let rem := M mod 2 ^ k in
  match 2 * rem ?= 2 ^ k with
  | Lt => m
  | Eq => if Z.even m then m else m + 1
  | Gt => m + 1
  end.

(** A shift record that stands for [M] after [k] shifts to the right:
    quotient, round bit and sticky bit. *)
Definition shr_inv (M k : Z) (mrs : shr_record) : Prop :=
  shr_m mrs = M / 2 ^ k /\
  shr_r mrs = (2 ^ k <=? 2 * (M mod 2 ^ k)) /\
  shr_s mrs = negb (M mod 2 ^ k =? 0) && negb (2 * (M mod 2 ^ k) =? 2 ^ k).

(** [fexp] at precision 53 and exponent bound 1024. *)
Definition fexp64 (x : Z) : Z := Z.max (x - 53) (-1074).

(** The number [binary_round_aux] returns for the rounded mantissa [R] at
    exponent [E]: a carry to [2^53] moves to the next exponent, an exponent
    above 971 overflows. *)
Definition finish (s : bool) (R E : Z) : spec_float :=
  if R <? 2 ^ 53 then
    match R with
    | Zpos m => if E <=? 971 then S754_finite s m E else S754_infinity s
    | Z0 => S754_zero s
    | Zneg _ => S754_nan
    end
  else if E + 1 <=? 971 then S754_finite s 4503599627370496 (E + 1)
       else S754_infinity s.

(** The mantissa of [p * 2^e] at its canonical exponent, rounded. *)
Definition rounded_mantissa (p e : Z) : Z :=
  let E := fexp64 (Zdigits2 p + e) in
  if E <=? e then p * 2 ^ (e - E) else rne p (E - e).

(** The value of a number in units of [2^-1074] (the infinities at
    [2^1024]). *)
Definition scaled (x : spec_float) : Z :=
  match x with
  | S754_zero _ => 0
  | S754_finite s m e => cond_Zopp s (Zpos m * 2 ^ (e + 1074))
  | S754_infinity s => cond_Zopp s (2 ^ 2098)
  | S754_nan => 0
  end.

(** Finite numbers in canonical form, zeros and infinities. *)
Definition good (x : spec_float) : Prop :=
  match x with
  | S754_finite _ m e =>
      -1074 <= e <= 971 /\ Zdigits2 (Zpos m) <= 53 /\
      (e = -1074 \/ Zdigits2 (Zpos m) = 53)
  | S754_nan => False
  | _ => True
  end.

(** The rounded value of [p * 2^e], in units of [2^-1074]. *)
Definition rounded_value (p e : Z) : Z :=
  rounded_mantissa p e * 2 ^ (fexp64 (Zdigits2 p + e) + 1074).

(** The value of [binary_normalize M e], in units of [2^-1074]. *)
Definition normalized_value (M e : Z) : Z :=
  match M with
  | Z0 => 0
  | Zpos p => Z.min (2 ^ 2098) (rounded_value (Zpos p) e)
  | Zneg p => - Z.min (2 ^ 2098) (rounded_value (Zpos p) e)
  end.

End Rounding.

(** * Definitions for the further properties *)

(** ** What a computation adds to the log *)

Definition is_release (e : event) : bool :=
  match e with
  | ev_free _ | ev_cleanup _ => true
  | _ => false
  end.

Definition is_free (e : event) : bool :=
  match e with
  | ev_free _ => true
  | _ => false
  end.

Definition is_setup (e : event) : bool :=
  match e with
  | ev_setup _ => true
  | _ => false
  end.

Definition is_solve (e : event) : bool :=
  match e with
  | ev_solve _ => true
  | _ => false
  end.

Definition count (f : event -> bool) (evs : list event) : nat :=
  length (List.filter f evs).

(** Whatever the memory and whatever the outcome, [c] only appends events
    that satisfy [P], at most [n] of them counted by [cnt]. *)
Definition emits (P cnt : event -> bool) (n : nat) {A : Type} (c : Mem A) : Prop :=
  forall mu, exists evs,
    trace (snd (c mu)) = trace mu ++ evs /\
    forallb P evs = true /\
    count cnt evs <= n.

Section Returned.
Context {Spline1d : Type} `{Spline1dApi Spline1d}.

(** What [Solve] returns and leaves in the object once it has read the
    primal vector [x] from the workspace at [work]. *)
Definition returned_from (s : OsqpSpline1dSolver Spline1d) (work : ptr)
    (x : list c_float) : bool * OsqpSpline1dSolver Spline1d :=
  let n := rows (kernel_matrix (kernel_ s)) in
  let r := SetSplineSegs (spline_ s) (solved_params_of n x)
                         (spline_order (spline_ s)) in
  (fst r,
   mkSolver (snd r) (kernel_ s) (constraint_ s)
            (rows (constraint_boundary (inequality_constraint (constraint_ s))) +
             rows (constraint_boundary (equality_constraint (constraint_ s))))
            n (settings_ s) work (data_ s)).

End Returned.

(** [x0 >= 1] and [x1 == 2^26]: a target far from zero. *)
Definition far_target_constraint : Spline1dConstraint :=
  mkConstraint
    (mkAffine (mkMatrix 1 2 (of_Z <$> [1; 0]%Z)) (Scenario.column [1]%Z))
    (mkAffine (mkMatrix 1 2 (of_Z <$> [0; 1]%Z)) (Scenario.column [67108864]%Z)).


(** * Properties *)

(** ** Matrices: sizes and coefficients after block assignment *)

Section MatrixFacts.
Implicit Types (A X Y : MatrixXd) (i j k r c : nat).

Lemma rows_set_coeff A i j v : rows (set_coeff A i j v) = rows A.
Proof. reflexivity. Qed.

Lemma cols_set_coeff A i j v : cols (set_coeff A i j v) = cols A.
Proof. reflexivity. Qed.

Lemma length_set_coeff A i j v :
  length (m_storage (set_coeff A i j v)) = length (m_storage A).
Proof. apply length_insert. Qed.

Lemma column_prefix_S X r0 c0 j A n :
  column_prefix X r0 c0 j A (S n) =
  set_coeff (column_prefix X r0 c0 j A n) (r0 + n) (c0 + j) (coeff X n j).
Proof. unfold column_prefix. by rewrite seq_S, foldl_snoc. Qed.

Lemma column_prefix_shape X r0 c0 j A n :
  rows (column_prefix X r0 c0 j A n) = rows A /\
  cols (column_prefix X r0 c0 j A n) = cols A /\
  length (m_storage (column_prefix X r0 c0 j A n)) = length (m_storage A).
Proof.
  induction n as [|n IH]; [done|].
  rewrite column_prefix_S, rows_set_coeff, cols_set_coeff, length_set_coeff.
  exact IH.
Qed.

Lemma column_prefix_lookup X r0 c0 j A n k :
  m_storage (column_prefix X r0 c0 j A n) !! k =
  if decide (r0 + (c0 + j) * rows A <= k < r0 + (c0 + j) * rows A + n
             /\ k < length (m_storage A))
  then Some (coeff X (k - (r0 + (c0 + j) * rows A)) j)
  else m_storage A !! k.
Proof.
  induction n as [|n IH].
  - simpl. case_decide; [lia | done].
  - rewrite column_prefix_S. simpl.
    destruct (column_prefix_shape X r0 c0 j A n) as (Hr & _ & Hl).
    rewrite Hr.
    destruct (decide (k = r0 + n + (c0 + j) * rows A)) as [->|Hk].
    + destruct (decide (r0 + n + (c0 + j) * rows A < length (m_storage A))) as [Hlt|Hge].
      * rewrite list_lookup_insert_eq by lia.
        rewrite decide_True by lia. f_equal. f_equal. lia.
      * rewrite list_insert_ge by lia. rewrite IH.
        rewrite !decide_False by lia. done.
    + rewrite list_lookup_insert_ne by lia. rewrite IH.
      repeat case_decide; try done; lia.
Qed.

Lemma assign_column_eq X r0 c0 j A :
  assign_column X r0 c0 j A = column_prefix X r0 c0 j A (rows X).
Proof. reflexivity. Qed.

Lemma block_prefix_S A r0 c0 X n :
  block_prefix A r0 c0 X (S n) =
  assign_column X r0 c0 n (block_prefix A r0 c0 X n).
Proof. unfold block_prefix. by rewrite seq_S, foldl_snoc. Qed.

Lemma block_prefix_shape A r0 c0 X n :
  rows (block_prefix A r0 c0 X n) = rows A /\
  cols (block_prefix A r0 c0 X n) = cols A /\
  length (m_storage (block_prefix A r0 c0 X n)) = length (m_storage A).
Proof.
  induction n as [|n IH]; [done|].
  rewrite block_prefix_S, assign_column_eq.
  destruct (column_prefix_shape X r0 c0 n (block_prefix A r0 c0 X n) (rows X))
    as (-> & -> & ->).
  exact IH.
Qed.

Lemma assign_block_shape A r0 c0 X :
  rows (assign_block A r0 c0 X) = rows A /\
  cols (assign_block A r0 c0 X) = cols A /\
  length (m_storage (assign_block A r0 c0 X)) = length (m_storage A).
Proof. apply block_prefix_shape. Qed.

(** A coefficient of the destination after the first [n] columns of the
    block are written, when the block fits. *)
Lemma block_prefix_coeff A r0 c0 X n i j :
  wf_matrix A -> r0 + rows X <= rows A -> c0 + n <= cols A ->
  i < rows A -> j < cols A ->
  coeff (block_prefix A r0 c0 X n) i j =
  if decide (r0 <= i < r0 + rows X /\ c0 <= j < c0 + n)
  then coeff X (i - r0) (j - c0)
  else coeff A i j.
Proof.
  unfold wf_matrix. intros Hwf Hr Hc Hi Hj.
  induction n as [|n IH].
  - simpl. case_decide; [lia | done].
  - rewrite block_prefix_S, assign_column_eq.
    destruct (block_prefix_shape A r0 c0 X n) as (Hr' & Hc' & Hl').
    unfold coeff at 1.
    destruct (column_prefix_shape X r0 c0 n (block_prefix A r0 c0 X n) (rows X))
      as (-> & _ & _).
    rewrite column_prefix_lookup, Hr', Hl'.
    assert (i + j * rows A < length (m_storage A)) by nia.
    destruct (decide (j = c0 + n)) as [->|Hjn].
    + destruct (decide (r0 <= i < r0 + rows X)) as [Hin|Hout].
      * rewrite decide_True by nia. rewrite decide_True by lia. simpl.
        f_equal; nia.
      * rewrite decide_False by nia.
        fold (coeff (block_prefix A r0 c0 X n) i (c0 + n)). rewrite <- Hr'.
        fold (coeff (block_prefix A r0 c0 X n) i (c0 + n)).
        rewrite IH by lia. rewrite !decide_False by lia. done.
    + assert (~ (r0 + (c0 + n) * rows A <= i + j * rows A
                 < r0 + (c0 + n) * rows A + rows X)) by nia.
      rewrite decide_False by tauto.
      rewrite <- Hr'. fold (coeff (block_prefix A r0 c0 X n) i j).
      rewrite IH by lia.
      repeat case_decide; try done; lia.
Qed.

Lemma assign_block_coeff A r0 c0 X i j :
  wf_matrix A -> r0 + rows X <= rows A -> c0 + cols X <= cols A ->
  i < rows A -> j < cols A ->
  coeff (assign_block A r0 c0 X) i j =
  if decide (r0 <= i < r0 + rows X /\ c0 <= j < c0 + cols X)
  then coeff X (i - r0) (j - c0)
  else coeff A i j.
Proof. apply block_prefix_coeff. Qed.

Lemma rows_stack_constraints X Y :
  rows (stack_constraints X Y) = rows X + rows Y.
Proof.
  unfold stack_constraints, comma_init2.
  destruct (assign_block_shape
              (assign_block (MatrixXd_sized (rows X + rows Y) (cols X)) 0 0 X)
              (rows X) 0 Y) as (-> & _).
  destruct (assign_block_shape (MatrixXd_sized (rows X + rows Y) (cols X)) 0 0 X)
    as (-> & _).
  reflexivity.
Qed.

Lemma cols_stack_constraints X Y :
  cols (stack_constraints X Y) = cols X.
Proof.
  unfold stack_constraints, comma_init2.
  destruct (assign_block_shape
              (assign_block (MatrixXd_sized (rows X + rows Y) (cols X)) 0 0 X)
              (rows X) 0 Y) as (_ & -> & _).
  destruct (assign_block_shape (MatrixXd_sized (rows X + rows Y) (cols X)) 0 0 X)
    as (_ & -> & _).
  reflexivity.
Qed.

Lemma wf_MatrixXd_sized r c : wf_matrix (MatrixXd_sized r c).
Proof. unfold wf_matrix. simpl. by rewrite length_replicate. Qed.

Lemma wf_assign_block A r0 c0 X : wf_matrix A -> wf_matrix (assign_block A r0 c0 X).
Proof.
  unfold wf_matrix. intros Hwf.
  destruct (assign_block_shape A r0 c0 X) as (-> & -> & ->). exact Hwf.
Qed.

(** The coefficients of the stacked matrix. *)
Lemma stack_constraints_coeff X Y i j :
  cols Y = cols X -> i < rows X + rows Y -> j < cols X ->
  coeff (stack_constraints X Y) i j =
  if decide (i < rows X) then coeff X i j else coeff Y (i - rows X) j.
Proof.
  intros Hc Hi Hj. unfold stack_constraints, comma_init2.
  set (A0 := MatrixXd_sized (rows X + rows Y) (cols X)).
  destruct (assign_block_shape A0 0 0 X) as (Hr1 & Hc1 & _).
  rewrite assign_block_coeff;
    [| by apply wf_assign_block, wf_MatrixXd_sized
     | rewrite Hr1; simpl; lia | rewrite Hc1; simpl; lia
     | rewrite Hr1; simpl; lia | rewrite Hc1; simpl; lia ].
  destruct (decide (i < rows X)) as [Hlt|Hge].
  - rewrite decide_False by lia.
    rewrite assign_block_coeff;
      [| apply wf_MatrixXd_sized | simpl; lia.. ].
    rewrite decide_True by lia. f_equal; lia.
  - rewrite decide_True by lia. f_equal; lia.
Qed.

End MatrixFacts.

(** ** The bound arrays *)

Section BoundFacts.
Implicit Types (I E : MatrixXd) (i n : nat).

Lemma bound_prefix_S I E n :
  bound_prefix I E (S n) = bound_step I E (bound_prefix I E n) n.
Proof. unfold bound_prefix. by rewrite seq_S, foldl_snoc. Qed.

Lemma bound_step_entries I E lu i :
  bound_step I E lu i =
  (<[i := lower_entry I E i]> (fst lu), <[i := upper_entry I E i]> (snd lu)).
Proof.
  unfold bound_step, lower_entry, upper_entry.
  destruct (i <? rows I); reflexivity.
Qed.

Lemma bound_prefix_length I E n :
  length (fst (bound_prefix I E n)) = rows I + rows E /\
  length (snd (bound_prefix I E n)) = rows I + rows E.
Proof.
  induction n as [|n IH].
  - simpl. by rewrite length_replicate.
  - rewrite bound_prefix_S, bound_step_entries. simpl.
    by rewrite !length_insert.
Qed.

Lemma bound_prefix_lookup I E n i :
  i < rows I + rows E ->
  fst (bound_prefix I E n) !! i =
    Some (if decide (i < n) then lower_entry I E i else dzero) /\
  snd (bound_prefix I E n) !! i =
    Some (if decide (i < n) then upper_entry I E i else dzero).
Proof.
  intros Hi. induction n as [|n [IHl IHu]].
  - unfold bound_prefix. cbn [seq foldl fst snd].
    rewrite lookup_replicate_2 by done. by rewrite decide_False by lia.
  - rewrite bound_prefix_S, bound_step_entries. simpl.
    destruct (bound_prefix_length I E n) as [Hl Hu].
    destruct (decide (i = n)) as [->|Hne].
    + rewrite !list_lookup_insert_eq by lia. rewrite !decide_True by lia. done.
    + rewrite !list_lookup_insert_ne by lia. rewrite IHl, IHu.
      split; repeat case_decide; try done; lia.
Qed.

Lemma bound_arrays_lookup I E i :
  i < rows I + rows E ->
  fst (bound_arrays I E) !! i = Some (lower_entry I E i) /\
  snd (bound_arrays I E) !! i = Some (upper_entry I E i).
Proof.
  intros Hi.
  destruct (bound_prefix_lookup I E (rows I + rows E) i Hi) as [Hl Hu].
  rewrite decide_True in Hl, Hu by done. by split.
Qed.

Lemma bound_arrays_length I E :
  length (fst (bound_arrays I E)) = rows I + rows E /\
  length (snd (bound_arrays I E)) = rows I + rows E.
Proof. apply bound_prefix_length. Qed.

Lemma bound_arrays_lookup_inv I E i l u :
  fst (bound_arrays I E) !! i = Some l ->
  snd (bound_arrays I E) !! i = Some u ->
  i < rows I + rows E /\ l = lower_entry I E i /\ u = upper_entry I E i.
Proof.
  intros Hl Hu.
  assert (i < rows I + rows E) as Hi.
  { apply lookup_lt_Some in Hl.
    by rewrite (proj1 (bound_arrays_length I E)) in Hl. }
  destruct (bound_arrays_lookup I E i Hi) as [Hl' Hu'].
  split; [done|]. split; congruence.
Qed.

End BoundFacts.

(** The two constants, as doubles. *)
Lemma kUpperLimit_double : to_double kUpperLimit = of_Z (10 ^ 9).
Proof. vm_compute. reflexivity. Qed.

Lemma kUpperLimit_value : has_value (to_double kUpperLimit) 1000000000.
Proof. vm_compute. reflexivity. Qed.

Lemma kEpsilon_double :
  to_double kEpsilon = S754_finite false (9007199 * 2 ^ 29) (-82).
Proof. vm_compute. reflexivity. Qed.

Lemma kEpsilon_value : has_value (to_double kEpsilon) (9007199 / 2 ^ 53).
Proof. vm_compute. reflexivity. Qed.

Lemma kEpsilon_not_decimal :
  ~ has_value (to_double kEpsilon) (1 / 10 ^ 9) /\
  to_double kEpsilon <> decimal 1 9.
Proof. split; vm_compute; discriminate. Qed.

(** ** Running the memory operations *)

Lemma bind_ok {A B} (c : Mem A) (k : A -> Mem B) mu a mu' :
  c mu = (Ok a, mu') -> bind c k mu = k a mu'.
Proof. unfold bind. by intros ->. Qed.

Lemma load_ok a b mu :
  heap mu !! a = Some b -> load (addr a) mu = (Ok b, mu).
Proof. unfold load. by intros ->. Qed.

Lemma load_data_ok a d mu :
  heap mu !! a = Some (BData d) -> load_data (addr a) mu = (Ok d, mu).
Proof.
  intros Hd. unfold load_data. by rewrite (bind_ok _ _ _ _ _ (load_ok _ _ _ Hd)).
Qed.

Lemma store_ok a b b0 mu :
  heap mu !! a = Some b0 ->
  store (addr a) b mu = (Ok tt, mkMemory (<[a := b]> (heap mu)) (brk mu) (trace mu)).
Proof. unfold store. by intros ->. Qed.

Lemma update_data_ok a f d mu :
  heap mu !! a = Some (BData d) ->
  update_data (addr a) f mu =
  (Ok tt, mkMemory (<[a := BData (f d)]> (heap mu)) (brk mu) (trace mu)).
Proof.
  intros Hd. unfold update_data.
  rewrite (bind_ok _ _ _ _ _ (load_data_ok _ _ _ Hd)).
  by apply store_ok with (b0 := BData d).
Qed.

Lemma log_ok e mu :
  log e mu = (Ok tt, mkMemory (heap mu) (brk mu) (trace mu ++ [e])).
Proof. reflexivity. Qed.

Ltac heap_lookup :=
  cbn [heap brk trace];
  repeat first
    [ rewrite lookup_insert_eq
    | rewrite lookup_insert_ne by lia
    | rewrite lookup_delete_ne by lia ];
  first [ reflexivity | eassumption ].

Ltac step L := erewrite bind_ok; [ | first [ apply L | eapply L ]; heap_lookup ].

Section SolveFacts.
Context {Spline1d : Type} `{Spline1dApi Spline1d} `{OsqpApi} `{MatrixOperations}.
Implicit Types (s : OsqpSpline1dSolver Spline1d) (mu : memory).

Lemma osqp_setup_ok dA dS d P A so w mu pa aa :
  heap mu !! dA = Some (BData d) ->
  d_P d = addr pa -> d_A d = addr aa ->
  heap mu !! pa = Some (BCsc P) ->
  heap mu !! aa = Some (BCsc A) ->
  heap mu !! dS = Some (BSettings so) ->
  osqp_setup_workspace (mkQP (d_n d) (d_m d) P (d_q d) A (d_l d) (d_u d)) so = Some w ->
  osqp_setup (addr dA) (addr dS) mu =
  (Ok (addr (brk mu)),
   mkMemory (<[brk mu := BWorkspace w]> (heap mu)) (S (brk mu))
            (trace mu ++ [ev_setup (addr (brk mu))])).
Proof.
  intros Hd HP HA HpP HpA HS Hw. unfold osqp_setup.
  rewrite (bind_ok _ _ _ _ _ (load_data_ok _ _ _ Hd)).
  rewrite HP, HA.
  rewrite (bind_ok _ _ _ _ _ (load_ok _ _ _ HpP)).
  rewrite (bind_ok _ _ _ _ _ (load_ok _ _ _ HpA)).
  rewrite (bind_ok _ _ _ _ _ (load_ok _ _ _ HS)).
  rewrite Hw. reflexivity.
Qed.

Lemma osqp_solve_ok a w mu :
  heap mu !! a = Some (BWorkspace w) ->
  osqp_solve (addr a) mu =
  (Ok tt,
   mkMemory (<[a := BWorkspace (osqp_solve_workspace w)]> (heap mu)) (brk mu)
            (trace mu ++ [ev_solve (addr a)])).
Proof.
  intros Hw. unfold osqp_solve.
  rewrite (bind_ok _ _ _ _ _ (log_ok _ _)).
  erewrite bind_ok; [| apply load_ok; simpl; exact Hw].
  by apply store_ok with (b0 := BWorkspace w).
Qed.

Lemma Solve_empty_kernel s mu :
  rows (kernel_matrix (kernel_ s)) = 0 ->
  Solve s mu = (Ok (false, s), mu).
Proof. intros HP. unfold Solve. rewrite HP. reflexivity. Qed.

Lemma Solve_empty_constraints s mu :
  rows (constraint_matrix (inequality_constraint (constraint_ s))) +
  rows (constraint_matrix (equality_constraint (constraint_ s))) = 0 ->
  Solve s mu = (Ok (false, s), mu).
Proof.
  intros HA. unfold Solve.
  destruct (rows (kernel_matrix (kernel_ s)) =? 0); [reflexivity|].
  destruct (DenseToCSCMatrix (kernel_matrix (kernel_ s))) as [[? ?] ?].
  rewrite rows_stack_constraints, HA. reflexivity.
Qed.

Lemma Solve_run s mu dA dS d0 so w0 :
  wf_memory mu ->
  data_ s = addr dA -> settings_ s = addr dS ->
  heap mu !! dA = Some (BData d0) ->
  heap mu !! dS = Some (BSettings so) ->
  rows (kernel_matrix (kernel_ s)) <> 0 ->
  rows (combined_matrix (constraint_ s)) <> 0 ->
  osqp_setup_workspace (assembled_problem s) so = Some w0 ->
  Solve s mu =
  (Ok (solver_after_solve s mu (osqp_solve_workspace w0)),
   memory_after_solve s mu dA (osqp_solve_workspace w0)).
Proof.
  intros Hwf HdA HdS Hd0 Hso HP HA Hsetup.
  assert (dA < brk mu) as HltA by exact (Hwf _ _ Hd0).
  assert (dS < brk mu) as HltS by exact (Hwf _ _ Hso).
  assert (dA <> dS) as Hne by (intros ->; congruence).
  unfold Solve.
  apply Nat.eqb_neq in HP as HP'. rewrite HP'.
  unfold assembled_problem, csc_of, combined_matrix in Hsetup, HA.
  unfold memory_after_solve, solver_after_solve, assembled_data, assembled_problem,
    csc_of, combined_matrix, lower_bounds, upper_bounds.
  destruct (DenseToCSCMatrix (kernel_matrix (kernel_ s))) as [[P_data P_indices] P_indptr].
  apply Nat.eqb_neq in HA as HA'. rewrite HA'.
  destruct (DenseToCSCMatrix (stack_constraints _ _)) as [[A_data A_indices] A_indptr].
  unfold lower_bounds, upper_bounds in Hsetup.
  destruct (bound_arrays _ _) as [l u] eqn:Hlu.
  rewrite HdA, HdS.
  step update_data_ok.
  step update_data_ok.
  step load_data_ok.
  unfold csc_matrix at 1. erewrite bind_ok; [|reflexivity].
  step update_data_ok.
  step update_data_ok.
  step load_data_ok.
  unfold csc_matrix at 1. erewrite bind_ok; [|reflexivity].
  step update_data_ok.
  step update_data_ok.
  step update_data_ok.
  erewrite bind_ok.
  2:{ eapply osqp_setup_ok; try heap_lookup. }
  cbn [work_ with_work heap brk trace].
  erewrite bind_ok; [| apply osqp_solve_ok; heap_lookup].
  erewrite bind_ok; [| apply load_ok; heap_lookup].
  cbn [work_ with_work heap brk trace].
  replace (brk mu + 1) with (S (brk mu)) by lia.
  replace (brk mu + 2) with (S (S (brk mu))) by lia.
  replace (brk mu + 3) with (S (S (S (brk mu)))) by lia.
  cbn [spline_ with_last_num_constraint with_last_num_param with_work with_spline
       kernel_ constraint_ settings_ data_ work_ last_num_param_ last_num_constraint_].
  destruct (SetSplineSegs _ _ _) as [ok spline].
  unfold ret. cbn [fst snd qp_n qp_m qp_P qp_q qp_A qp_l qp_u].
  unfold constraint_num_of.
  f_equal.
  { unfold with_spline, with_last_num_constraint, with_last_num_param, with_work.
    cbn. rewrite ?HdA, ?HdS. reflexivity. }
  f_equal.
  - apply map_eq. intros a.
    repeat (rewrite lookup_insert; case_decide; subst; try lia; try reflexivity).
  - rewrite <- !app_assoc. reflexivity.
Qed.
End SolveFacts.

(** ** The solution as a one-column matrix *)

Lemma solved_prefix_S n x k :
  solved_prefix n x (S k) =
  set_coeff (solved_prefix n x k) k 0 (default dzero (x !! k)).
Proof. unfold solved_prefix. by rewrite seq_S, foldl_snoc. Qed.

Lemma solved_prefix_shape n x k :
  rows (solved_prefix n x k) = n /\ cols (solved_prefix n x k) = 1 /\
  length (m_storage (solved_prefix n x k)) = n.
Proof.
  induction k as [|k IH].
  - simpl. rewrite length_replicate. lia.
  - rewrite solved_prefix_S, rows_set_coeff, cols_set_coeff, length_set_coeff.
    exact IH.
Qed.

Lemma solved_prefix_lookup n x k i :
  i < n ->
  m_storage (solved_prefix n x k) !! i =
  Some (if decide (i < k) then default dzero (x !! i) else dzero).
Proof.
  intros Hi. induction k as [|k IH].
  - unfold solved_prefix. cbn [seq foldl MatrixXd_Zero m_storage].
    rewrite lookup_replicate_2 by lia. by rewrite decide_False by lia.
  - rewrite solved_prefix_S. cbn [set_coeff m_storage].
    destruct (solved_prefix_shape n x k) as (Hr & _ & Hl).
    replace (k + 0 * rows (solved_prefix n x k)) with k by lia.
    destruct (decide (i = k)) as [->|Hne].
    + rewrite list_lookup_insert_eq by lia. by rewrite decide_True by lia.
    + rewrite list_lookup_insert_ne by lia. rewrite IH.
      f_equal. repeat case_decide; try done; lia.
Qed.

(** The loop copies the whole vector: an [n]-vector becomes the [n x 1]
    matrix with the same entries. *)
Lemma solved_params_of_column n x :
  length x = n -> solved_params_of n x = mkMatrix n 1 x.
Proof.
  intros Hx. change (solved_params_of n x) with (solved_prefix n x n).
  destruct (solved_prefix_shape n x n) as (Hr & Hc & Hl).
  destruct (solved_prefix n x n) as [r c st] eqn:E. simpl in *. subst r c.
  f_equal. apply list_eq. intros i.
  destruct (decide (i < n)) as [Hi|Hi].
  - pose proof (solved_prefix_lookup n x n i Hi) as Hlk. rewrite E in Hlk.
    simpl in Hlk. rewrite Hlk, decide_True by done.
    destruct (x !! i) eqn:Hxi; [done|].
    apply lookup_ge_None in Hxi. lia.
  - rewrite !lookup_ge_None_2 by lia. done.
Qed.

(** ** Solve *)

Section SolveClaims.
Context {Spline1d : Type} `{Spline1dApi Spline1d} `{MatrixOperations}.
Implicit Types (s : OsqpSpline1dSolver Spline1d) (mu : memory).

(** C6. With a cost matrix of zero rows, [Solve] returns [false] and the
    solver is not entered: the log of allocator and solver calls is the one
    the call started with, so neither [osqp_setup] nor [osqp_solve] ran. *)
Theorem Solve_empty_kernel_no_solver `{OsqpApi} s mu :
  rows (kernel_matrix (kernel_ s)) = 0 ->
  exists s',
    fst (Solve s mu) = Ok (false, s') /\
    trace (snd (Solve s mu)) = trace mu /\
    solver_calls (trace (snd (Solve s mu))) = solver_calls (trace mu).
Proof.
  intros HP. rewrite (Solve_empty_kernel s mu HP). exists s. by repeat split.
Qed.

(** C7. When the inequality and the equality constraint matrices have zero
    rows in total, [Solve] returns [false] and the solver is not entered. *)
Theorem Solve_empty_constraints_no_solver `{OsqpApi} s mu :
  rows (constraint_matrix (inequality_constraint (constraint_ s))) +
  rows (constraint_matrix (equality_constraint (constraint_ s))) = 0 ->
  exists s',
    fst (Solve s mu) = Ok (false, s') /\
    trace (snd (Solve s mu)) = trace mu /\
    solver_calls (trace (snd (Solve s mu))) = solver_calls (trace mu).
Proof.
  intros HA. rewrite (Solve_empty_constraints s mu HA). exists s. by repeat split.
Qed.

(** C10. On either early exit of [Solve] (cost matrix with zero rows, or
    zero constraint rows in total) the call returns [false] and the object
    and the memory are the ones the call started with: the spline is not
    set, and [last_num_param_] and [last_num_constraint_] keep their
    values. *)
Theorem Solve_early_exit_frame `{OsqpApi} s mu :
  rows (kernel_matrix (kernel_ s)) = 0 \/
  rows (constraint_matrix (inequality_constraint (constraint_ s))) +
  rows (constraint_matrix (equality_constraint (constraint_ s))) = 0 ->
  exists s' mu',
    Solve s mu = (Ok (false, s'), mu') /\
    s' = s /\ mu' = mu /\
    spline_ s' = spline_ s /\
    last_num_param_ s' = last_num_param_ s /\
    last_num_constraint_ s' = last_num_constraint_ s.
Proof.
  intros [HP|HA]; exists s, mu.
  - by rewrite (Solve_empty_kernel s mu HP).
  - by rewrite (Solve_empty_constraints s mu HA).
Qed.

(** C9. When a call gets through setup and solve, the [n] entries of the
    primal vector become the [n x 1] matrix handed to [SetSplineSegs]
    together with the order of the spline, and [Solve] returns the flag
    that operation answers, the spline being the one it leaves. *)
Theorem Solve_applies_solution `{OsqpApi} s mu dA dS d0 so w0 :
  wf_memory mu ->
  data_ s = addr dA -> settings_ s = addr dS ->
  heap mu !! dA = Some (BData d0) ->
  heap mu !! dS = Some (BSettings so) ->
  rows (kernel_matrix (kernel_ s)) <> 0 ->
  rows (combined_matrix (constraint_ s)) <> 0 ->
  osqp_setup_workspace (assembled_problem s) so = Some w0 ->
  length (solution_x (osqp_solve_workspace w0)) = rows (kernel_matrix (kernel_ s)) ->
  exists s',
    fst (Solve s mu) = Ok
      (fst (SetSplineSegs (spline_ s)
              (mkMatrix (rows (kernel_matrix (kernel_ s))) 1
                        (solution_x (osqp_solve_workspace w0)))
              (spline_order (spline_ s))), s') /\
    spline_ s' =
      snd (SetSplineSegs (spline_ s)
              (mkMatrix (rows (kernel_matrix (kernel_ s))) 1
                        (solution_x (osqp_solve_workspace w0)))
              (spline_order (spline_ s))).
Proof.
  intros Hwf HdA HdS Hd0 Hso HP HA Hsetup Hlen.
  rewrite (Solve_run s mu dA dS d0 so w0) by assumption.
  unfold solver_after_solve. rewrite (solved_params_of_column _ _ Hlen).
  eexists. split; reflexivity.
Qed.

(** C1, as the code has it. [Solve] never reads the status the solver
    reports: once setup has produced a workspace, two solvers that leave
    the same primal vector make [Solve] return the same flag and the same
    object, whatever status each of them reports, and that flag is the one
    [SetSplineSegs] answers on the vector. *)
Theorem Solve_ignores_status (O1 O2 : OsqpApi) s mu dA dS d0 so w1 w2 :
  wf_memory mu ->
  data_ s = addr dA -> settings_ s = addr dS ->
  heap mu !! dA = Some (BData d0) ->
  heap mu !! dS = Some (BSettings so) ->
  rows (kernel_matrix (kernel_ s)) <> 0 ->
  rows (combined_matrix (constraint_ s)) <> 0 ->
  @osqp_setup_workspace O1 (@assembled_problem _ _ s) so = Some w1 ->
  @osqp_setup_workspace O2 (@assembled_problem _ _ s) so = Some w2 ->
  solution_x (@osqp_solve_workspace O1 w1) = solution_x (@osqp_solve_workspace O2 w2) ->
  fst (@Solve _ _ O1 _ s mu) = fst (@Solve _ _ O2 _ s mu) /\
  exists s',
    fst (@Solve _ _ O1 _ s mu) = Ok
      (fst (SetSplineSegs (spline_ s)
              (solved_params_of (rows (kernel_matrix (kernel_ s)))
                                (solution_x (@osqp_solve_workspace O1 w1)))
              (spline_order (spline_ s))), s') /\
    spline_ s' =
      snd (SetSplineSegs (spline_ s)
              (solved_params_of (rows (kernel_matrix (kernel_ s)))
                                (solution_x (@osqp_solve_workspace O1 w1)))
              (spline_order (spline_ s))).
Proof.
  intros Hwf HdA HdS Hd0 Hso HP HA Hs1 Hs2 Hx.
  rewrite (@Solve_run _ _ O1 _ s mu dA dS d0 so w1) by assumption.
  rewrite (@Solve_run _ _ O2 _ s mu dA dS d0 so w2) by assumption.
  unfold solver_after_solve. cbn [fst snd]. rewrite Hx.
  split; [reflexivity|]. eexists. split; reflexivity.
Qed.

End SolveClaims.

(** ** The assembled constraint system *)

Section ConstraintClaims.
Implicit Types (c : Spline1dConstraint) (i j idx : nat).

(** C4. For every inequality row [i], [l[i]] is the [i]-th inequality
    boundary value and [u[i]] is the sentinel [kUpperLimit], whose value
    is exactly 1e9. *)
Theorem inequality_row_bounds c i :
  i < rows (constraint_boundary (inequality_constraint c)) ->
  lower_bounds c !! i =
    Some (coeff (constraint_boundary (inequality_constraint c)) i 0) /\
  upper_bounds c !! i = Some (to_double kUpperLimit) /\
  has_value (to_double kUpperLimit) 1000000000.
Proof.
  intros Hi. unfold lower_bounds, upper_bounds.
  destruct (bound_arrays_lookup
              (constraint_boundary (inequality_constraint c))
              (constraint_boundary (equality_constraint c)) i) as [Hl Hu]; [lia|].
  rewrite Hl, Hu. unfold lower_entry, upper_entry.
  apply Nat.ltb_lt in Hi. rewrite Hi.
  split; [reflexivity|]. split; [reflexivity|]. apply kUpperLimit_value.
Qed.

(** C3, as the code has it. For the equality row at offset [idx] past the
    inequality block, with target [t]: [l] is the double [t - eps] and [u]
    the double [t + eps], both rounded to nearest, where [eps] is the
    float nearest to 1e-9 widened to double, that is 9007199 / 2^53. *)
Theorem equality_row_bounds c idx :
  idx < rows (constraint_boundary (equality_constraint c)) ->
  let t := coeff (constraint_boundary (equality_constraint c)) idx 0 in
  let i := rows (constraint_boundary (inequality_constraint c)) + idx in
  lower_bounds c !! i = Some (dsub t (to_double kEpsilon)) /\
  upper_bounds c !! i = Some (dadd t (to_double kEpsilon)) /\
  has_value (to_double kEpsilon) (9007199 / 2 ^ 53).
Proof.
  intros Hidx t i. unfold lower_bounds, upper_bounds.
  destruct (bound_arrays_lookup
              (constraint_boundary (inequality_constraint c))
              (constraint_boundary (equality_constraint c)) i) as [Hl Hu];
    [unfold i; lia|].
  rewrite Hl, Hu. unfold lower_entry, upper_entry.
  assert ((i <? rows (constraint_boundary (inequality_constraint c))) = false) as ->
    by (apply Nat.ltb_ge; unfold i; lia).
  replace (i - rows (constraint_boundary (inequality_constraint c))) with idx
    by (unfold i; lia).
  split; [reflexivity|]. split; [reflexivity|]. apply kEpsilon_value.
Qed.

(** C5. For well-formed blocks of equal width the combined matrix has the
    rows of the inequality matrix at [0 .. r1) and those of the equality
    matrix at [r1 .. r1 + r2), and the bound arrays follow the same split:
    entry [i < r1] comes from inequality boundary [i], entry [r1 + i] from
    equality boundary [i]. *)
Theorem stacking_matches_bound_split c :
  wf_constraint c ->
  let X := constraint_matrix (inequality_constraint c) in
  let Y := constraint_matrix (equality_constraint c) in
  let A := stack_constraints X Y in
  rows A = rows X + rows Y /\
  cols A = cols X /\
  length (lower_bounds c) = rows A /\
  length (upper_bounds c) = rows A /\
  (forall i, i < rows X ->
     (forall j, j < cols X -> coeff A i j = coeff X i j) /\
     lower_bounds c !! i =
       Some (coeff (constraint_boundary (inequality_constraint c)) i 0) /\
     upper_bounds c !! i = Some (to_double kUpperLimit)) /\
  (forall i, i < rows Y ->
     (forall j, j < cols X -> coeff A (rows X + i) j = coeff Y i j) /\
     lower_bounds c !! (rows X + i) =
       Some (dsub (coeff (constraint_boundary (equality_constraint c)) i 0)
                  (to_double kEpsilon)) /\
     upper_bounds c !! (rows X + i) =
       Some (dadd (coeff (constraint_boundary (equality_constraint c)) i 0)
                  (to_double kEpsilon))).
Proof.
  intros ((HrI & _) & (HrE & _) & Hcols) X Y A.
  fold X in HrI, Hcols. fold Y in HrE, Hcols.
  assert (rows A = rows X + rows Y) as HrA by apply rows_stack_constraints.
  pose proof (bound_arrays_length
                (constraint_boundary (inequality_constraint c))
                (constraint_boundary (equality_constraint c))) as [Hll Hlu].
  split; [exact HrA|]. split; [apply cols_stack_constraints|].
  split; [unfold lower_bounds; rewrite Hll; lia|].
  split; [unfold upper_bounds; rewrite Hlu; lia|].
  split.
  - intros i Hi. split.
    + intros j Hj. unfold A. rewrite stack_constraints_coeff by lia.
      by rewrite decide_True by lia.
    + destruct (bound_arrays_lookup
                  (constraint_boundary (inequality_constraint c))
                  (constraint_boundary (equality_constraint c)) i) as [Hl Hu]; [lia|].
      unfold lower_bounds, upper_bounds. rewrite Hl, Hu.
      unfold lower_entry, upper_entry.
      assert ((i <? rows (constraint_boundary (inequality_constraint c))) = true) as ->
        by (apply Nat.ltb_lt; lia).
      done.
  - intros i Hi. split.
    + intros j Hj. unfold A. rewrite stack_constraints_coeff by lia.
      rewrite decide_False by lia. f_equal. lia.
    + destruct (bound_arrays_lookup
                  (constraint_boundary (inequality_constraint c))
                  (constraint_boundary (equality_constraint c)) (rows X + i))
        as [Hl Hu]; [lia|].
      unfold lower_bounds, upper_bounds. rewrite Hl, Hu.
      unfold lower_entry, upper_entry.
      assert ((rows X + i <? rows (constraint_boundary (inequality_constraint c))) = false)
        as -> by (apply Nat.ltb_ge; lia).
      replace (rows X + i - rows (constraint_boundary (inequality_constraint c)))
        with i by lia.
      done.
Qed.

End ConstraintClaims.

Lemma inequality_row_bounds_witness :
  lower_bounds Scenario.constraint !! 0 = Some (of_Z 1) /\
  upper_bounds Scenario.constraint !! 0 = Some (to_double kUpperLimit) /\
  has_value (to_double kUpperLimit) 1000000000.
Proof.
  apply (inequality_row_bounds Scenario.constraint 0).
  simpl. lia.
Defined.

Lemma equality_row_bounds_witness :
  lower_bounds Scenario.constraint !! 1 = Some (dsub (of_Z 3) (to_double kEpsilon)) /\
  upper_bounds Scenario.constraint !! 1 = Some (dadd (of_Z 3) (to_double kEpsilon)) /\
  has_value (to_double kEpsilon) (9007199 / 2 ^ 53).
Proof.
  apply (equality_row_bounds Scenario.constraint 0).
  simpl. lia.
Defined.

Lemma wf_scenario_constraint : wf_constraint Scenario.constraint.
Proof. repeat split. Defined.

Lemma stacking_matches_bound_split_witness :
  rows (combined_matrix Scenario.constraint) = 2 /\
  coeff (combined_matrix Scenario.constraint) 0 0 = of_Z 1 /\
  coeff (combined_matrix Scenario.constraint) 1 1 = of_Z 1 /\
  lower_bounds Scenario.constraint !! 0 = Some (of_Z 1) /\
  lower_bounds Scenario.constraint !! 1 = Some (dsub (of_Z 3) (to_double kEpsilon)).
Proof.
  destruct (stacking_matches_bound_split Scenario.constraint wf_scenario_constraint)
    as (Hr & _ & _ & _ & Hineq & Heq).
  destruct (Hineq 0 ltac:(simpl; lia)) as (Hc0 & Hl0 & _).
  destruct (Heq 0 ltac:(simpl; lia)) as (Hc1 & Hl1 & _).
  split; [exact Hr|].
  split; [exact (Hc0 0 ltac:(simpl; lia))|].
  split; [exact (Hc1 1 ltac:(simpl; lia))|].
  split; [exact Hl0 | exact Hl1].
Defined.

(** C3 as stated fails, already in the scenario of the specification
    ([x1 == 3]): the stored bounds are 3 - eps and 3 + eps rounded to
    double, their difference is 18014400 / 2^53, neither twice the float
    constant (18014398 / 2^53) nor 2e-9, and the double subtraction
    [u - l] differs from the double [2 * eps] for both readings of eps. *)
Lemma equality_row_width_not_2eps :
  exists l u ql qu,
    lower_bounds Scenario.constraint !! 1 = Some l /\
    upper_bounds Scenario.constraint !! 1 = Some u /\
    exact_value l = Some ql /\ exact_value u = Some qu /\
    (qu - ql == 18014400 / 2 ^ 53)%Q /\
    ~ (qu - ql == 2 * (9007199 / 2 ^ 53))%Q /\
    ~ (qu - ql == 2 * (1 / 10 ^ 9))%Q /\
    dsub u l <> dmul (of_Z 2) (to_double kEpsilon) /\
    dsub u l <> dmul (of_Z 2) (decimal 1 9).
Proof.
  eexists _, _, _, _.
  split; [vm_compute; reflexivity|]. split; [vm_compute; reflexivity|].
  split; [vm_compute; reflexivity|]. split; [vm_compute; reflexivity|].
  split; [vm_compute; reflexivity|].
  split; [intros E; vm_compute in E; discriminate E|].
  split; [intros E; vm_compute in E; discriminate E|].
  split; vm_compute; discriminate.
Qed.

(** ** Concrete runs *)

Lemma Solve_empty_kernel_no_solver_witness :
  let O := Scenario.answering OSQP_SOLVED [] in
  let s := Scenario.fresh Scenario.empty_kernel Scenario.constraint in
  let mu := Scenario.fresh_memory O in
  exists s',
    fst (@Solve _ _ O _ s mu) = Ok (false, s') /\
    trace (snd (@Solve _ _ O _ s mu)) = trace mu /\
    solver_calls (trace (snd (@Solve _ _ O _ s mu))) = solver_calls (trace mu).
Proof.
  intros O s mu.
  apply (@Solve_empty_kernel_no_solver _ _ _ O s mu).
  reflexivity.
Defined.

Lemma Solve_empty_constraints_no_solver_witness :
  let O := Scenario.answering OSQP_SOLVED [] in
  let s := Scenario.fresh Scenario.kernel Scenario.no_constraint in
  let mu := Scenario.fresh_memory O in
  exists s',
    fst (@Solve _ _ O _ s mu) = Ok (false, s') /\
    trace (snd (@Solve _ _ O _ s mu)) = trace mu /\
    solver_calls (trace (snd (@Solve _ _ O _ s mu))) = solver_calls (trace mu).
Proof.
  intros O s mu.
  apply (@Solve_empty_constraints_no_solver _ _ _ O s mu).
  reflexivity.
Defined.

Lemma Solve_early_exit_frame_witness :
  let O := Scenario.answering OSQP_SOLVED [] in
  let s := Scenario.fresh Scenario.kernel Scenario.no_constraint in
  let mu := Scenario.fresh_memory O in
  exists s' mu',
    @Solve _ _ O _ s mu = (Ok (false, s'), mu') /\
    s' = s /\ mu' = mu /\
    spline_ s' = spline_ s /\
    last_num_param_ s' = last_num_param_ s /\
    last_num_constraint_ s' = last_num_constraint_ s.
Proof.
  intros O s mu.
  apply (@Solve_early_exit_frame _ _ _ O s mu).
  right. reflexivity.
Defined.

Lemma Solve_applies_solution_witness :
  let O := Scenario.answering OSQP_SOLVED [of_Z 1; of_Z 3] in
  let s := Scenario.fresh Scenario.kernel Scenario.constraint in
  let mu := Scenario.fresh_memory O in
  exists s',
    fst (@Solve _ _ O _ s mu) = Ok
      (fst (SetSplineSegs (spline_ s) (mkMatrix 2 1 [of_Z 1; of_Z 3])
                          (spline_order (spline_ s))), s') /\
    spline_ s' =
      snd (SetSplineSegs (spline_ s) (mkMatrix 2 1 [of_Z 1; of_Z 3])
                         (spline_order (spline_ s))).
Proof.
  intros O s mu.
  apply (@Solve_applies_solution _ _ _ O s mu 1 0 unset_data
           (Some (@constructor_settings O))
           (mkWork (assembled_problem s) (Some (@constructor_settings O))
                   (replicate 2 dzero) OSQP_UNSOLVED)).
  - compute_done.
  - reflexivity.
  - reflexivity.
  - vm_compute. reflexivity.
  - vm_compute. reflexivity.
  - vm_compute. lia.
  - vm_compute. lia.
  - reflexivity.
  - reflexivity.
Defined.

Lemma Solve_ignores_status_witness :
  let x := [S754_nan; S754_nan] in
  let O1 := Scenario.answering OSQP_SOLVED x in
  let O2 := Scenario.answering OSQP_PRIMAL_INFEASIBLE x in
  let s := Scenario.fresh Scenario.kernel Scenario.infeasible_constraint in
  let mu := Scenario.fresh_memory O1 in
  fst (@Solve _ _ O1 _ s mu) = fst (@Solve _ _ O2 _ s mu) /\
  exists s',
    fst (@Solve _ _ O1 _ s mu) = Ok
      (fst (SetSplineSegs (spline_ s) (solved_params_of 2 x)
                          (spline_order (spline_ s))), s') /\
    spline_ s' =
      snd (SetSplineSegs (spline_ s) (solved_params_of 2 x)
                         (spline_order (spline_ s))).
Proof.
  intros x O1 O2 s mu.
  apply (@Solve_ignores_status _ _ _ O1 O2 s mu 1 0 unset_data
           (Some (@constructor_settings O1))
           (mkWork (assembled_problem s) (Some (@constructor_settings O1))
                   (replicate 2 dzero) OSQP_UNSOLVED)
           (mkWork (assembled_problem s) (Some (@constructor_settings O1))
                   (replicate 2 dzero) OSQP_UNSOLVED)).
  - compute_done.
  - reflexivity.
  - reflexivity.
  - vm_compute. reflexivity.
  - vm_compute. reflexivity.
  - vm_compute. lia.
  - vm_compute. lia.
  - reflexivity.
  - reflexivity.
  - reflexivity.
Defined.

(** C1 as stated fails.  The problem asks for [x0 >= 1] and [x0 == 0]; the
    solver reports primal infeasibility and leaves NaN in the primal vector;
    [Solve] hands that vector to the spline and returns [true].  With a
    solver that stops at the iteration cap with a zero vector, [Solve]
    returns [true] with an all-zero parameter column. *)
Lemma Solve_true_on_reported_failure :
  let s := Scenario.fresh Scenario.kernel Scenario.infeasible_constraint in
  (let O := Scenario.answering OSQP_PRIMAL_INFEASIBLE [S754_nan; S754_nan] in
   exists s' mu' w,
     @Solve _ _ O _ s (Scenario.fresh_memory O) = (Ok (true, s'), mu') /\
     load (work_ s') mu' = (Ok (BWorkspace w), mu') /\
     reports_failure (info_status_val w) = true /\
     Scenario.r_params (spline_ s') = Some (mkMatrix 2 1 [S754_nan; S754_nan])) /\
  (let O := Scenario.answering OSQP_MAX_ITER_REACHED [dzero; dzero] in
   exists s' mu' w,
     @Solve _ _ O _ s (Scenario.fresh_memory O) = (Ok (true, s'), mu') /\
     load (work_ s') mu' = (Ok (BWorkspace w), mu') /\
     reports_failure (info_status_val w) = true /\
     Scenario.r_params (spline_ s') = Some (MatrixXd_Zero 2 1)).
Proof.
  split; intros O.
  - eexists _, _, _. split; [vm_compute; reflexivity|].
    split; [vm_compute; reflexivity|]. split; reflexivity.
  - eexists _, _, _. split; [vm_compute; reflexivity|].
    split; [vm_compute; reflexivity|]. split; reflexivity.
Qed.

(** ** Rounding to nearest even is monotone *)

Section RoundingFacts.
Import Rounding.
Local Open Scope Z_scope.

Lemma pow2_pos k : 0 <= k -> 0 < 2 ^ k.
Proof. intros. apply Z.pow_pos_nonneg; lia. Qed.

Lemma pow2_S k : 0 <= k -> 2 ^ (k + 1) = 2 * 2 ^ k.
Proof. intros. rewrite Z.pow_add_r by lia. lia. Qed.

(** *** Shifting a mantissa to the right *)

Lemma shr_1_nonneg m r s :
  0 <= m -> shr_1 (Build_shr_record m r s) = Build_shr_record (Z.div2 m) (Z.odd m) (r || s).
Proof. destruct m as [|[p|p|]|p]; intros; try reflexivity; lia. Qed.

Lemma shr_inv_0 M : shr_inv M 0 (Build_shr_record M false false).
Proof.
  unfold shr_inv. simpl. rewrite Z.div_1_r, Z.mod_1_r. repeat split.
Qed.

Lemma shr_inv_step M k mrs :
  0 <= M -> 0 <= k -> shr_inv M k mrs -> shr_inv M (k + 1) (shr_1 mrs).
Proof.
  intros HM Hk (Hm & Hr & Hs). destruct mrs as [m r s]. cbn [shr_m shr_r shr_s] in *.
  pose proof (pow2_pos k Hk) as HP.
  assert (0 <= m) by (subst m; apply Z.div_pos; lia).
  rewrite shr_1_nonneg by assumption.
  unfold shr_inv. cbn [shr_m shr_r shr_s].
  rewrite pow2_S by assumption.
  rewrite (Z.mul_comm 2 (2 ^ k)).
  rewrite Z.rem_mul_r by lia.
  rewrite <- Z.div_div by lia.
  rewrite <- Hm.
  pose proof (Z.mod_pos_bound M (2 ^ k) HP) as Hrem.
  set (P := 2 ^ k) in *. set (rem := M mod P) in *.
  rewrite Z.div2_div.
  pose proof (Z.mod_pos_bound m 2 ltac:(lia)) as Hb.
  assert (Z.odd m = (m mod 2 =? 1)) as Hodd.
  { rewrite Zmod_odd. destruct (Z.odd m); reflexivity. }
  rewrite Hodd, Hr, Hs.
  split; [reflexivity|].
  assert (m mod 2 = 0 \/ m mod 2 = 1) as [Hb0|Hb1] by lia.
  - rewrite Hb0. split.
    + destruct (Z.leb_spec (P * 2) (2 * (rem + P * 0))); [lia|reflexivity].
    + destruct (Z.leb_spec P (2 * rem)), (Z.eqb_spec rem 0),
        (Z.eqb_spec (2 * rem) P), (Z.eqb_spec (rem + P * 0) 0),
        (Z.eqb_spec (2 * (rem + P * 0)) (P * 2)); simpl; try reflexivity; lia.
  - rewrite Hb1. split.
    + destruct (Z.leb_spec (P * 2) (2 * (rem + P * 1))); [reflexivity|lia].
    + destruct (Z.leb_spec P (2 * rem)), (Z.eqb_spec rem 0),
        (Z.eqb_spec (2 * rem) P), (Z.eqb_spec (rem + P * 1) 0),
        (Z.eqb_spec (2 * (rem + P * 1)) (P * 2)); simpl; try reflexivity; lia.
Qed.

Lemma shr_inv_iter M n : forall k mrs,
  0 <= M -> 0 <= k -> shr_inv M k mrs ->
  shr_inv M (k + Zpos n) (SpecFloat.iter_pos shr_1 n mrs).
Proof.
  induction n as [n IH|n IH|]; intros k mrs HM Hk Hinv; simpl.
  - replace (k + Z.pos n~1) with (((k + 1) + Z.pos n) + Z.pos n) by lia.
    apply IH; [lia..|]. apply IH; [lia..|]. by apply shr_inv_step.
  - replace (k + Z.pos n~0) with ((k + Z.pos n) + Z.pos n) by lia.
    apply IH; [lia..|]. by apply IH.
  - by apply shr_inv_step.
Qed.

(** [shr] from an exact record. *)
Lemma shr_exact M e n :
  0 <= M ->
  exists mrs,
    shr (Build_shr_record M false false) e n = (mrs, e + Z.max n 0) /\
    shr_inv M (Z.max n 0) mrs.
Proof.
  intros HM. destruct n as [|n|n]; simpl.
  - exists (Build_shr_record M false false). rewrite Z.add_0_r. split; [reflexivity|].
    apply shr_inv_0.
  - eexists. split; [reflexivity|].
    apply (shr_inv_iter M n 0); [lia..|]. apply shr_inv_0.
  - exists (Build_shr_record M false false). rewrite Z.add_0_r. split; [reflexivity|].
    apply shr_inv_0.
Qed.

Lemma round_of_shr_inv M k mrs :
  0 <= M -> 0 <= k -> shr_inv M k mrs ->
  round_nearest_even (shr_m mrs) (loc_of_shr_record mrs) = rne M k.
Proof.
  intros HM Hk (Hm & Hr & Hs). destruct mrs as [m r s]. cbn [shr_m shr_r shr_s] in *.
  unfold rne. rewrite <- Hm.
  pose proof (pow2_pos k Hk) as HP.
  pose proof (Z.mod_pos_bound M (2 ^ k) HP) as Hrem.
  set (P := 2 ^ k) in *. set (rem := M mod P) in *.
  subst r s.
  destruct (Z.leb_spec P (2 * rem)), (Z.eqb_spec rem 0), (Z.eqb_spec (2 * rem) P),
    (Z.compare_spec (2 * rem) P); simpl; try reflexivity; lia.
Qed.

(** *** Digit counts and the rounding grid *)

Lemma fexp_64 x : fexp 53 1024 x = fexp64 x.
Proof. reflexivity. Qed.

Lemma digits2_pos_size p : digits2_pos p = Pos.size p.
Proof. induction p as [p IH|p IH|]; simpl; congruence. Qed.

Lemma pow2_add a b : 0 <= a -> 0 <= b -> 2 ^ (a + b) = 2 ^ a * 2 ^ b.
Proof. intros. apply Z.pow_add_r; lia. Qed.

Lemma pow2_le a b : 0 <= a <= b -> 2 ^ a <= 2 ^ b.
Proof. intros. apply Z.pow_le_mono_r; lia. Qed.

Lemma pow2_lt a b : 0 <= a < b -> 2 ^ a < 2 ^ b.
Proof. intros. apply Z.pow_lt_mono_r; lia. Qed.

(** The number of binary digits of a positive integer. *)
Lemma Zdigits2_bounds M :
  0 < M -> 1 <= Zdigits2 M /\ 2 ^ (Zdigits2 M - 1) <= M < 2 ^ Zdigits2 M.
Proof.
  destruct M as [|p|p]; try lia. intros _. simpl.
  rewrite digits2_pos_size.
  pose proof (Pos.size_gt p) as Hgt. pose proof (Pos.size_le p) as Hle.
  apply Pos2Z.pos_lt_pos in Hgt. apply Pos2Z.pos_le_pos in Hle.
  rewrite Pos2Z.inj_pow in Hgt, Hle.
  split; [lia|].
  split; [|exact Hgt].
  replace (Z.pos (Pos.size p)) with ((Z.pos (Pos.size p) - 1) + 1) in Hle by lia.
  rewrite pow2_S in Hle by lia. lia.
Qed.

Lemma Zdigits2_unique M d :
  2 ^ (d - 1) <= M < 2 ^ d -> 1 <= d -> Zdigits2 M = d.
Proof.
  intros HM Hd.
  assert (0 < M) as Hpos by (pose proof (pow2_pos (d - 1)); lia).
  destruct (Zdigits2_bounds M Hpos) as (H1 & Hlo & Hhi).
  destruct (Z.lt_trichotomy (Zdigits2 M) d) as [Hlt|[Heq|Hgt]]; [|exact Heq|].
  - pose proof (pow2_le (Zdigits2 M) (d - 1) ltac:(lia)). lia.
  - pose proof (pow2_le d (Zdigits2 M - 1) ltac:(lia)). lia.
Qed.

Lemma Zdigits2_mono M1 M2 : 0 < M1 <= M2 -> Zdigits2 M1 <= Zdigits2 M2.
Proof.
  intros HM.
  destruct (Zdigits2_bounds M1 ltac:(lia)) as (H1 & Hlo1 & Hhi1).
  destruct (Zdigits2_bounds M2 ltac:(lia)) as (H2 & Hlo2 & Hhi2).
  destruct (Z.le_gt_cases (Zdigits2 M1) (Zdigits2 M2)) as [|Hgt]; [assumption|].
  pose proof (pow2_le (Zdigits2 M2) (Zdigits2 M1 - 1) ltac:(lia)). lia.
Qed.

Lemma Zdigits2_shift M j :
  0 < M -> 0 <= j -> Zdigits2 (M * 2 ^ j) = Zdigits2 M + j.
Proof.
  intros HM Hj.
  destruct (Zdigits2_bounds M HM) as (H1 & Hlo & Hhi).
  pose proof (pow2_pos j Hj) as HP.
  apply Zdigits2_unique; [|lia].
  replace (Zdigits2 M + j - 1) with ((Zdigits2 M - 1) + j) by lia.
  rewrite !pow2_add by lia. split; nia.
Qed.

(** Bounds on the rounded quotient. *)
Lemma rne_bounds M k :
  0 <= M -> 0 <= k -> M / 2 ^ k <= rne M k <= M / 2 ^ k + 1.
Proof.
  intros HM Hk. unfold rne.
  destruct (2 * (M mod 2 ^ k) ?= 2 ^ k); [destruct (Z.even _)|..]; lia.
Qed.

Lemma rne_exact M : rne M 0 = M.
Proof. unfold rne. simpl. rewrite Z.div_1_r, Z.mod_1_r. reflexivity. Qed.

(** The rounded quotient never exceeds a multiple of the grid above [M]. *)
Lemma rne_le_grid M k c :
  0 <= M -> 0 <= k -> M <= c * 2 ^ k -> rne M k <= c.
Proof.
  intros HM Hk Hc. pose proof (pow2_pos k Hk) as HP.
  pose proof (Z.mod_pos_bound M (2 ^ k) HP) as Hrem.
  pose proof (Z.div_mod M (2 ^ k) ltac:(lia)) as Hdm.
  unfold rne. set (P := 2 ^ k) in *. set (m := M / P) in *. set (r := M mod P) in *.
  assert (m <= c) by nia.
  destruct (Z.compare_spec (2 * r) P); [destruct (Z.even m)|..]; try lia.
  - assert (m < c) by nia. lia.
  - assert (m < c) by nia. lia.
Qed.

Lemma rne_ge_grid M k c :
  0 <= M -> 0 <= k -> c * 2 ^ k <= M -> c <= rne M k.
Proof.
  intros HM Hk Hc. pose proof (pow2_pos k Hk) as HP.
  pose proof (rne_bounds M k HM Hk).
  assert (c <= M / 2 ^ k) by (apply Z.div_le_lower_bound; lia).
  lia.
Qed.

(** Rounding to one grid is monotone. *)
Lemma rne_mono M1 M2 k :
  0 <= M1 <= M2 -> 0 <= k -> rne M1 k <= rne M2 k.
Proof.
  intros HM Hk. pose proof (pow2_pos k Hk) as HP.
  pose proof (Z.mod_pos_bound M1 (2 ^ k) HP) as Hr1.
  pose proof (Z.mod_pos_bound M2 (2 ^ k) HP) as Hr2.
  pose proof (Z.div_mod M1 (2 ^ k) ltac:(lia)) as Hd1.
  pose proof (Z.div_mod M2 (2 ^ k) ltac:(lia)) as Hd2.
  unfold rne. set (P := 2 ^ k) in *.
  set (m1 := M1 / P) in *. set (r1 := M1 mod P) in *.
  set (m2 := M2 / P) in *. set (r2 := M2 mod P) in *.
  assert (m1 <= m2) by nia.
  destruct (Z.eq_dec m1 m2) as [Heq|Hne].
  - assert (r1 <= r2) by nia. rewrite Heq.
    destruct (Z.compare_spec (2 * r1) P), (Z.compare_spec (2 * r2) P);
      destruct (Z.even m2); lia.
  - destruct (Z.compare_spec (2 * r1) P), (Z.compare_spec (2 * r2) P);
      destruct (Z.even m1), (Z.even m2); lia.
Qed.

(** *** What [binary_round] computes *)

Lemma shr_no_shift mrs e n : n <= 0 -> shr mrs e n = (mrs, e).
Proof. destruct n; intros; try reflexivity; lia. Qed.

Lemma rne_lt_pow53 mx k :
  0 < mx -> 0 <= k -> Zdigits2 mx - 53 <= k -> 0 <= rne mx k <= 2 ^ 53.
Proof.
  intros Hmx Hk Hd.
  destruct (Zdigits2_bounds mx Hmx) as (H1 & Hlo & Hhi).
  split.
  - pose proof (rne_bounds mx k ltac:(lia) Hk).
    pose proof (Z.div_pos mx (2 ^ k) ltac:(lia) (pow2_pos k Hk)). lia.
  - apply rne_le_grid; [lia..|].
    rewrite <- pow2_add by lia.
    pose proof (pow2_le (Zdigits2 mx) (53 + k) ltac:(lia)). lia.
Qed.

Lemma binary_round_aux_exact s mx ex :
  0 < mx -> ex <= fexp64 (Zdigits2 mx + ex) ->
  binary_round_aux 53 1024 s mx ex loc_Exact =
  finish s (rne mx (fexp64 (Zdigits2 mx + ex) - ex)) (fexp64 (Zdigits2 mx + ex)).
Proof.
  intros Hmx HE. unfold binary_round_aux, shr_fexp.
  rewrite fexp_64. set (E := fexp64 (Zdigits2 mx + ex)) in *.
  cbn [shr_record_of_loc].
  destruct (shr_exact mx ex (E - ex) ltac:(lia)) as (mrs & Hshr & Hinv).
  rewrite Hshr. rewrite Z.max_l in * by lia.
  replace (ex + (E - ex)) with E by lia.
  rewrite (round_of_shr_inv mx (E - ex) mrs) by (assumption || lia).
  assert (-1074 <= E) as HEmin by (unfold E, fexp64; lia).
  assert (Zdigits2 mx - 53 <= E - ex) as Hk by (unfold E, fexp64; lia).
  pose proof (rne_lt_pow53 mx (E - ex) Hmx ltac:(lia) Hk) as HR.
  set (R := rne mx (E - ex)) in *.
  rewrite fexp_64. unfold finish.
  destruct (Z.ltb_spec R (2 ^ 53)) as [Hlt|Hge].
  - assert (fexp64 (Zdigits2 R + E) - E <= 0) as Hn.
    { destruct (Z.eq_dec R 0) as [->|HR0]; [simpl; unfold fexp64; lia|].
      destruct (Zdigits2_bounds R ltac:(lia)) as (H1 & Hlo & _).
      assert (Zdigits2 R <= 53).
      { destruct (Z.le_gt_cases (Zdigits2 R) 53); [assumption|].
        pose proof (pow2_le 53 (Zdigits2 R - 1) ltac:(lia)). lia. }
      unfold fexp64. lia. }
    rewrite shr_no_shift by exact Hn. cbn [shr_m].
    destruct R; reflexivity.
  - assert (R = 2 ^ 53) as -> by lia.
    replace (fexp64 (Zdigits2 (2 ^ 53) + E) - E) with 1
      by (change (Zdigits2 (2 ^ 53)) with 54; unfold fexp64; lia).
    reflexivity.
Qed.

Lemma Pos_iter_xO p d : Zpos (Pos.iter xO p d) = Zpos p * 2 ^ Zpos d.
Proof.
  induction d as [|d IH] using Pos.peano_ind.
  - simpl. lia.
  - rewrite Pos.iter_succ, Pos2Z.inj_succ, Z.pow_succ_r by lia.
    rewrite Pos2Z.inj_xO, IH. lia.
Qed.

Lemma shl_align_spec p e e' :
  let '(mz, ez) := shl_align p e e' in
  ez = Z.min e e' /\ Zpos mz = Zpos p * 2 ^ (e - ez).
Proof.
  unfold shl_align. destruct (e' - e) as [|d|d] eqn:Hd.
  - split; [lia|]. rewrite Z.sub_diag. simpl. lia.
  - split; [lia|]. rewrite Z.sub_diag. simpl. lia.
  - split; [lia|]. rewrite Pos_iter_xO. f_equal. f_equal. lia.
Qed.

Lemma binary_round_spec s p e :
  binary_round 53 1024 s p e =
  finish s (rounded_mantissa (Zpos p) e) (fexp64 (Zdigits2 (Zpos p) + e)).
Proof.
  unfold binary_round. rewrite fexp_64.
  change (Z.pos (digits2_pos p)) with (Zdigits2 (Zpos p)).
  set (E := fexp64 (Zdigits2 (Zpos p) + e)).
  pose proof (shl_align_spec p e E) as Hal.
  destruct (shl_align p e E) as [mz ez]. destruct Hal as [Hez Hmz].
  assert (Zdigits2 (Zpos mz) + ez = Zdigits2 (Zpos p) + e) as Hdig.
  { rewrite Hmz, Zdigits2_shift by lia. lia. }
  rewrite binary_round_aux_exact; rewrite ?Hdig; fold E; [|lia..].
  f_equal. unfold rounded_mantissa. fold E.
  destruct (Z.leb_spec E e).
  - replace ez with E in * by lia. rewrite Z.sub_diag, rne_exact. exact Hmz.
  - replace ez with e in * by lia. rewrite Z.sub_diag, Z.mul_1_r in Hmz.
    by rewrite Hmz.
Qed.

(** *** The values of the results *)

Lemma rounded_mantissa_props p e :
  0 < p ->
  0 <= rounded_mantissa p e <= 2 ^ 53 /\
  (fexp64 (Zdigits2 p + e) = -1074 \/ 2 ^ 52 <= rounded_mantissa p e).
Proof.
  intros Hp. unfold rounded_mantissa.
  destruct (Zdigits2_bounds p Hp) as (H1 & Hlo & Hhi).
  set (d := Zdigits2 p) in *. set (E := fexp64 (d + e)).
  assert (-1074 <= E /\ d + e - 53 <= E /\ (E = -1074 \/ E = d + e - 53))
    as (HE1 & HE2 & HE3) by (unfold E, fexp64; lia).
  destruct (Z.leb_spec E e) as [Hle|Hgt].
  - pose proof (pow2_pos (e - E) ltac:(lia)) as HP.
    split; [split; [nia|]|].
    + pose proof (pow2_le (d + (e - E)) 53 ltac:(lia)) as H53.
      rewrite pow2_add in H53 by lia. nia.
    + destruct HE3 as [?|HE3]; [by left|right].
      replace (e - E) with (53 - d) by lia.
      replace 52 with ((d - 1) + (53 - d)) by lia.
      rewrite pow2_add by lia.
      pose proof (pow2_pos (53 - d) ltac:(lia)). nia.
  - split; [apply rne_lt_pow53; lia|].
    destruct HE3 as [?|HE3]; [by left|right].
    apply rne_ge_grid; [lia..|].
    rewrite <- pow2_add by lia. replace (52 + (E - e)) with (d - 1) by lia. lia.
Qed.

Lemma rounded_value_nonneg p e : 0 < p -> 0 <= rounded_value p e.
Proof.
  intros Hp. unfold rounded_value.
  destruct (rounded_mantissa_props p e Hp) as ((H0 & _) & _).
  assert (-1074 <= fexp64 (Zdigits2 p + e)) by (unfold fexp64; lia).
  pose proof (pow2_pos (fexp64 (Zdigits2 p + e) + 1074) ltac:(lia)). nia.
Qed.

Lemma mul_pow2_le m B P Q : 0 <= m <= B -> 0 < P <= Q -> m * P <= B * Q.
Proof. intros. nia. Qed.

Lemma mul_pow2_ge m B P Q : 0 <= B <= m -> 0 < Q <= P -> B * Q <= m * P.
Proof. intros. nia. Qed.

Lemma big_split a b : a + b = 2098 -> 0 <= a -> 0 <= b -> 2 ^ 2098 = 2 ^ a * 2 ^ b.
Proof. intros <- ? ?. by apply pow2_add. Qed.

Lemma cond_Zopp_0 s : cond_Zopp s 0 = 0.
Proof. by destruct s. Qed.

Lemma finish_good s R E :
  0 <= R <= 2 ^ 53 -> -1074 <= E -> (E = -1074 \/ 2 ^ 52 <= R) ->
  good (finish s R E) /\
  scaled (finish s R E) = cond_Zopp s (Z.min (2 ^ 2098) (R * 2 ^ (E + 1074))).
Proof.
  intros HR HE Hnorm. unfold finish.
  pose proof (pow2_pos (E + 1074) ltac:(lia)) as HP.
  destruct (Z.ltb_spec R (2 ^ 53)) as [Hlt|Hge].
  - destruct R as [|m|m]; [| |lia].
    + split; [exact I|]. simpl. rewrite Z.min_r by (pose proof (pow2_pos 2098); lia).
      by rewrite cond_Zopp_0.
    + destruct (Z.leb_spec E 971) as [Hle|Hgt].
      * assert (Zdigits2 (Z.pos m) <= 53) as Hd.
        { destruct (Zdigits2_bounds (Z.pos m) ltac:(lia)) as (? & Hlo & _).
          destruct (Z.le_gt_cases (Zdigits2 (Z.pos m)) 53); [assumption|].
          pose proof (pow2_le 53 (Zdigits2 (Z.pos m) - 1) ltac:(lia)). lia. }
        split.
        -- split; [lia|]. split; [exact Hd|].
           destruct Hnorm as [?|Hn]; [by left|right].
           apply Zdigits2_unique; [|lia]. change (53 - 1) with 52. lia.
        -- cbn [scaled]. f_equal. rewrite Z.min_r; [reflexivity|].
           rewrite (big_split 53 2045) by lia.
           apply mul_pow2_le; [lia|]. split; [exact HP|apply pow2_le; lia].
      * split; [exact I|]. cbn [scaled]. f_equal.
        destruct Hnorm as [?|Hn]; [lia|].
        rewrite Z.min_l; [reflexivity|].
        rewrite (big_split 52 2046) by lia.
        apply mul_pow2_ge; [lia|]. split; [by apply pow2_pos|apply pow2_le; lia].
  - assert (R = 2 ^ 53) as -> by lia.
    destruct (Z.leb_spec (E + 1) 971) as [Hle|Hgt].
    + split.
      * split; [lia|]. split; [by vm_compute|]. right. reflexivity.
      * cbn [scaled]. f_equal.
        replace (E + 1 + 1074) with ((E + 1074) + 1) by lia.
        rewrite pow2_S by lia.
        rewrite Z.min_r.
        { change (Z.pos 4503599627370496) with (2 ^ 52).
          change (2 ^ 53) with (2 * 2 ^ 52). lia. }
        rewrite (big_split 54 2044) by lia.
        apply mul_pow2_le; [by vm_compute|]. split; [exact HP|apply pow2_le; lia].
    + split; [exact I|]. cbn [scaled]. f_equal.
      rewrite Z.min_l; [reflexivity|].
      rewrite (big_split 53 2045) by lia.
      apply mul_pow2_ge; [lia|]. split; [by apply pow2_pos|apply pow2_le; lia].
Qed.

Lemma binary_round_good s p e :
  good (binary_round 53 1024 s p e) /\
  scaled (binary_round 53 1024 s p e) =
  cond_Zopp s (Z.min (2 ^ 2098) (rounded_value (Zpos p) e)).
Proof.
  rewrite binary_round_spec.
  destruct (rounded_mantissa_props (Zpos p) e ltac:(lia)) as (HR & Hn).
  apply finish_good; [exact HR| unfold fexp64; lia | exact Hn].
Qed.

Lemma binary_normalize_good M e :
  good (binary_normalize 53 1024 M e false) /\
  scaled (binary_normalize 53 1024 M e false) = normalized_value M e.
Proof.
  destruct M as [|p|p]; simpl binary_normalize.
  - split; [exact I | reflexivity].
  - exact (binary_round_good false p e).
  - exact (binary_round_good true p e).
Qed.

(** *** Monotonicity *)

Lemma fexp64_mono x y : x <= y -> fexp64 x <= fexp64 y.
Proof. unfold fexp64. lia. Qed.

(** Rounding to nearest even is monotone, across binades as well. *)
Lemma rounded_value_mono p1 p2 e :
  0 < p1 <= p2 -> rounded_value p1 e <= rounded_value p2 e.
Proof.
  intros Hp. unfold rounded_value, rounded_mantissa.
  pose proof (Zdigits2_mono p1 p2 Hp) as Hd.
  destruct (Zdigits2_bounds p1 ltac:(lia)) as (H11 & Hlo1 & Hhi1).
  destruct (Zdigits2_bounds p2 ltac:(lia)) as (H12 & Hlo2 & Hhi2).
  set (d1 := Zdigits2 p1) in *. set (d2 := Zdigits2 p2) in *.
  pose proof (fexp64_mono (d1 + e) (d2 + e) ltac:(lia)) as HE.
  set (E1 := fexp64 (d1 + e)) in *. set (E2 := fexp64 (d2 + e)) in *.
  assert (-1074 <= E1 /\ (E1 = -1074 \/ E1 = d1 + e - 53) /\ d1 + e - 53 <= E1)
    as (HE1 & HE1' & HE1'') by (unfold E1, fexp64; lia).
  assert (-1074 <= E2 /\ (E2 = -1074 \/ E2 = d2 + e - 53) /\ d2 + e - 53 <= E2)
    as (HE2 & HE2' & HE2'') by (unfold E2, fexp64; lia).
  destruct (Z.leb_spec E1 e) as [Hle1|Hgt1]; destruct (Z.leb_spec E2 e) as [Hle2|Hgt2];
    try lia.
  - (* both exact *)
    rewrite <- !Z.mul_assoc, <- !pow2_add by lia.
    replace (e - E1 + (E1 + 1074)) with (e + 1074) by lia.
    replace (e - E2 + (E2 + 1074)) with (e + 1074) by lia.
    pose proof (pow2_pos (e + 1074) ltac:(lia)). nia.
  - (* the larger one is rounded, in a higher binade *)
    rewrite <- Z.mul_assoc, <- pow2_add by lia.
    replace (e - E1 + (E1 + 1074)) with (e + 1074) by lia.
    replace (E2 + 1074) with ((E2 - e) + (e + 1074)) by lia.
    rewrite (pow2_add (E2 - e) (e + 1074)) by lia. rewrite Z.mul_assoc.
    pose proof (pow2_pos (e + 1074) ltac:(lia)).
    apply Z.mul_le_mono_nonneg_r; [lia|].
    assert (2 ^ 52 <= rne p2 (E2 - e)) as HR2.
    { apply rne_ge_grid; [lia..|]. rewrite <- pow2_add by lia.
      replace (52 + (E2 - e)) with (d2 - 1) by lia. lia. }
    assert (2 ^ d1 <= 2 ^ 52 * 2 ^ (E2 - e)).
    { rewrite <- pow2_add by lia. apply pow2_le. lia. }
    pose proof (pow2_pos (E2 - e) ltac:(lia)). nia.
  - (* both rounded *)
    destruct (Z.eq_dec E1 E2) as [Heq|Hne].
    + rewrite Heq. pose proof (pow2_pos (E2 + 1074) ltac:(lia)).
      apply Z.mul_le_mono_nonneg_r; [lia|]. apply rne_mono; lia.
    + replace (E2 + 1074) with ((E2 - E1) + (E1 + 1074)) by lia.
      rewrite (pow2_add (E2 - E1) (E1 + 1074)) by lia. rewrite Z.mul_assoc.
      pose proof (pow2_pos (E1 + 1074) ltac:(lia)).
      apply Z.mul_le_mono_nonneg_r; [lia|].
      assert (2 ^ 52 <= rne p2 (E2 - e)) as HR2.
      { apply rne_ge_grid; [lia..|]. rewrite <- pow2_add by lia.
        replace (52 + (E2 - e)) with (d2 - 1) by lia. lia. }
      pose proof (rne_lt_pow53 p1 (E1 - e) ltac:(lia) ltac:(lia) ltac:(fold d1; lia))
        as HR1.
      pose proof (pow2_le 1 (E2 - E1) ltac:(lia)) as H2.
      change (2 ^ 1) with 2 in H2. change (2 ^ 53) with (2 * 2 ^ 52) in HR1.
      nia.
Qed.

Lemma normalized_value_mono M1 M2 e :
  M1 <= M2 -> normalized_value M1 e <= normalized_value M2 e.
Proof.
  intros HM. pose proof (pow2_pos 2098 ltac:(lia)) as HB.
  destruct M1 as [|p1|p1], M2 as [|p2|p2]; try lia; unfold normalized_value;
    try pose proof (rounded_value_nonneg (Zpos p1) e ltac:(lia));
    try pose proof (rounded_value_nonneg (Zpos p2) e ltac:(lia));
    try lia.
  - pose proof (rounded_value_mono (Zpos p1) (Zpos p2) e ltac:(lia)). lia.
  - pose proof (rounded_value_mono (Zpos p2) (Zpos p1) e ltac:(lia)). lia.
Qed.

Lemma good_finite_bounds s m e :
  good (S754_finite s m e) ->
  0 < Zpos m * 2 ^ (e + 1074) < 2 ^ 2098 /\
  (e = -1074 \/ 2 ^ 52 <= Zpos m) /\ Zpos m < 2 ^ 53.
Proof.
  intros (He & Hd & Hn).
  destruct (Zdigits2_bounds (Zpos m) ltac:(lia)) as (H1 & Hlo & Hhi).
  pose proof (pow2_pos (e + 1074) ltac:(lia)) as HP.
  assert (Z.pos m < 2 ^ 53) as Hm.
  { pose proof (pow2_le (Zdigits2 (Z.pos m)) 53 ltac:(lia)). lia. }
  split; [split; [nia|]|split; [|exact Hm]].
  - rewrite (big_split 53 2045) by lia.
    pose proof (pow2_le (e + 1074) 2045 ltac:(lia)). nia.
  - destruct Hn as [?|Hn]; [by left|right]. rewrite Hn in Hlo. exact Hlo.
Qed.

Lemma scaled_finite_compare m1 e1 m2 e2 :
  good (S754_finite false m1 e1) -> good (S754_finite false m2 e2) ->
  Zpos m1 * 2 ^ (e1 + 1074) <= Zpos m2 * 2 ^ (e2 + 1074) ->
  match e1 ?= e2 with
  | Lt => True
  | Eq => (m1 <= m2)%positive
  | Gt => False
  end.
Proof.
  intros G1 G2 Hle.
  destruct (good_finite_bounds _ _ _ G1) as (_ & Hn1 & Hm1).
  destruct (good_finite_bounds _ _ _ G2) as (_ & Hn2 & Hm2).
  destruct G1 as (He1 & _), G2 as (He2 & _).
  destruct (Z.compare_spec e1 e2) as [Heq|Hlt|Hgt]; [|exact I|].
  - subst e2. pose proof (pow2_pos (e1 + 1074) ltac:(lia)).
    assert (Zpos m1 <= Zpos m2) by nia. lia.
  - destruct Hn1 as [?|Hn1]; [lia|].
    replace (e1 + 1074) with ((e1 - e2) + (e2 + 1074)) in Hle by lia.
    rewrite (pow2_add (e1 - e2) (e2 + 1074)) in Hle by lia.
    pose proof (pow2_pos (e2 + 1074) ltac:(lia)) as HP.
    pose proof (pow2_le 1 (e1 - e2) ltac:(lia)) as HA.
    change (2 ^ 1) with 2 in HA. change (2 ^ 53) with (2 * 2 ^ 52) in Hm2.
    set (A := 2 ^ (e1 - e2)) in *. set (P := 2 ^ (e2 + 1074)) in *.
    assert (Z.pos m2 < Z.pos m1 * A) by nia.
    assert (Z.pos m2 * P < Z.pos m1 * A * P) by nia.
    lia.
Qed.

(** On numbers in canonical form the comparison is that of the values. *)
Lemma SFleb_scaled x y :
  good x -> good y -> scaled x <= scaled y -> SFleb x y = true.
Proof.
  intros Gx Gy Hle. pose proof (pow2_pos 2098 ltac:(lia)) as HB.
  unfold SFleb.
  destruct x as [sx|sx| |sx mx ex], y as [sy|sy| |sy my ey];
    try contradiction; cbn [scaled] in Hle;
    try (pose proof (good_finite_bounds _ _ _ Gx) as (Hbx & _));
    try (pose proof (good_finite_bounds _ _ _ Gy) as (Hby & _));
    try (destruct sx); try (destruct sy); cbn [cond_Zopp SFcompare] in *;
    try reflexivity; try lia.
  - (* both negative *)
    pose proof (scaled_finite_compare my ey mx ex Gy Gx ltac:(lia)) as Hc.
    destruct (Z.compare_spec ex ey) as [Heq|Hlt|Hgt]; [| |reflexivity].
    + subst ey. rewrite Z.compare_refl in Hc.
      change (Pos.compare_cont Eq mx my) with (mx ?= my)%positive.
      destruct (Pos.compare_spec mx my); simpl; try reflexivity; lia.
    + apply Z.compare_gt_iff in Hlt. rewrite Hlt in Hc. contradiction.
  - (* both positive *)
    pose proof (scaled_finite_compare mx ex my ey Gx Gy ltac:(lia)) as Hc.
    destruct (ex ?= ey); try reflexivity; try contradiction.
    change (Pos.compare_cont Eq mx my) with (mx ?= my)%positive.
    destruct (Pos.compare_spec mx my); try reflexivity; lia.
Qed.

Lemma binary_normalize_mono M1 M2 e :
  M1 <= M2 ->
  SFleb (binary_normalize 53 1024 M1 e false) (binary_normalize 53 1024 M2 e false) = true.
Proof.
  intros HM.
  destruct (binary_normalize_good M1 e) as (G1 & S1).
  destruct (binary_normalize_good M2 e) as (G2 & S2).
  apply SFleb_scaled; [assumption..|].
  rewrite S1, S2. by apply normalized_value_mono.
Qed.

(** Around any number but NaN, subtracting a positive number gives at most
    what adding it gives. *)
Lemma sub_le_add t m e :
  is_nan t = false ->
  SFleb (SFsub 53 1024 t (S754_finite false m e))
        (SFadd 53 1024 t (S754_finite false m e)) = true.
Proof.
  intros Hnan. destruct t as [s|s| |s mt et]; try discriminate.
  - by destruct s.
  - by destruct s.
  - cbn [SFsub SFadd]. apply binary_normalize_mono.
    cbn [cond_Zopp]. lia.
Qed.

End RoundingFacts.

(** The bound arrays are the ones the problem handed to [osqp_setup]
    carries. *)
Lemma assembled_problem_bounds {Spline1d : Type} `{MatrixOperations}
    (s : OsqpSpline1dSolver Spline1d) :
  qp_l (assembled_problem s) = lower_bounds (constraint_ s) /\
  qp_u (assembled_problem s) = upper_bounds (constraint_ s) /\
  qp_m (assembled_problem s) = length (lower_bounds (constraint_ s)).
Proof.
  split; [reflexivity|]. split; [reflexivity|].
  unfold lower_bounds. cbn [assembled_problem qp_m].
  symmetry. apply bound_arrays_length.
Qed.

(** ** Order of the bounds *)

(** C8, as the code has it. In every row the two bounds are ordered as
    follows: on an inequality row, [l[i] <= u[i]] holds exactly when the
    boundary value is at most the sentinel 1e9; on an equality row it holds
    whenever the target is not NaN. *)
Theorem bounds_ordered (c : Spline1dConstraint) (i : nat) (l u : c_float) :
  lower_bounds c !! i = Some l ->
  upper_bounds c !! i = Some u ->
  (i < rows (constraint_boundary (inequality_constraint c)) ->
   dleb l u = dleb (coeff (constraint_boundary (inequality_constraint c)) i 0)
                   (of_Z (10 ^ 9))) /\
  (rows (constraint_boundary (inequality_constraint c)) <= i ->
   is_nan (coeff (constraint_boundary (equality_constraint c))
                 (i - rows (constraint_boundary (inequality_constraint c))) 0) = false ->
   dleb l u = true).
Proof.
  intros Hl Hu.
  destruct (bound_arrays_lookup_inv _ _ _ _ _ Hl Hu) as (Hi & -> & ->).
  unfold lower_entry, upper_entry. split.
  - intros Hlt. apply Nat.ltb_lt in Hlt. rewrite Hlt.
    by rewrite kUpperLimit_double.
  - intros Hge Hnan. apply Nat.ltb_ge in Hge. rewrite Hge.
    rewrite kEpsilon_double. by apply sub_le_add.
Qed.

Lemma bounds_ordered_witness :
  dleb (dsub (of_Z 3) (to_double kEpsilon)) (dadd (of_Z 3) (to_double kEpsilon)) = true.
Proof.
  refine (proj2 (bounds_ordered Scenario.constraint 1 _ _ _ _) _ _).
  - vm_compute. reflexivity.
  - vm_compute. reflexivity.
  - simpl. lia.
  - reflexivity.
Defined.

(** C8 as stated fails: with the inequality boundary 2e9 the first row has
    [l = 2e9] above [u = 1e9]. *)
Lemma bounds_inverted_above_sentinel :
  exists l u,
    lower_bounds Scenario.high_floor_constraint !! 0 = Some l /\
    upper_bounds Scenario.high_floor_constraint !! 0 = Some u /\
    dleb l u = false /\ dltb u l = true /\
    has_value l 2000000000 /\ has_value u 1000000000.
Proof.
  eexists _, _.
  split; [vm_compute; reflexivity|]. split; [vm_compute; reflexivity|].
  split; [vm_compute; reflexivity|]. split; [vm_compute; reflexivity|].
  split; vm_compute; reflexivity.
Qed.

(** ** The workspace over the life of a solver object *)

Lemma c_free_ok a b mu :
  heap mu !! a = Some b ->
  c_free (addr a) mu =
  (Ok tt, mkMemory (delete a (heap mu)) (brk mu) (trace mu ++ [ev_free (addr a)])).
Proof.
  intros Hb. unfold c_free.
  rewrite (bind_ok _ _ _ _ _ (log_ok _ _)). cbn [heap]. by rewrite Hb.
Qed.

Lemma osqp_cleanup_ok a w mu :
  heap mu !! a = Some (BWorkspace w) ->
  osqp_cleanup (addr a) mu =
  (Ok tt, mkMemory (delete a (heap mu)) (brk mu) (trace mu ++ [ev_cleanup (addr a)])).
Proof.
  intros Hb. unfold osqp_cleanup.
  rewrite (bind_ok _ _ _ _ _ (log_ok _ _)). cbn [heap]. by rewrite Hb.
Qed.

Lemma osqp_cleanup_released a mu :
  heap mu !! a = None ->
  osqp_cleanup (addr a) mu =
  (Fault (bad_cleanup (addr a)),
   mkMemory (heap mu) (brk mu) (trace mu ++ [ev_cleanup (addr a)])).
Proof.
  intros Hb. unfold osqp_cleanup.
  rewrite (bind_ok _ _ _ _ _ (log_ok _ _)). cbn [heap]. by rewrite Hb.
Qed.

Section LifetimeFacts.
Context {Spline1d : Type} `{Spline1dApi Spline1d} `{OsqpApi} `{MatrixOperations}.
Implicit Types (s : OsqpSpline1dSolver Spline1d) (mu : memory).

Lemma wf_memory_after_solve s mu dA w :
  wf_memory mu -> dA < brk mu -> wf_memory (memory_after_solve s mu dA w).
Proof.
  intros Hwf HdA a b. unfold memory_after_solve. cbn [heap brk].
  rewrite !lookup_insert. repeat case_decide; try lia.
  intros Hb. specialize (Hwf a b Hb). simpl in Hwf. lia.
Qed.

(** [CleanUp] on an object whose five blocks are live. *)
Lemma CleanUp_run s mu w ww dA d a ca p cp dS so :
  work_ s = addr w -> data_ s = addr dA -> settings_ s = addr dS ->
  heap mu !! w = Some (BWorkspace ww) ->
  heap mu !! dA = Some (BData d) ->
  d_A d = addr a -> d_P d = addr p ->
  heap mu !! a = Some (BCsc ca) ->
  heap mu !! p = Some (BCsc cp) ->
  heap mu !! dS = Some (BSettings so) ->
  a <> p ->
  CleanUp s mu =
  (Ok tt,
   mkMemory (delete dS (delete dA (delete p (delete a (delete w (heap mu))))))
            (brk mu)
            (trace mu ++ [ev_cleanup (addr w); ev_free (addr a); ev_free (addr p);
                          ev_free (addr dA); ev_free (addr dS)])).
Proof.
  intros Hw HdA HdS Hhw Hhd HA HP Hha Hhp Hhs Hap.
  assert (w <> dA /\ w <> a /\ w <> p /\ w <> dS) as (? & ? & ? & ?)
    by (repeat split; intros ->; congruence).
  assert (dA <> a /\ dA <> p /\ dA <> dS) as (? & ? & ?)
    by (repeat split; intros ->; congruence).
  assert (a <> dS /\ p <> dS) as (? & ?) by (split; intros ->; congruence).
  unfold CleanUp. rewrite Hw, HdA, HdS.
  erewrite bind_ok; [|by apply osqp_cleanup_ok with (w := ww)].
  destruct (decide (addr dA = nullptr)) as [E|_]; [discriminate|].
  destruct (decide (addr dS = nullptr)) as [E|_]; [discriminate|].
  erewrite bind_ok.
  2:{ erewrite bind_ok; [|apply load_data_ok; cbn [heap];
                           rewrite lookup_delete_ne by done; exact Hhd].
      rewrite HA.
      erewrite bind_ok; [|apply c_free_ok with (b := BCsc ca); cbn [heap];
                           rewrite lookup_delete_ne by done; exact Hha].
      erewrite bind_ok; [|apply load_data_ok; cbn [heap];
                           rewrite !lookup_delete_ne by done; exact Hhd].
      rewrite HP.
      erewrite bind_ok; [|apply c_free_ok with (b := BCsc cp); cbn [heap];
                           rewrite !lookup_delete_ne by done; exact Hhp].
      apply c_free_ok with (b := BData d). cbn [heap].
      rewrite !lookup_delete_ne by done. exact Hhd. }
  erewrite c_free_ok with (b := BSettings so);
    [|cbn [heap]; rewrite !lookup_delete_ne by done; exact Hhs].
  cbn [heap brk trace]. rewrite <- !app_assoc. reflexivity.
Qed.

(** C2 fails on the code: a second [Solve] sets up a second workspace
    without releasing the first. After construction, two calls that reach
    the solver and destruction, the log has the setup of the first
    workspace and no cleanup of it, and the first workspace is still
    allocated once the destructor has returned. *)
Theorem second_Solve_leaks_workspace s mu dA dS d0 so w0 :
  wf_memory mu ->
  data_ s = addr dA -> settings_ s = addr dS ->
  heap mu !! dA = Some (BData d0) ->
  heap mu !! dS = Some (BSettings so) ->
  rows (kernel_matrix (kernel_ s)) <> 0 ->
  rows (combined_matrix (constraint_ s)) <> 0 ->
  osqp_setup_workspace (assembled_problem s) so = Some w0 ->
  exists b1 s1 mu1 b2 s2 mu2 mu3,
    Solve s mu = (Ok (b1, s1), mu1) /\
    Solve s1 mu1 = (Ok (b2, s2), mu2) /\
    OsqpSpline1dSolver_delete s2 mu2 = (Ok tt, mu3) /\
    work_ s1 = addr (brk mu + 2) /\
    work_ s2 = addr (brk mu + 5) /\
    trace mu3 =
      trace mu ++
      [ev_malloc (brk mu); ev_malloc (brk mu + 1);
       ev_setup (addr (brk mu + 2)); ev_solve (addr (brk mu + 2));
       ev_malloc (brk mu + 3); ev_malloc (brk mu + 4);
       ev_setup (addr (brk mu + 5)); ev_solve (addr (brk mu + 5));
       ev_cleanup (addr (brk mu + 5));
       ev_free (addr (brk mu + 4)); ev_free (addr (brk mu + 3));
       ev_free (addr dA); ev_free (addr dS)] /\
    heap mu3 !! (brk mu + 2) = Some (BWorkspace (osqp_solve_workspace w0)).
Proof.
  intros Hwf HdA HdS Hd0 Hso HP HA Hsetup.
  assert (dA < brk mu) as HltA by exact (Hwf _ _ Hd0).
  assert (dS < brk mu) as HltS by exact (Hwf _ _ Hso).
  assert (dA <> dS) as Hne by (intros ->; congruence).
  pose proof (Solve_run s mu dA dS d0 so w0 Hwf HdA HdS Hd0 Hso HP HA Hsetup) as H1st.
  set (w := osqp_solve_workspace w0) in *.
  set (r1 := solver_after_solve s mu w) in *.
  set (mu1 := memory_after_solve s mu dA w) in *.
  assert (wf_memory mu1) as Hwf1 by (by apply wf_memory_after_solve).
  assert (heap mu1 !! dA =
          Some (BData (assembled_data s (addr (brk mu)) (addr (brk mu + 1))))) as Hd1.
  { unfold mu1, memory_after_solve. cbn [heap].
    rewrite lookup_insert_ne by lia. by rewrite lookup_insert_eq. }
  assert (heap mu1 !! dS = Some (BSettings so)) as Hso1.
  { unfold mu1, memory_after_solve. cbn [heap].
    rewrite !lookup_insert_ne by lia. exact Hso. }
  assert (brk mu1 = brk mu + 3) as Hbrk1 by reflexivity.
  pose proof (Solve_run (snd r1) mu1 dA dS _ so w0 Hwf1 HdA HdS Hd1 Hso1 HP HA Hsetup)
    as H2nd.
  fold w in H2nd.
  set (r2 := solver_after_solve (snd r1) mu1 w) in *.
  set (mu2 := memory_after_solve (snd r1) mu1 dA w) in *.
  assert (CleanUp (snd r2) mu2 =
          (Ok tt,
           mkMemory (delete dS (delete dA (delete (brk mu1)
                      (delete (brk mu1 + 1) (delete (brk mu1 + 2) (heap mu2))))))
                    (brk mu2)
                    (trace mu2 ++
                     [ev_cleanup (addr (brk mu1 + 2)); ev_free (addr (brk mu1 + 1));
                      ev_free (addr (brk mu1)); ev_free (addr dA);
                      ev_free (addr dS)]))) as H3rd.
  { apply (CleanUp_run (snd r2) mu2 (brk mu1 + 2) w dA
             (assembled_data (snd r1) (addr (brk mu1)) (addr (brk mu1 + 1)))
             (brk mu1 + 1) (qp_A (assembled_problem (snd r1)))
             (brk mu1) (qp_P (assembled_problem (snd r1))) dS so);
      try reflexivity; try exact HdA; try exact HdS;
      try (unfold mu2, memory_after_solve; cbn [heap]).
    - by rewrite lookup_insert_eq.
    - rewrite lookup_insert_ne by lia. by rewrite lookup_insert_eq.
    - rewrite !lookup_insert_ne by lia. by rewrite lookup_insert_eq.
    - rewrite !lookup_insert_ne by lia. by rewrite lookup_insert_eq.
    - rewrite !lookup_insert_ne by lia. exact Hso1.
    - lia. }
  exists (fst r1), (snd r1), mu1, (fst r2), (snd r2), mu2.
  eexists. split; [by rewrite H1st; destruct r1|].
  split; [by rewrite H2nd; destruct r2|].
  split; [exact H3rd|].
  split; [reflexivity|].
  split; [cbn; f_equal; lia|].
  split.
  - cbn [trace]. unfold mu2, memory_after_solve. cbn [trace].
    rewrite Hbrk1. unfold mu1, memory_after_solve. cbn [trace].
    rewrite <- !app_assoc. cbn [app].
    repeat (f_equal; try lia).
  - cbn [heap]. rewrite Hbrk1.
    rewrite !lookup_delete_ne by lia.
    unfold mu2, memory_after_solve. cbn [heap]. rewrite Hbrk1.
    rewrite !lookup_insert_ne by lia.
    unfold mu1, memory_after_solve. cbn [heap].
    by rewrite lookup_insert_eq.
Qed.

End LifetimeFacts.

Lemma second_Solve_leaks_workspace_witness :
  let O := Scenario.answering OSQP_SOLVED [of_Z 1; of_Z 3] in
  let s := Scenario.fresh Scenario.kernel Scenario.constraint in
  let mu := Scenario.fresh_memory O in
  exists b1 s1 mu1 b2 s2 mu2 mu3,
    @Solve _ _ O _ s mu = (Ok (b1, s1), mu1) /\
    @Solve _ _ O _ s1 mu1 = (Ok (b2, s2), mu2) /\
    OsqpSpline1dSolver_delete s2 mu2 = (Ok tt, mu3) /\
    work_ s1 = addr (brk mu + 2) /\
    work_ s2 = addr (brk mu + 5) /\
    trace mu3 =
      trace mu ++
      [ev_malloc (brk mu); ev_malloc (brk mu + 1);
       ev_setup (addr (brk mu + 2)); ev_solve (addr (brk mu + 2));
       ev_malloc (brk mu + 3); ev_malloc (brk mu + 4);
       ev_setup (addr (brk mu + 5)); ev_solve (addr (brk mu + 5));
       ev_cleanup (addr (brk mu + 5));
       ev_free (addr (brk mu + 4)); ev_free (addr (brk mu + 3));
       ev_free (addr 1); ev_free (addr 0)] /\
    heap mu3 !! (brk mu + 2) =
      Some (BWorkspace
              (@osqp_solve_workspace O
                 (mkWork (assembled_problem s) (Some (@constructor_settings O))
                         (replicate 2 dzero) OSQP_UNSOLVED))).
Proof.
  intros O s mu.
  apply (@second_Solve_leaks_workspace _ _ O _ s mu 1 0 unset_data
           (Some (@constructor_settings O))
           (mkWork (assembled_problem s) (Some (@constructor_settings O))
                   (replicate 2 dzero) OSQP_UNSOLVED)).
  - compute_done.
  - reflexivity.
  - reflexivity.
  - vm_compute. reflexivity.
  - vm_compute. reflexivity.
  - vm_compute. lia.
  - vm_compute. lia.
  - reflexivity.
Defined.

(** The whole life of an object on the scenario of the specification, with
    a solver that accepts the problem.  One [Solve]: the workspace at
    address 4 is set up once and cleaned up once, and no block is left.
    Two [Solve]s: the workspace at 4 is never cleaned up and stays
    allocated with the two CSC headers of the first call.  One [Solve] and
    an explicit [CleanUp], with or without [ResetOsqp] after it: the
    destructor hands the released workspace to [osqp_cleanup] a second
    time.  Only when [CleanUp] and [ResetOsqp] are called between two
    [Solve]s is every workspace cleaned up exactly once. *)
Lemma lifetime_runs :
  let O := Scenario.answering OSQP_SOLVED [of_Z 1; of_Z 3] in
  let run := fun cs =>
    @lifetime _ _ O _ Scenario.spline0 Scenario.kernel Scenario.constraint cs
              empty_memory in
  (fst (run [call_Solve]) = Ok tt /\
   setups (trace (snd (run [call_Solve]))) = [4] /\
   cleanups 4 (trace (snd (run [call_Solve]))) = 1 /\
   dom (heap (snd (run [call_Solve]))) = ∅) /\
  (fst (run [call_Solve; call_Solve]) = Ok tt /\
   setups (trace (snd (run [call_Solve; call_Solve]))) = [4; 7] /\
   cleanups 4 (trace (snd (run [call_Solve; call_Solve]))) = 0 /\
   cleanups 7 (trace (snd (run [call_Solve; call_Solve]))) = 1 /\
   dom (heap (snd (run [call_Solve; call_Solve]))) = {[2; 3; 4]}) /\
  (fst (run [call_Solve; call_CleanUp]) = Fault (bad_cleanup (addr 4)) /\
   setups (trace (snd (run [call_Solve; call_CleanUp]))) = [4] /\
   cleanups 4 (trace (snd (run [call_Solve; call_CleanUp]))) = 2) /\
  (fst (run [call_Solve; call_CleanUp; call_ResetOsqp]) = Fault (bad_cleanup (addr 4)) /\
   cleanups 4 (trace (snd (run [call_Solve; call_CleanUp; call_ResetOsqp]))) = 2) /\
  (fst (run [call_Solve; call_CleanUp; call_ResetOsqp; call_Solve]) = Ok tt /\
   setups (trace (snd (run [call_Solve; call_CleanUp; call_ResetOsqp; call_Solve])))
     = [4; 9] /\
   cleanups 4 (trace (snd (run [call_Solve; call_CleanUp; call_ResetOsqp; call_Solve])))
     = 1 /\
   cleanups 9 (trace (snd (run [call_Solve; call_CleanUp; call_ResetOsqp; call_Solve])))
     = 1 /\
   dom (heap (snd (run [call_Solve; call_CleanUp; call_ResetOsqp; call_Solve]))) = ∅).
Proof.
  intros O run. repeat split; vm_compute; reflexivity.
Qed.

(** The constructor leaves the object and the memory the concrete runs
    start from. *)
Lemma constructed_fresh (O : OsqpApi) (k : Spline1dKernel) (c : Spline1dConstraint) :
  Scenario.constructed O k c = (Ok (Scenario.fresh k c), Scenario.fresh_memory O).
Proof. reflexivity. Qed.

(** When [osqp_setup] answers a null workspace, [Solve] goes on to
    [osqp_solve] and reads the solution through the null pointer. *)
Lemma Solve_after_rejected_setup :
  fst (@Solve _ _ Scenario.rejecting _
         (Scenario.fresh Scenario.kernel Scenario.constraint)
         (Scenario.fresh_memory Scenario.rejecting)) = Fault (bad_deref nullptr).
Proof. vm_compute. reflexivity. Qed.

(** A destructor that runs before any [Solve] reached line 165 hands
    [c_free] the two pointer fields [c_malloc] left unset in the data
    block. *)
Lemma delete_before_Solve :
  let O := Scenario.answering OSQP_SOLVED [of_Z 1; of_Z 3] in
  fst (@lifetime _ _ O _ Scenario.spline0 Scenario.kernel Scenario.constraint []
         empty_memory) = Fault (bad_free wild).
Proof. vm_compute. reflexivity. Qed.

(** * Further properties of the methods *)

(** ** What the methods add to the log, on every path *)

Section Emits.
Context (P cnt : event -> bool).

Lemma count_app f (l1 l2 : list event) : count f (l1 ++ l2) = count f l1 + count f l2.
Proof. unfold count. by rewrite List.filter_app, length_app. Qed.

Lemma emits_weaken {A} (c : Mem A) n m : n <= m -> emits P cnt n c -> emits P cnt m c.
Proof.
  intros Hnm Hc mu. destruct (Hc mu) as (evs & Ht & HP & Hn).
  exists evs. repeat split; try done. lia.
Qed.

Lemma emits_ret {A} (a : A) : emits P cnt 0 (ret a).
Proof. intros mu. exists []. simpl. by rewrite app_nil_r. Qed.

Lemma emits_throw {A} f : emits P cnt 0 (@throw A f).
Proof. intros mu. exists []. simpl. by rewrite app_nil_r. Qed.

Lemma emits_bind {A B} (c : Mem A) (k : A -> Mem B) n m :
  emits P cnt n c -> (forall a, emits P cnt m (k a)) -> emits P cnt (n + m) (bind c k).
Proof.
  intros Hc Hk mu. destruct (Hc mu) as (e1 & Ht1 & HP1 & Hn1).
  unfold bind. destruct (c mu) as [[a|f] mu1]; simpl in *.
  - destruct (Hk a mu1) as (e2 & Ht2 & HP2 & Hn2).
    exists (e1 ++ e2). rewrite Ht2, Ht1, app_assoc, forallb_app, count_app, HP1, HP2.
    repeat split; try done. lia.
  - exists e1. repeat split; try done. lia.
Qed.

Lemma emits_load p : emits P cnt 0 (load p).
Proof.
  intros mu. exists []. rewrite app_nil_r. unfold load.
  destruct p as [|a|]; try destruct (heap mu !! a); by repeat split.
Qed.

Lemma emits_store p b : emits P cnt 0 (store p b).
Proof.
  intros mu. exists []. rewrite app_nil_r. unfold store.
  destruct p as [|a|]; try destruct (heap mu !! a); by repeat split.
Qed.

Lemma emits_load_data p : emits P cnt 0 (load_data p).
Proof.
  unfold load_data. apply (emits_bind _ _ 0 0); [apply emits_load|].
  intros [| | |]; first [apply emits_ret | apply emits_throw].
Qed.

Lemma emits_update_data p f : emits P cnt 0 (update_data p f).
Proof.
  unfold update_data. apply (emits_bind _ _ 0 0); [apply emits_load_data|].
  intros d. apply emits_store.
Qed.

Lemma emits_alloc b : emits P cnt 0 (alloc b).
Proof. intros mu. exists []. rewrite app_nil_r. by repeat split. Qed.

Lemma emits_release a : emits P cnt 0 (release a).
Proof. intros mu. exists []. rewrite app_nil_r. by repeat split. Qed.

Lemma emits_log e : P e = true -> emits P cnt (if cnt e then 1 else 0) (log e).
Proof.
  intros HP mu. exists [e]. simpl. rewrite HP. repeat split.
  unfold count. simpl. destruct (cnt e); simpl; lia.
Qed.

Lemma emits_c_malloc b :
  (forall a, P (ev_malloc a) = true) -> (forall a, cnt (ev_malloc a) = false) ->
  emits P cnt 0 (c_malloc b).
Proof.
  intros HP Hc mu. exists [ev_malloc (brk mu)]. simpl. rewrite HP. repeat split.
  unfold count. simpl. by rewrite Hc.
Qed.

Lemma emits_c_free p : P (ev_free p) = true -> emits P cnt 1 (c_free p).
Proof.
  intros HP. unfold c_free. apply (emits_bind _ _ 1 0).
  - eapply emits_weaken; [|by apply emits_log]. destruct (cnt _); lia.
  - intros _ mu. exists []. rewrite app_nil_r.
    destruct p as [|a|]; simpl; try destruct (heap mu !! a); by repeat split.
Qed.

Lemma emits_log_le e n :
  P e = true -> (if cnt e then 1 else 0) <= n -> emits P cnt n (log e).
Proof. intros HP Hn. eapply emits_weaken; [exact Hn|]. by apply emits_log. Qed.

Lemma emits_osqp_setup `{OsqpApi} data settings n :
  (forall p, P (ev_setup p) = true) ->
  (forall p, (if cnt (ev_setup p) then 1 else 0) <= n) ->
  emits P cnt n (osqp_setup data settings).
Proof.
  intros HP Hn. unfold osqp_setup.
  apply (emits_bind _ _ 0 n); [apply emits_load_data|]. intros d.
  apply (emits_bind _ _ 0 n); [apply emits_load|]. intros bP.
  apply (emits_bind _ _ 0 n); [apply emits_load|]. intros bA.
  apply (emits_bind _ _ 0 n); [apply emits_load|]. intros bs.
  destruct bP, bA, bs; try (eapply emits_weaken; [|apply emits_throw]; lia).
  destruct (osqp_setup_workspace _ _).
  - apply (emits_bind _ _ 0 n); [apply emits_alloc|]. intros p.
    eapply emits_weaken; [|apply (emits_bind _ _ n 0)]; [lia| |intros; apply emits_ret].
    by apply emits_log_le.
  - eapply emits_weaken; [|apply (emits_bind _ _ n 0)]; [lia| |intros; apply emits_ret].
    by apply emits_log_le.
Qed.

Lemma emits_osqp_solve `{OsqpApi} work n :
  P (ev_solve work) = true ->
  (if cnt (ev_solve work) then 1 else 0) <= n ->
  emits P cnt n (osqp_solve work).
Proof.
  intros HP Hn. unfold osqp_solve.
  eapply emits_weaken; [|apply (emits_bind _ _ n 0)]; [lia|by apply emits_log_le|].
  intros _.
  apply (emits_bind _ _ 0 0); [apply emits_load|]. intros b.
  destruct b; first [apply emits_store | apply emits_throw].
Qed.

End Emits.

Section SolveLog.
Context {Spline1d : Type} `{Spline1dApi Spline1d} `{OsqpApi} `{MatrixOperations}.
Implicit Types (s : OsqpSpline1dSolver Spline1d) (mu : memory).

Lemma Solve_emits cnt a b s :
  (forall x, cnt (ev_malloc x) = false) ->
  (forall w, (if cnt (ev_setup w) then 1 else 0) <= a) ->
  (forall w, (if cnt (ev_solve w) then 1 else 0) <= b) ->
  emits (fun e => negb (is_release e)) cnt (a + b) (Solve s).
Proof.
  intros Hm Ha Hb. set (P := fun e => negb (is_release e)).
  unfold Solve.
  destruct (rows (kernel_matrix (kernel_ s)) =? 0);
    [eapply emits_weaken; [|apply emits_ret]; lia|].
  destruct (DenseToCSCMatrix (kernel_matrix (kernel_ s))) as [[P_data P_indices] P_indptr].
  destruct (rows (stack_constraints _ _) =? 0);
    [eapply emits_weaken; [|apply emits_ret]; lia|].
  destruct (DenseToCSCMatrix (stack_constraints _ _)) as [[A_data A_indices] A_indptr].
  destruct (bound_arrays _ _) as [l u].
  apply (emits_bind _ _ _ _ 0 (a + b)); [apply emits_update_data|]. intros _.
  apply (emits_bind _ _ _ _ 0 (a + b)); [apply emits_update_data|]. intros _.
  apply (emits_bind _ _ _ _ 0 (a + b)); [apply emits_load_data|]. intros d.
  apply (emits_bind _ _ _ _ 0 (a + b)); [by apply emits_c_malloc|]. intros pP.
  apply (emits_bind _ _ _ _ 0 (a + b)); [apply emits_update_data|]. intros _.
  apply (emits_bind _ _ _ _ 0 (a + b)); [apply emits_update_data|]. intros _.
  apply (emits_bind _ _ _ _ 0 (a + b)); [apply emits_load_data|]. intros d'.
  apply (emits_bind _ _ _ _ 0 (a + b)); [by apply emits_c_malloc|]. intros pA.
  apply (emits_bind _ _ _ _ 0 (a + b)); [apply emits_update_data|]. intros _.
  apply (emits_bind _ _ _ _ 0 (a + b)); [apply emits_update_data|]. intros _.
  apply (emits_bind _ _ _ _ 0 (a + b)); [apply emits_update_data|]. intros _.
  apply emits_bind; [by apply emits_osqp_setup|]. intros work.
  eapply emits_weaken; [|apply (emits_bind _ _ _ _ b 0)]; [lia|by apply emits_osqp_solve|].
  intros _.
  apply (emits_bind _ _ _ _ 0 0); [apply emits_load|]. intros blk.
  destruct blk; try apply emits_throw.
  destruct (SetSplineSegs _ _ _). apply emits_ret.
Qed.

(** X1. Whatever the state of the object and of the memory, and whether it
    returns or faults, a call of [Solve] makes no call to [c_free] and none
    to [osqp_cleanup], at most one call to [osqp_setup] and at most one to
    [osqp_solve]. *)
Theorem Solve_never_releases s mu :
  exists evs,
    trace (snd (Solve s mu)) = trace mu ++ evs /\
    count is_release evs = 0 /\
    count is_setup evs <= 1 /\
    count is_solve evs <= 1.
Proof.
  destruct (Solve_emits is_setup 1 0 s) with (mu := mu) as (evs & Ht & HP & Hs);
    [done| intros; simpl; lia | intros; simpl; lia |].
  destruct (Solve_emits is_solve 0 1 s) with (mu := mu) as (evs' & Ht' & _ & Hv);
    [done| intros; simpl; lia | intros; simpl; lia |].
  assert (evs' = evs) as -> by (apply (app_inv_head (trace mu)); congruence).
  exists evs. split; [exact Ht|]. split; [|split; [exact Hs|exact Hv]].
  clear -HP. unfold count. induction evs as [|e evs IH]; [done|].
  simpl in *. apply andb_prop in HP as [He HP].
  destruct (is_release e); [done|]. by apply IH.
Qed.

End SolveLog.

Lemma osqp_cleanup_trace work mu :
  trace (snd (osqp_cleanup work mu)) = trace mu ++ [ev_cleanup work].
Proof.
  unfold osqp_cleanup. rewrite (bind_ok _ _ _ _ _ (log_ok _ _)).
  destruct work as [|a|]; cbn [heap]; try reflexivity.
  destruct (heap mu !! a) as [[| | |]|]; reflexivity.
Qed.

Section CleanUpLog.
Context {Spline1d : Type}.
Implicit Types (s : OsqpSpline1dSolver Spline1d) (mu : memory).

(** X2. Whatever the state, [CleanUp] first hands [work_] to [osqp_cleanup]
    (with no test, also when it is null or already released) and after
    that makes at most four calls to [c_free] and nothing else: it never
    allocates and never enters the solver again. *)
Theorem CleanUp_log s mu :
  exists evs,
    trace (snd (CleanUp s mu)) = trace mu ++ ev_cleanup (work_ s) :: evs /\
    forallb is_free evs = true /\
    length evs <= 4.
Proof.
  unfold CleanUp.
  pose proof (osqp_cleanup_trace (work_ s) mu) as Hc.
  unfold bind at 1. destruct (osqp_cleanup (work_ s) mu) as [[[]|f] mu1]; simpl in Hc.
  2:{ exists []. simpl. rewrite Hc. split; [done|]. split; [done|lia]. }
  assert (emits is_free (fun _ => true) 4
            (let* _ := if decide (data_ s = nullptr) then ret tt
                       else let* d := load_data (data_ s) in
                            let* _ := c_free (d_A d) in
                            let* d' := load_data (data_ s) in
                            let* _ := c_free (d_P d') in
                            c_free (data_ s) in
             if decide (settings_ s = nullptr) then ret tt else c_free (settings_ s)))
    as Hrest.
  { apply (emits_bind _ _ _ _ 3 1).
    - destruct (decide (data_ s = nullptr));
        [eapply emits_weaken; [|apply emits_ret]; lia|].
      apply (emits_bind _ _ _ _ 0 3); [apply emits_load_data|]. intros d.
      apply (emits_bind _ _ _ _ 1 2); [by apply emits_c_free|]. intros _.
      apply (emits_bind _ _ _ _ 0 2); [apply emits_load_data|]. intros d'.
      apply (emits_bind _ _ _ _ 1 1); [by apply emits_c_free|]. intros _.
      by apply emits_c_free.
    - intros _. destruct (decide (settings_ s = nullptr));
        [eapply emits_weaken; [|apply emits_ret]; lia|].
      by apply emits_c_free. }
  destruct (Hrest mu1) as (evs & Ht & HP & Hn).
  exists evs. rewrite Ht, Hc, <- app_assoc. split; [reflexivity|]. split; [exact HP|].
  assert (count (fun _ => true) evs = length evs) as <-; [|exact Hn].
  clear. unfold count. induction evs; simpl; congruence.
Qed.

End CleanUpLog.

(** ** Every way [Solve] can return *)

Lemma bind_Ok_inv {A B} (c : Mem A) (k : A -> Mem B) mu r mu' :
  bind c k mu = (Ok r, mu') ->
  exists a mu1, c mu = (Ok a, mu1) /\ k a mu1 = (Ok r, mu').
Proof.
  unfold bind. destruct (c mu) as [[a|f] mu1]; [|discriminate].
  intros Hk. by exists a, mu1.
Qed.

Lemma load_Ok_inv p b mu mu' :
  load p mu = (Ok b, mu') -> mu' = mu /\ exists a, p = addr a /\ heap mu !! a = Some b.
Proof.
  unfold load. destruct p as [|a|]; try discriminate.
  destruct (heap mu !! a) eqn:E; [|discriminate].
  intros [= <- <-]. split; [done|]. by exists a.
Qed.

Section SolveReturns.
Context {Spline1d : Type} `{Spline1dApi Spline1d} `{OsqpApi} `{MatrixOperations}.
Implicit Types (s : OsqpSpline1dSolver Spline1d) (mu : memory).

Lemma Solve_Ok_inv s mu b s' mu' :
  Solve s mu = (Ok (b, s'), mu') ->
  ((rows (kernel_matrix (kernel_ s)) = 0 \/ rows (combined_matrix (constraint_ s)) = 0) /\
   b = false /\ s' = s /\ mu' = mu) \/
  (rows (kernel_matrix (kernel_ s)) <> 0 /\
   rows (combined_matrix (constraint_ s)) <> 0 /\
   exists a w,
     heap mu' !! a = Some (BWorkspace w) /\
     (b, s') = returned_from s (addr a) (solution_x w)).
Proof.
  unfold Solve, combined_matrix. intros Hs.
  destruct (Nat.eqb_spec (rows (kernel_matrix (kernel_ s))) 0) as [HP|HP].
  { injection Hs as <- <- <-. left. auto. }
  destruct (DenseToCSCMatrix (kernel_matrix (kernel_ s))) as [[P_data P_indices] P_indptr].
  destruct (Nat.eqb_spec (rows (stack_constraints
              (constraint_matrix (inequality_constraint (constraint_ s)))
              (constraint_matrix (equality_constraint (constraint_ s))))) 0) as [HA|HA].
  { injection Hs as <- <- <-. left. auto. }
  right. split; [exact HP|]. split; [exact HA|].
  destruct (DenseToCSCMatrix (stack_constraints _ _)) as [[A_data A_indices] A_indptr].
  destruct (bound_arrays _ _) as [l u].
  do 13 (apply bind_Ok_inv in Hs as (? & ? & _ & Hs)).
  apply bind_Ok_inv in Hs as (blk & mu2 & Hload & Hs).
  apply load_Ok_inv in Hload as (-> & a & Hwork & Hblk).
  destruct blk as [| | |w]; try discriminate.
  cbn [work_ with_work with_last_num_param with_last_num_constraint] in Hwork.
  unfold returned_from.
  cbn [spline_ with_last_num_constraint with_last_num_param with_work] in Hs.
  destruct (SetSplineSegs _ _ _) as [ok spline] eqn:Hseg.
  injection Hs as <- <- <-.
  exists a, w. split; [exact Hblk|].
  rewrite Hwork, Hseg. reflexivity.
Qed.

(** X3. Whenever [Solve] returns, with [true] or with [false], the kernel,
    the constraint and the pointers [settings_] and [data_] of the object
    are the ones it started with: the call reads the spline model and never
    replaces the settings or data block. *)
Theorem Solve_keeps_members s mu b s' mu' :
  Solve s mu = (Ok (b, s'), mu') ->
  kernel_ s' = kernel_ s /\ constraint_ s' = constraint_ s /\
  settings_ s' = settings_ s /\ data_ s' = data_ s.
Proof.
  intros Hs. apply Solve_Ok_inv in Hs as [(_ & _ & -> & _)|(_ & _ & a & w & _ & Hr)].
  - auto.
  - unfold returned_from in Hr. injection Hr as _ ->. auto.
Qed.

(** X4. [Solve] returns [false] in two ways only: through one of the two
    early exits, with the object and the memory untouched, or because
    [SetSplineSegs] answered [false] on the vector of a live workspace. *)
Theorem Solve_false_only s mu s' mu' :
  Solve s mu = (Ok (false, s'), mu') ->
  ((rows (kernel_matrix (kernel_ s)) = 0 \/
    rows (constraint_matrix (inequality_constraint (constraint_ s))) +
    rows (constraint_matrix (equality_constraint (constraint_ s))) = 0) /\
   s' = s /\ mu' = mu) \/
  (exists a w,
     work_ s' = addr a /\ heap mu' !! a = Some (BWorkspace w) /\
     fst (SetSplineSegs (spline_ s)
            (solved_params_of (rows (kernel_matrix (kernel_ s))) (solution_x w))
            (spline_order (spline_ s))) = false).
Proof.
  intros Hs. apply Solve_Ok_inv in Hs as [(Hz & _ & -> & ->)|(_ & _ & a & w & Hw & Hr)].
  - left. split; [|auto]. destruct Hz as [?|Hz]; [by left|right].
    unfold combined_matrix in Hz. by rewrite rows_stack_constraints in Hz.
  - right. exists a, w. unfold returned_from in Hr. injection Hr as Hb ->.
    split; [reflexivity|]. split; [exact Hw|]. by rewrite <- Hb.
Qed.

(** X5. Whenever [Solve] returns past the two guards, [last_num_param_]
    and [last_num_constraint_] are the row count of the kernel and the
    total row count of the two boundary matrices, [work_] points to a live
    workspace, and the spline is the one [SetSplineSegs] left; this holds
    also when the call returns [false]. *)
Theorem Solve_updates_counts s mu b s' mu' :
  Solve s mu = (Ok (b, s'), mu') ->
  rows (kernel_matrix (kernel_ s)) <> 0 ->
  rows (constraint_matrix (inequality_constraint (constraint_ s))) +
  rows (constraint_matrix (equality_constraint (constraint_ s))) <> 0 ->
  last_num_param_ s' = rows (kernel_matrix (kernel_ s)) /\
  last_num_constraint_ s' =
    rows (constraint_boundary (inequality_constraint (constraint_ s))) +
    rows (constraint_boundary (equality_constraint (constraint_ s))) /\
  exists a w,
    work_ s' = addr a /\ heap mu' !! a = Some (BWorkspace w) /\
    spline_ s' =
      snd (SetSplineSegs (spline_ s)
             (solved_params_of (rows (kernel_matrix (kernel_ s))) (solution_x w))
             (spline_order (spline_ s))).
Proof.
  intros Hs HP HA.
  apply Solve_Ok_inv in Hs as [([Hz|Hz] & _)|(_ & _ & a & w & Hw & Hr)].
  - contradiction.
  - unfold combined_matrix in Hz. rewrite rows_stack_constraints in Hz. contradiction.
  - unfold returned_from in Hr. injection Hr as _ ->. cbn.
    split; [reflexivity|]. split; [reflexivity|]. by exists a, w.
Qed.

End SolveReturns.

(** ** Construction, reset and the calls that fault *)

Lemma wf_memory_fresh mu i : wf_memory mu -> brk mu <= i -> heap mu !! i = None.
Proof.
  intros Hwf Hi. destruct (heap mu !! i) as [b|] eqn:E; [|done].
  specialize (Hwf i b E). simpl in Hwf. lia.
Qed.

Lemma bind_Fault {A B} (c : Mem A) (k : A -> Mem B) mu f mu' :
  c mu = (Fault f, mu') -> bind c k mu = (Fault f, mu').
Proof. unfold bind. by intros ->. Qed.

Ltac heap_eq :=
  apply map_eq; intros ?;
  repeat first [rewrite lookup_insert | rewrite lookup_delete];
  repeat case_decide; subst; try lia; try done.

Section MoreRuns.
Context {Spline1d : Type} `{Spline1dApi Spline1d} `{OsqpApi} `{MatrixOperations}.
Implicit Types (s : OsqpSpline1dSolver Spline1d) (mu : memory).

(** The constructor, in any memory. *)
Lemma OsqpSpline1dSolver_new_run (spline : Spline1d) kernel constraint n0 p0 work0 mu :
  OsqpSpline1dSolver_new spline kernel constraint n0 p0 work0 mu =
  (Ok (mkSolver spline kernel constraint n0 p0
                (addr (brk mu)) work0 (addr (brk mu + 1))),
   mkMemory (<[brk mu + 1 := BData unset_data]>
               (<[brk mu := BSettings (Some constructor_settings)]> (heap mu)))
            (brk mu + 2)
            (trace mu ++ [ev_malloc (brk mu); ev_malloc (brk mu + 1)])).
Proof.
  unfold OsqpSpline1dSolver_new.
  unfold c_malloc at 1. erewrite bind_ok; [|reflexivity].
  erewrite bind_ok; [|eapply store_ok; cbn [heap]; by rewrite lookup_insert_eq].
  erewrite bind_ok; [|eapply store_ok; cbn [heap]; by rewrite lookup_insert_eq].
  unfold c_malloc. erewrite bind_ok; [|reflexivity].
  unfold ret. cbn [heap brk trace].
  replace (brk mu + 1) with (S (brk mu)) by lia.
  replace (brk mu + 2) with (S (S (brk mu))) by lia.
  rewrite <- app_assoc. f_equal. f_equal. by rewrite !insert_insert_eq.
Qed.

(** [ResetOsqp], in any memory. *)
Lemma ResetOsqp_run s mu :
  ResetOsqp s mu =
  (Ok (mkSolver (spline_ s) (kernel_ s) (constraint_ s) (last_num_constraint_ s)
                (last_num_param_ s) (addr (brk mu)) (work_ s) (addr (brk mu + 1))),
   mkMemory (<[brk mu + 1 := BData unset_data]>
               (<[brk mu := BSettings None]> (heap mu)))
            (brk mu + 2)
            (trace mu ++ [ev_malloc (brk mu); ev_malloc (brk mu + 1)])).
Proof.
  unfold ResetOsqp, c_malloc, bind, ret, with_data, with_settings. cbn.
  replace (brk mu + 1) with (S (brk mu)) by lia.
  replace (brk mu + 2) with (S (S (brk mu))) by lia.
  by rewrite <- app_assoc.
Qed.

Lemma wf_memory_two_blocks mu b1 b2 tr :
  wf_memory mu ->
  wf_memory (mkMemory (<[brk mu + 1 := b2]> (<[brk mu := b1]> (heap mu)))
                      (brk mu + 2) tr).
Proof.
  intros Hwf a b. cbn [heap brk]. rewrite !lookup_insert.
  repeat case_decide; try lia.
  intros Hb. specialize (Hwf a b Hb). simpl in Hwf. lia.
Qed.

Lemma osqp_setup_null dA dS d P A so mu pa aa :
  heap mu !! dA = Some (BData d) ->
  d_P d = addr pa -> d_A d = addr aa ->
  heap mu !! pa = Some (BCsc P) ->
  heap mu !! aa = Some (BCsc A) ->
  heap mu !! dS = Some (BSettings so) ->
  osqp_setup_workspace (mkQP (d_n d) (d_m d) P (d_q d) A (d_l d) (d_u d)) so = None ->
  osqp_setup (addr dA) (addr dS) mu =
  (Ok nullptr, mkMemory (heap mu) (brk mu) (trace mu ++ [ev_setup nullptr])).
Proof.
  intros Hd HP HA HpP HpA HS Hw. unfold osqp_setup.
  rewrite (bind_ok _ _ _ _ _ (load_data_ok _ _ _ Hd)).
  rewrite HP, HA.
  rewrite (bind_ok _ _ _ _ _ (load_ok _ _ _ HpP)).
  rewrite (bind_ok _ _ _ _ _ (load_ok _ _ _ HpA)).
  rewrite (bind_ok _ _ _ _ _ (load_ok _ _ _ HS)).
  rewrite Hw. reflexivity.
Qed.

Lemma osqp_solve_null mu :
  osqp_solve nullptr mu =
  (Fault (bad_deref nullptr),
   mkMemory (heap mu) (brk mu) (trace mu ++ [ev_solve nullptr])).
Proof. reflexivity. Qed.

(** X6. When [osqp_setup] answers a null workspace, [Solve] does not return
    [false]: it calls [osqp_solve] on the null pointer and faults reading
    through it, with the two CSC headers allocated and the data block
    filled. *)
Theorem Solve_null_workspace_faults s mu dA dS d0 so :
  wf_memory mu ->
  data_ s = addr dA -> settings_ s = addr dS ->
  heap mu !! dA = Some (BData d0) ->
  heap mu !! dS = Some (BSettings so) ->
  rows (kernel_matrix (kernel_ s)) <> 0 ->
  rows (combined_matrix (constraint_ s)) <> 0 ->
  osqp_setup_workspace (assembled_problem s) so = None ->
  Solve s mu =
  (Fault (bad_deref nullptr),
   mkMemory
     (<[dA := BData (assembled_data s (addr (brk mu)) (addr (brk mu + 1)))]>
        (<[brk mu + 1 := BCsc (qp_A (assembled_problem s))]>
           (<[brk mu := BCsc (qp_P (assembled_problem s))]> (heap mu))))
     (brk mu + 2)
     (trace mu ++ [ev_malloc (brk mu); ev_malloc (brk mu + 1);
                   ev_setup nullptr; ev_solve nullptr])).
Proof.
  intros Hwf HdA HdS Hd0 Hso HP HA Hsetup.
  assert (dA < brk mu) as HltA by exact (Hwf _ _ Hd0).
  assert (dS < brk mu) as HltS by exact (Hwf _ _ Hso).
  assert (dA <> dS) as Hne by (intros ->; congruence).
  unfold Solve.
  apply Nat.eqb_neq in HP as HP'. rewrite HP'.
  unfold assembled_problem, csc_of, combined_matrix in Hsetup, HA.
  unfold assembled_data, assembled_problem, csc_of, combined_matrix,
    lower_bounds, upper_bounds.
  destruct (DenseToCSCMatrix (kernel_matrix (kernel_ s))) as [[P_data P_indices] P_indptr].
  apply Nat.eqb_neq in HA as HA'. rewrite HA'.
  destruct (DenseToCSCMatrix (stack_constraints _ _)) as [[A_data A_indices] A_indptr].
  unfold lower_bounds, upper_bounds in Hsetup.
  destruct (bound_arrays _ _) as [l u] eqn:Hlu.
  rewrite HdA, HdS.
  step update_data_ok.
  step update_data_ok.
  step load_data_ok.
  unfold csc_matrix at 1. erewrite bind_ok; [|reflexivity].
  step update_data_ok.
  step update_data_ok.
  step load_data_ok.
  unfold csc_matrix at 1. erewrite bind_ok; [|reflexivity].
  step update_data_ok.
  step update_data_ok.
  step update_data_ok.
  erewrite bind_ok.
  2:{ eapply osqp_setup_null; try heap_lookup. }
  cbn [work_ with_work heap brk trace].
  erewrite bind_Fault; [|apply osqp_solve_null].
  cbn [heap brk trace fst snd qp_n qp_m qp_P qp_q qp_A qp_l qp_u].
  replace (brk mu + 1) with (S (brk mu)) by lia.
  replace (brk mu + 2) with (S (S (brk mu))) by lia.
  f_equal. f_equal.
  - heap_eq.
  - by rewrite <- !app_assoc.
Qed.

(** X7. A call of [Solve] whose [data_] points to no live block (as after
    [CleanUp] without [ResetOsqp]) faults at the first write through
    [data_], for every problem that passes the two guards. *)
Theorem Solve_dangling_data_faults s mu dA :
  data_ s = addr dA -> heap mu !! dA = None ->
  rows (kernel_matrix (kernel_ s)) <> 0 ->
  rows (combined_matrix (constraint_ s)) <> 0 ->
  Solve s mu = (Fault (bad_deref (addr dA)), mu).
Proof.
  intros HdA Hd HP HA. unfold Solve.
  apply Nat.eqb_neq in HP. rewrite HP.
  destruct (DenseToCSCMatrix (kernel_matrix (kernel_ s))) as [[P_data P_indices] P_indptr].
  unfold combined_matrix in HA. apply Nat.eqb_neq in HA. rewrite HA.
  destruct (DenseToCSCMatrix (stack_constraints _ _)) as [[A_data A_indices] A_indptr].
  destruct (bound_arrays _ _) as [l u].
  rewrite HdA. unfold bind at 1, update_data, bind at 1, load_data, bind at 1, load.
  by rewrite Hd.
Qed.

End MoreRuns.

Section Lifetimes.
Context {Spline1d : Type} `{Spline1dApi Spline1d} `{OsqpApi} `{MatrixOperations}.
Implicit Types (s : OsqpSpline1dSolver Spline1d) (mu : memory).

(** X8. One object, one [Solve] that reaches the solver, destruction: in
    any well-formed memory the five blocks allocated on the way (settings,
    data, two CSC headers, workspace) are all released, each once, and the
    heap is the one the constructor started from. *)
Theorem single_Solve_lifetime_balanced (spline : Spline1d) kernel constraint mu w0 :
  wf_memory mu ->
  rows (kernel_matrix kernel) <> 0 ->
  rows (combined_matrix constraint) <> 0 ->
  osqp_setup_workspace
    (assembled_problem
       (mkSolver spline kernel constraint 0 0 (addr (brk mu)) nullptr (addr (brk mu + 1))))
    (Some constructor_settings) = Some w0 ->
  lifetime spline kernel constraint [call_Solve] mu =
  (Ok tt,
   mkMemory (heap mu) (brk mu + 5)
     (trace mu ++
      [ev_malloc (brk mu); ev_malloc (brk mu + 1);
       ev_malloc (brk mu + 2); ev_malloc (brk mu + 3);
       ev_setup (addr (brk mu + 4)); ev_solve (addr (brk mu + 4));
       ev_cleanup (addr (brk mu + 4));
       ev_free (addr (brk mu + 3)); ev_free (addr (brk mu + 2));
       ev_free (addr (brk mu + 1)); ev_free (addr (brk mu))])).
Proof.
  intros Hwf HP HA Hsetup. unfold lifetime.
  rewrite (bind_ok _ _ _ _ _ (OsqpSpline1dSolver_new_run _ _ _ _ _ _ _)).
  set (s0 := mkSolver spline kernel constraint 0 0 (addr (brk mu)) nullptr
                      (addr (brk mu + 1))) in *.
  set (mu0 := mkMemory _ (brk mu + 2) _).
  assert (wf_memory mu0) as Hwf0 by (by apply wf_memory_two_blocks).
  assert (Solve s0 mu0 =
          (Ok (solver_after_solve s0 mu0 (osqp_solve_workspace w0)),
           memory_after_solve s0 mu0 (brk mu + 1) (osqp_solve_workspace w0))) as HS.
  { apply Solve_run with (dS := brk mu) (d0 := unset_data)
                         (so := Some constructor_settings); try done.
    - unfold mu0. cbn [heap]. by rewrite lookup_insert_eq.
    - unfold mu0. cbn [heap]. rewrite lookup_insert_ne by lia.
      by rewrite lookup_insert_eq. }
  cbn [do_calls do_call].
  erewrite bind_ok.
  2:{ erewrite bind_ok; [|erewrite bind_ok; [|exact HS]; reflexivity]. reflexivity. }
  set (w := osqp_solve_workspace w0) in *.
  set (mu1 := memory_after_solve s0 mu0 (brk mu + 1) w) in *.
  unfold OsqpSpline1dSolver_delete.
  rewrite (CleanUp_run (snd (solver_after_solve s0 mu0 w)) mu1 (brk mu0 + 2) w
             (brk mu + 1)
             (assembled_data s0 (addr (brk mu0)) (addr (brk mu0 + 1)))
             (brk mu0 + 1) (qp_A (assembled_problem s0))
             (brk mu0) (qp_P (assembled_problem s0))
             (brk mu) (Some constructor_settings));
    try reflexivity; try (unfold mu1, memory_after_solve, mu0; cbn [heap brk]).
  - f_equal. f_equal.
    + apply map_eq. intros i.
      repeat first [rewrite lookup_insert | rewrite lookup_delete].
      repeat case_decide; subst; try lia; try done;
        symmetry; apply wf_memory_fresh; try done; lia.
    + lia.
    + cbn [trace]. rewrite <- !app_assoc. cbn [app]. repeat (f_equal; try lia).
  - by rewrite lookup_insert_eq.
  - rewrite lookup_insert_ne by lia. by rewrite lookup_insert_eq.
  - rewrite !lookup_insert_ne by lia. by rewrite lookup_insert_eq.
  - rewrite !lookup_insert_ne by lia. by rewrite lookup_insert_eq.
  - rewrite !lookup_insert_ne by lia. by rewrite lookup_insert_eq.
  - lia.
Qed.




(** X10. [CleanUp] is not idempotent. After a [CleanUp] that released the
    five blocks of an object, a second [CleanUp] on the same object, with or
    without [ResetOsqp] in between, hands the released workspace to
    [osqp_cleanup] again: the null tests of lines 63 and 68 do not help,
    since no pointer is reset. *)
Theorem CleanUp_twice_faults s mu w ww dA d a ca p cp dS so :
  wf_memory mu ->
  work_ s = addr w -> data_ s = addr dA -> settings_ s = addr dS ->
  heap mu !! w = Some (BWorkspace ww) ->
  heap mu !! dA = Some (BData d) ->
  d_A d = addr a -> d_P d = addr p ->
  heap mu !! a = Some (BCsc ca) ->
  heap mu !! p = Some (BCsc cp) ->
  heap mu !! dS = Some (BSettings so) ->
  a <> p ->
  exists mu1,
    CleanUp s mu = (Ok tt, mu1) /\
    fst (CleanUp s mu1) = Fault (bad_cleanup (addr w)) /\
    exists s2 mu2,
      ResetOsqp s mu1 = (Ok s2, mu2) /\
      fst (CleanUp s2 mu2) = Fault (bad_cleanup (addr w)).
Proof.
  intros Hwf Hw HdA HdS Hhw Hhd HA HP Hha Hhp Hhs Hap.
  eexists. split; [by eapply CleanUp_run|].
  assert (w < brk mu) as Hlt by exact (Hwf _ _ Hhw).
  split.
  - unfold CleanUp. rewrite Hw.
    erewrite bind_Fault; [reflexivity|].
    apply osqp_cleanup_released. cbn [heap].
    rewrite !lookup_delete_ne by (intros ->; congruence). apply lookup_delete_eq.
  - eexists _, _. split; [apply ResetOsqp_run|].
    unfold CleanUp. cbn [work_]. rewrite Hw.
    erewrite bind_Fault; [reflexivity|].
    apply osqp_cleanup_released. cbn [heap brk].
    rewrite !lookup_insert_ne by lia.
    rewrite !lookup_delete_ne by (intros ->; congruence). apply lookup_delete_eq.
Qed.

(** X11. [ResetOsqp] does not restore the settings of the constructor: the
    new settings block is never filled, so the next [Solve] hands
    [osqp_setup] unset settings.  When the solver accepts them, that
    [Solve] runs as usual on the new blocks. *)
Theorem Solve_after_ResetOsqp s mu :
  wf_memory mu ->
  rows (kernel_matrix (kernel_ s)) <> 0 ->
  rows (combined_matrix (constraint_ s)) <> 0 ->
  exists s1 mu1,
    ResetOsqp s mu = (Ok s1, mu1) /\
    settings_ s1 = addr (brk mu) /\
    heap mu1 !! brk mu = Some (BSettings None) /\
    (forall w0,
       osqp_setup_workspace (assembled_problem s) None = Some w0 ->
       Solve s1 mu1 =
       (Ok (solver_after_solve s1 mu1 (osqp_solve_workspace w0)),
        memory_after_solve s1 mu1 (brk mu + 1) (osqp_solve_workspace w0))).
Proof.
  intros Hwf HP HA. eexists _, _. split; [apply ResetOsqp_run|].
  set (s1 := mkSolver _ _ _ _ _ (addr (brk mu)) _ _).
  set (mu1 := mkMemory _ (brk mu + 2) _).
  assert (wf_memory mu1) as Hwf1 by (by apply wf_memory_two_blocks).
  assert (heap mu1 !! (brk mu + 1) = Some (BData unset_data)) as Hd
    by (unfold mu1; cbn [heap]; by rewrite lookup_insert_eq).
  assert (heap mu1 !! brk mu = Some (BSettings None)) as Hs.
  { unfold mu1. cbn [heap]. rewrite lookup_insert_ne by lia.
    by rewrite lookup_insert_eq. }
  split; [reflexivity|]. split; [exact Hs|].
  intros w0 Hsetup.
  by apply Solve_run with (dS := brk mu) (d0 := unset_data) (so := None).
Qed.

Lemma do_calls_cons c cs s mu s' mu' :
  do_call c s mu = (Ok s', mu') ->
  do_calls (c :: cs) s mu = do_calls cs s' mu'.
Proof. intros Hc. cbn [do_calls]. by rewrite (bind_ok _ _ _ _ _ Hc). Qed.

Lemma do_call_Solve s mu r mu' :
  Solve s mu = (Ok r, mu') -> do_call call_Solve s mu = (Ok (snd r), mu').
Proof. intros Hc. cbn [do_call]. by rewrite (bind_ok _ _ _ _ _ Hc). Qed.

Lemma do_call_CleanUp s mu mu' :
  CleanUp s mu = (Ok tt, mu') -> do_call call_CleanUp s mu = (Ok s, mu').
Proof. intros Hc. cbn [do_call]. by rewrite (bind_ok _ _ _ _ _ Hc). Qed.

(** [CleanUp] right after a [Solve] that reached the solver. *)
Lemma CleanUp_after_solve s mu dA dS d0 so w :
  wf_memory mu ->
  data_ s = addr dA -> settings_ s = addr dS ->
  heap mu !! dA = Some (BData d0) ->
  heap mu !! dS = Some (BSettings so) ->
  CleanUp (snd (solver_after_solve s mu w)) (memory_after_solve s mu dA w) =
  (Ok tt,
   mkMemory (delete dS (delete dA (heap mu))) (brk mu + 3)
     (trace mu ++ [ev_malloc (brk mu); ev_malloc (brk mu + 1);
                   ev_setup (addr (brk mu + 2)); ev_solve (addr (brk mu + 2));
                   ev_cleanup (addr (brk mu + 2));
                   ev_free (addr (brk mu + 1)); ev_free (addr (brk mu));
                   ev_free (addr dA); ev_free (addr dS)])).
Proof.
  intros Hwf HdA HdS Hd Hs.
  assert (dA < brk mu) as HltA by exact (Hwf _ _ Hd).
  assert (dS < brk mu) as HltS by exact (Hwf _ _ Hs).
  assert (dA <> dS) as Hne by (intros ->; congruence).
  rewrite (CleanUp_run (snd (solver_after_solve s mu w)) (memory_after_solve s mu dA w)
             (brk mu + 2) w dA
             (assembled_data s (addr (brk mu)) (addr (brk mu + 1)))
             (brk mu + 1) (qp_A (assembled_problem s))
             (brk mu) (qp_P (assembled_problem s)) dS so);
    try done; try (unfold memory_after_solve; cbn [heap brk]).
  - f_equal. f_equal.
    + apply map_eq. intros i.
      repeat first [rewrite lookup_insert | rewrite lookup_delete].
      repeat case_decide; subst; try lia; try done;
        symmetry; apply wf_memory_fresh; try done; lia.
    + cbn [trace]. by rewrite <- !app_assoc.
  - by rewrite lookup_insert_eq.
  - rewrite lookup_insert_ne by lia. by rewrite lookup_insert_eq.
  - rewrite !lookup_insert_ne by lia. by rewrite lookup_insert_eq.
  - rewrite !lookup_insert_ne by lia. by rewrite lookup_insert_eq.
  - by rewrite !lookup_insert_ne by lia.
  - lia.
Qed.

(** X12. The reuse protocol the class offers, [Solve], [CleanUp],
    [ResetOsqp], [Solve], then destruction, is balanced: ten blocks are
    allocated, each is released once, and the heap ends as it began.  The
    second [Solve] runs on the unset settings of [ResetOsqp]. *)
Theorem reuse_protocol_balanced (spline : Spline1d) kernel constraint mu w0 w1 :
  wf_memory mu ->
  rows (kernel_matrix kernel) <> 0 ->
  rows (combined_matrix constraint) <> 0 ->
  (let qp := assembled_problem
               (mkSolver spline kernel constraint 0 0 (addr (brk mu)) nullptr
                         (addr (brk mu + 1))) in
   osqp_setup_workspace qp (Some constructor_settings) = Some w0 /\
   osqp_setup_workspace qp None = Some w1) ->
  lifetime spline kernel constraint
    [call_Solve; call_CleanUp; call_ResetOsqp; call_Solve] mu =
  (Ok tt,
   mkMemory (heap mu) (brk mu + 10)
     (trace mu ++
      [ev_malloc (brk mu); ev_malloc (brk mu + 1);
       ev_malloc (brk mu + 2); ev_malloc (brk mu + 3);
       ev_setup (addr (brk mu + 4)); ev_solve (addr (brk mu + 4));
       ev_cleanup (addr (brk mu + 4));
       ev_free (addr (brk mu + 3)); ev_free (addr (brk mu + 2));
       ev_free (addr (brk mu + 1)); ev_free (addr (brk mu));
       ev_malloc (brk mu + 5); ev_malloc (brk mu + 6);
       ev_malloc (brk mu + 7); ev_malloc (brk mu + 8);
       ev_setup (addr (brk mu + 9)); ev_solve (addr (brk mu + 9));
       ev_cleanup (addr (brk mu + 9));
       ev_free (addr (brk mu + 8)); ev_free (addr (brk mu + 7));
       ev_free (addr (brk mu + 6)); ev_free (addr (brk mu + 5))])).
Proof.
  intros Hwf HP HA Hsetup. unfold lifetime.
  rewrite (bind_ok _ _ _ _ _ (OsqpSpline1dSolver_new_run _ _ _ _ _ _ _)).
  set (s0 := mkSolver spline kernel constraint 0 0 (addr (brk mu)) nullptr
                      (addr (brk mu + 1))) in *.
  set (mu0 := mkMemory _ (brk mu + 2) _).
  assert (wf_memory mu0) as Hwf0 by (by apply wf_memory_two_blocks).
  assert (heap mu0 !! (brk mu + 1) = Some (BData unset_data)) as Hd0
    by (unfold mu0; cbn [heap]; by rewrite lookup_insert_eq).
  assert (heap mu0 !! brk mu = Some (BSettings (Some constructor_settings))) as Hs0.
  { unfold mu0. cbn [heap]. rewrite lookup_insert_ne by lia.
    by rewrite lookup_insert_eq. }
  destruct Hsetup as [Hw0 Hw1]. fold s0 in Hw0.
  set (w := osqp_solve_workspace w0).
  set (s1 := snd (solver_after_solve s0 mu0 w)).
  set (mu2 := mkMemory (delete (brk mu) (delete (brk mu + 1) (heap mu0)))
                (brk mu0 + 3)
                (trace mu0 ++ [ev_malloc (brk mu0); ev_malloc (brk mu0 + 1);
                   ev_setup (addr (brk mu0 + 2)); ev_solve (addr (brk mu0 + 2));
                   ev_cleanup (addr (brk mu0 + 2));
                   ev_free (addr (brk mu0 + 1)); ev_free (addr (brk mu0));
                   ev_free (addr (brk mu + 1)); ev_free (addr (brk mu))])).
  assert (heap mu2 = heap mu) as Hheap.
  { unfold mu2, mu0. cbn [heap]. apply map_eq. intros i.
    repeat first [rewrite lookup_insert | rewrite lookup_delete].
    repeat case_decide; subst; try lia; try done;
      symmetry; apply wf_memory_fresh; try done; lia. }
  assert (wf_memory mu2) as Hwf2.
  { intros a b Hb. unfold wf_memory in Hwf. rewrite Hheap in Hb.
    specialize (Hwf a b Hb). unfold mu2, mu0. cbn [brk] in *. lia. }
  set (s3 := mkSolver (spline_ s1) (kernel_ s1) (constraint_ s1)
               (last_num_constraint_ s1) (last_num_param_ s1)
               (addr (brk mu2)) (work_ s1) (addr (brk mu2 + 1))).
  set (mu3 := mkMemory (<[brk mu2 + 1 := BData unset_data]>
                          (<[brk mu2 := BSettings None]> (heap mu2)))
                (brk mu2 + 2)
                (trace mu2 ++ [ev_malloc (brk mu2); ev_malloc (brk mu2 + 1)])).
  assert (wf_memory mu3) as Hwf3 by (by apply wf_memory_two_blocks).
  assert (heap mu3 !! (brk mu2 + 1) = Some (BData unset_data)) as Hd3
    by (unfold mu3; cbn [heap]; by rewrite lookup_insert_eq).
  assert (heap mu3 !! brk mu2 = Some (BSettings None)) as Hs3.
  { unfold mu3. cbn [heap]. rewrite lookup_insert_ne by lia.
    by rewrite lookup_insert_eq. }
  change (osqp_setup_workspace (assembled_problem s3) None = Some w1) in Hw1.
  set (w' := osqp_solve_workspace w1).
  assert (do_calls [call_Solve; call_CleanUp; call_ResetOsqp; call_Solve] s0 mu0 =
          (Ok (snd (solver_after_solve s3 mu3 w')),
           memory_after_solve s3 mu3 (brk mu2 + 1) w')) as Hcalls.
  { rewrite (do_calls_cons _ _ s0 mu0 s1 (memory_after_solve s0 mu0 (brk mu + 1) w)).
    2:{ apply do_call_Solve.
        by apply Solve_run with (dS := brk mu) (d0 := unset_data)
                                (so := Some constructor_settings). }
    rewrite (do_calls_cons _ _ s1 _ s1 mu2).
    2:{ apply do_call_CleanUp.
        by apply (CleanUp_after_solve s0 mu0 (brk mu + 1) (brk mu) unset_data
                    (Some constructor_settings)). }
    rewrite (do_calls_cons _ _ s1 mu2 s3 mu3) by apply ResetOsqp_run.
    rewrite (do_calls_cons _ _ s3 mu3 (snd (solver_after_solve s3 mu3 w'))
               (memory_after_solve s3 mu3 (brk mu2 + 1) w')).
    2:{ apply do_call_Solve.
        by apply Solve_run with (dS := brk mu2) (d0 := unset_data) (so := None). }
    reflexivity. }
  rewrite (bind_ok _ _ _ _ _ Hcalls).
  unfold OsqpSpline1dSolver_delete.
  rewrite (CleanUp_after_solve s3 mu3 (brk mu2 + 1) (brk mu2) unset_data None w');
    try done.
  f_equal. unfold mu3. cbn [heap brk trace]. f_equal.
  - rewrite Hheap. apply map_eq. intros i.
    repeat first [rewrite lookup_insert | rewrite lookup_delete].
    repeat case_decide; subst; try lia; try done;
      symmetry; apply wf_memory_fresh; try done; unfold mu2, mu0; cbn [brk]; lia.
  - unfold mu2, mu0. cbn [brk]. lia.
  - unfold mu2, mu0. cbn [brk trace]. rewrite <- !app_assoc. cbn [app].
    repeat (f_equal; try lia).
Qed.

End Lifetimes.

(** ** A representable number is its own rounding *)

Section ExactFacts.
Import Rounding.
Local Open Scope Z_scope.

Lemma rne_shifted m k : 0 <= k -> rne (m * 2 ^ k) k = m.
Proof.
  intros Hk. pose proof (pow2_pos k Hk) as HP. unfold rne.
  rewrite Z.div_mul, Z.mod_mul by lia. cbn zeta.
  destruct (Z.compare_spec (2 * 0) (2 ^ k)); lia.
Qed.

Lemma valid_binary_good x :
  valid_binary 53 1024 x = true -> is_nan x = false -> good x.
Proof.
  destruct x as [s|s| |s m e]; try done.
  intros Hv _. cbn [valid_binary] in Hv. unfold bounded, canonical_mantissa in Hv.
  apply andb_true_iff in Hv as [Hc He].
  apply Z.eqb_eq in Hc. apply Z.leb_le in He.
  rewrite fexp_64 in Hc.
  change (Z.pos (digits2_pos m)) with (Zdigits2 (Zpos m)) in Hc.
  destruct (Zdigits2_bounds (Zpos m) ltac:(lia)) as (H1 & _).
  unfold fexp64 in Hc. cbn [good]. lia.
Qed.

Lemma good_canonical_exponent s m e :
  good (S754_finite s m e) -> fexp64 (Zdigits2 (Zpos m) + e) = e.
Proof. intros (He & Hd & Hn). unfold fexp64. lia. Qed.

(** The finite number [m * 2^e], written with the smaller exponent [ez],
    normalizes to itself. *)
Lemma normalized_value_exact s m e ez :
  good (S754_finite s m e) -> ez <= e ->
  normalized_value (cond_Zopp s (Zpos m * 2 ^ (e - ez))) ez =
  scaled (S754_finite s m e).
Proof.
  intros Hg Hez.
  pose proof (good_canonical_exponent s m e Hg) as Hc.
  destruct (good_finite_bounds s m e Hg) as (Hb & _).
  pose proof (pow2_pos (e - ez) ltac:(lia)) as HP.
  assert (rounded_value (Zpos m * 2 ^ (e - ez)) ez = Zpos m * 2 ^ (e + 1074)) as Hr.
  { unfold rounded_value, rounded_mantissa.
    rewrite Zdigits2_shift by lia.
    replace (Zdigits2 (Z.pos m) + (e - ez) + ez) with (Zdigits2 (Zpos m) + e) by lia.
    rewrite Hc. destruct (Z.leb_spec e ez).
    - replace ez with e by lia. rewrite Z.sub_diag. simpl (2 ^ 0). lia.
    - by rewrite rne_shifted by lia. }
  assert (exists p, Zpos m * 2 ^ (e - ez) = Zpos p) as [p Hp].
  { destruct (Zpos m * 2 ^ (e - ez)) as [|p|p] eqn:E; try lia. by exists p. }
  rewrite Hp in *. cbn [scaled].
  destruct s; simpl cond_Zopp;
    [change (- Z.pos p) with (Z.neg p)|]; cbn [normalized_value]; rewrite Hr; lia.
Qed.

(** Adding a positive number never goes below, subtracting it never goes
    above. *)
Lemma sub_le_self_le_add t m e :
  valid_binary 53 1024 t = true -> is_nan t = false ->
  good (S754_finite false m e) ->
  SFleb (SFsub 53 1024 t (S754_finite false m e)) t = true /\
  SFleb t (SFadd 53 1024 t (S754_finite false m e)) = true.
Proof.
  intros Hv Hnan Hge. pose proof (valid_binary_good t Hv Hnan) as Hg.
  destruct t as [s|s| |s mt et]; try discriminate.
  - destruct s; split; reflexivity.
  - destruct s; split; reflexivity.
  - cbn [SFsub SFadd].
    pose proof (shl_align_spec mt et (Z.min et e)) as Ht.
    pose proof (shl_align_spec m e (Z.min et e)) as He.
    destruct (shl_align mt et (Z.min et e)) as [m1 e1].
    destruct (shl_align m e (Z.min et e)) as [m2 e2].
    destruct Ht as [He1 Ht], He as [He2 He]. cbn [fst].
    set (ez := Z.min et e) in *.
    replace e1 with ez in Ht by lia.
    pose proof (normalized_value_exact s mt et ez Hg ltac:(lia)) as Hex.
    rewrite <- Ht in Hex.
    split.
    + destruct (binary_normalize_good
                  (cond_Zopp s (Zpos m1) - cond_Zopp false (Zpos m2)) ez)
        as (G1 & S1).
      apply SFleb_scaled; [exact G1|exact Hg|].
      rewrite S1, <- Hex. apply normalized_value_mono. cbn [cond_Zopp]. lia.
    + destruct (binary_normalize_good
                  (cond_Zopp s (Zpos m1) + cond_Zopp false (Zpos m2)) ez)
        as (G1 & S1).
      apply SFleb_scaled; [exact Hg|exact G1|].
      rewrite S1, <- Hex. apply normalized_value_mono. cbn [cond_Zopp]. lia.
Qed.

End ExactFacts.

(** X13. On an equality row the two bounds enclose the target: for every
    target that is a double other than NaN, [l <= t <= u], also where the
    margin is lost to rounding. *)
Theorem equality_bounds_enclose_target (c : Spline1dConstraint) (i : nat)
    (l u : c_float) :
  let t := coeff (constraint_boundary (equality_constraint c))
                 (i - rows (constraint_boundary (inequality_constraint c))) 0 in
  lower_bounds c !! i = Some l ->
  upper_bounds c !! i = Some u ->
  rows (constraint_boundary (inequality_constraint c)) <= i ->
  valid_binary 53 1024 t = true ->
  is_nan t = false ->
  dleb l t = true /\ dleb t u = true.
Proof.
  intros t Hl Hu Hge Hv Hnan.
  destruct (bound_arrays_lookup_inv _ _ _ _ _ Hl Hu) as (Hi & -> & ->).
  unfold lower_entry, upper_entry. apply Nat.ltb_ge in Hge. rewrite Hge.
  rewrite kEpsilon_double. fold t.
  apply sub_le_self_le_add; [exact Hv|exact Hnan|].
  split; [lia|]. split; [vm_compute; discriminate|right; vm_compute; reflexivity].
Qed.

(** ** The linear cost *)



Section Constructed.
Context {Spline1d : Type} `{Spline1dApi Spline1d} `{OsqpApi} `{MatrixOperations}.

(** X15. The constructor, in any memory and whatever OSQP's defaults are:
    it never faults, allocates two blocks and touches no other; the
    settings block ends with alpha 1, both tolerances the double nearest to
    1e-3 (1152921504606847 / 2^60), 5000 iterations, quiet, warm start, and
    [polish] as the defaults have it; the two matrix pointers of the data
    block are left unset and [work_] is not assigned. *)
Theorem constructor_postcondition (spline : Spline1d) kernel constraint n0 p0 work0 mu :
  exists s mu' st d,
    OsqpSpline1dSolver_new spline kernel constraint n0 p0 work0 mu = (Ok s, mu') /\
    settings_ s = addr (brk mu) /\ data_ s = addr (brk mu + 1) /\ work_ s = work0 /\
    heap mu' !! brk mu = Some (BSettings (Some st)) /\
    heap mu' !! (brk mu + 1) = Some (BData d) /\
    (forall a, a <> brk mu -> a <> brk mu + 1 -> heap mu' !! a = heap mu !! a) /\
    trace mu' = trace mu ++ [ev_malloc (brk mu); ev_malloc (brk mu + 1)] /\
    alpha st = of_Z 1 /\
    has_value (eps_abs st) (1152921504606847 / 2 ^ 60) /\
    eps_rel st = eps_abs st /\
    max_iter st = 5000%Z /\ verbose st = false /\ warm_start st = true /\
    polish st = polish osqp_default_settings /\
    d_P d = wild /\ d_A d = wild.
Proof.
  eexists _, _, _, _. split; [apply OsqpSpline1dSolver_new_run|].
  cbn [settings_ data_ work_ heap trace].
  split; [reflexivity|]. split; [reflexivity|]. split; [reflexivity|].
  split; [rewrite lookup_insert_ne by lia; by rewrite lookup_insert_eq|].
  split; [by rewrite lookup_insert_eq|].
  split; [intros a Ha Hb; by rewrite !lookup_insert_ne by done|].
  split; [reflexivity|]. split; [reflexivity|].
  split; [vm_compute; reflexivity|].
  repeat (split; [reflexivity|]). reflexivity.
Qed.

End Constructed.

(** ** A small term is absorbed by a large one *)

Section AbsorbFacts.
Import Rounding.
Local Open Scope Z_scope.

Lemma rne_near_below m k d :
  0 <= k -> 0 <= d -> 2 * d < 2 ^ k -> rne (m * 2 ^ k + d) k = m.
Proof.
  intros Hk Hd Hlt. pose proof (pow2_pos k Hk) as HP. unfold rne.
  rewrite Z.div_add_l, Z.div_small by lia.
  rewrite Z.add_comm, Z.mod_add, Z.mod_small by lia. cbn zeta.
  destruct (Z.compare_spec (2 * d) (2 ^ k)); lia.
Qed.

Lemma rne_near_above m k d :
  0 <= k -> 0 < d -> 2 * d < 2 ^ k -> rne (m * 2 ^ k - d) k = m.
Proof.
  intros Hk Hd Hlt. pose proof (pow2_pos k Hk) as HP. unfold rne.
  replace (m * 2 ^ k - d) with ((m - 1) * 2 ^ k + (2 ^ k - d)) by lia.
  rewrite Z.div_add_l, Z.div_small by lia.
  rewrite Z.add_comm, Z.mod_add, Z.mod_small by lia. cbn zeta.
  destruct (Z.compare_spec (2 * (2 ^ k - d)) (2 ^ k)); lia.
Qed.

(** A number within a quarter of a unit in the last place of the normal
    number [mt * 2^et] rounds to it. *)
Lemma binary_round_near s (mt p : positive) et ez :
  2 ^ 52 <= Zpos mt < 2 ^ 53 -> -1073 <= et <= 971 -> ez < et ->
  4 * Z.abs (Zpos p - Zpos mt * 2 ^ (et - ez)) < 2 ^ (et - ez) ->
  binary_round 53 1024 s p ez = S754_finite s mt et.
Proof.
  intros Hmt Het Hez Hnear. rewrite binary_round_spec.
  set (k := et - ez) in *. assert (0 < k) as Hk by (unfold k; lia).
  pose proof (pow2_pos k ltac:(lia)) as HP.
  pose proof (pow2_S (k - 1) ltac:(lia)) as HS.
  replace (k - 1 + 1) with k in HS by lia.
  pose proof (pow2_pos (k - 1) ltac:(lia)) as HP1.
  set (M := Zpos mt * 2 ^ k) in *.
  assert (2 ^ (52 + k) <= M < 2 ^ (53 + k)) as HM.
  { rewrite !pow2_add by lia. unfold M. nia. }
  destruct (Z.le_gt_cases M (Zpos p)) as [Hge|Hlt].
  - (* at or above *)
    assert (Zdigits2 (Zpos p) = 53 + k) as Hd.
    { apply Zdigits2_unique; [|lia].
      replace (53 + k - 1) with (52 + k) by lia.
      split; [lia|]. rewrite pow2_add by lia.
      assert (Zpos p < (Zpos mt + 1) * 2 ^ k) by (unfold M in *; lia). nia. }
    rewrite Hd. replace (53 + k + ez) with (53 + et) by (unfold k; lia).
    assert (fexp64 (53 + et) = et) as -> by (unfold fexp64; lia).
    assert (rounded_mantissa (Zpos p) ez = Zpos mt) as ->.
    { unfold rounded_mantissa. rewrite Hd.
      replace (53 + k + ez) with (53 + et) by (unfold k; lia).
      assert (fexp64 (53 + et) = et) as -> by (unfold fexp64; lia).
      destruct (Z.leb_spec et ez); [lia|]. fold k.
      replace (Zpos p) with (Zpos mt * 2 ^ k + (Zpos p - M)) by (unfold M; lia).
      apply rne_near_below; lia. }
    unfold finish. destruct (Z.ltb_spec (Zpos mt) (2 ^ 53)); [|lia].
    destruct (Z.leb_spec et 971); [reflexivity|lia].
  - (* below *)
    destruct (Z.eq_dec (Zpos mt) (2 ^ 52)) as [Hpow|Hnpow].
    + (* the mantissa is the smallest one: one binade down *)
      assert (2 <= k) as Hk2.
      { destruct (Z.le_gt_cases 2 k); [assumption|].
        assert (k = 1) as Hk1 by lia. rewrite Hk1 in *. simpl (2 ^ 1) in *. lia. }
      assert (M = 2 ^ (52 + k)) as HMp
        by (unfold M; rewrite Hpow, pow2_add by lia; reflexivity).
      assert (Zdigits2 (Zpos p) = 52 + k) as Hd.
      { apply Zdigits2_unique; [|lia].
        replace (52 + k - 1) with (51 + k) by lia.
        split; [|lia].
        assert (2 ^ (52 + k) = 2 * 2 ^ (51 + k)) as H2.
        { replace (52 + k) with (51 + k + 1) by lia. apply pow2_S. lia. }
        assert (2 ^ k <= 2 ^ (51 + k)) by (apply pow2_le; lia). lia. }
      assert (fexp64 (52 + k + ez) = et - 1) as HE
        by (unfold fexp64, k; lia).
      rewrite Hd, HE.
      assert (rounded_mantissa (Zpos p) ez = 2 ^ 53) as ->.
      { unfold rounded_mantissa. rewrite Hd, HE.
        destruct (Z.leb_spec (et - 1) ez); [lia|].
        replace (et - 1 - ez) with (k - 1) by (unfold k; lia).
        replace (Zpos p) with (2 ^ 53 * 2 ^ (k - 1) - (M - Zpos p)).
        2:{ unfold M. rewrite Hpow, HS. change (2 ^ 53) with (2 * 2 ^ 52). lia. }
        apply rne_near_above; lia. }
      unfold finish. rewrite Z.ltb_irrefl.
      replace (et - 1 + 1) with et by lia.
      destruct (Z.leb_spec et 971); [|lia].
      f_equal. change 4503599627370496 with (2 ^ 52) in *. lia.
    + assert (Zdigits2 (Zpos p) = 53 + k) as Hd.
      { apply Zdigits2_unique; [|lia].
        replace (53 + k - 1) with (52 + k) by lia.
        split; [|lia]. rewrite pow2_add by lia.
        assert ((Zpos mt - 1) * 2 ^ k <= Zpos p) by (unfold M in *; lia). nia. }
      rewrite Hd. replace (53 + k + ez) with (53 + et) by (unfold k; lia).
      assert (fexp64 (53 + et) = et) as -> by (unfold fexp64; lia).
      assert (rounded_mantissa (Zpos p) ez = Zpos mt) as ->.
      { unfold rounded_mantissa. rewrite Hd.
        replace (53 + k + ez) with (53 + et) by (unfold k; lia).
        assert (fexp64 (53 + et) = et) as -> by (unfold fexp64; lia).
        destruct (Z.leb_spec et ez); [lia|]. fold k.
        replace (Zpos p) with (Zpos mt * 2 ^ k - (M - Zpos p)) by (unfold M; lia).
        apply rne_near_above; lia. }
      unfold finish. destruct (Z.ltb_spec (Zpos mt) (2 ^ 53)); [|lia].
      destruct (Z.leb_spec et 971); [reflexivity|lia].
Qed.

(** Adding or subtracting a positive number below a quarter of a unit in
    the last place of a normal number leaves that number. *)
Lemma add_sub_absorbed s mt et m e :
  2 ^ 52 <= Zpos mt < 2 ^ 53 -> -1073 <= et <= 971 -> e < et ->
  4 * Zpos m < 2 ^ (et - e) ->
  SFadd 53 1024 (S754_finite s mt et) (S754_finite false m e) = S754_finite s mt et /\
  SFsub 53 1024 (S754_finite s mt et) (S754_finite false m e) = S754_finite s mt et.
Proof.
  intros Hmt Het He Hsmall. cbn [SFadd SFsub].
  pose proof (shl_align_spec mt et (Z.min et e)) as Ht.
  pose proof (shl_align_spec m e (Z.min et e)) as Hm.
  destruct (shl_align mt et (Z.min et e)) as [m1 e1].
  destruct (shl_align m e (Z.min et e)) as [m2 e2].
  destruct Ht as [He1 Ht], Hm as [He2 Hm]. cbn [fst].
  replace (Z.min et e) with e in * by lia.
  replace e1 with e in Ht by lia. replace e2 with e in Hm by lia.
  rewrite Z.sub_diag in Hm. simpl (2 ^ 0) in Hm. rewrite Z.mul_1_r in Hm.
  pose proof (pow2_pos (et - e) ltac:(lia)) as HP.
  assert (forall z, 0 < z ->
            4 * Z.abs (z - Zpos mt * 2 ^ (et - e)) < 2 ^ (et - e) ->
            binary_normalize 53 1024 (cond_Zopp s z) e false = S754_finite s mt et)
    as Hround.
  { intros z Hz Hnear. destruct z as [|p|p]; try lia.
    destruct s; cbn [cond_Zopp Z.opp binary_normalize];
      by apply binary_round_near. }
  destruct s; cbn [cond_Zopp].
  - split.
    + replace (- Zpos m1 + Zpos m2) with (cond_Zopp true (Zpos m1 - Zpos m2))
        by (cbn [cond_Zopp]; lia).
      apply Hround; nia.
    + replace (- Zpos m1 - Zpos m2) with (cond_Zopp true (Zpos m1 + Zpos m2))
        by (cbn [cond_Zopp]; lia).
      apply Hround; nia.
  - split.
    + change (Zpos m1 + Zpos m2) with (cond_Zopp false (Zpos m1 + Zpos m2)).
      apply Hround; nia.
    + change (Zpos m1 - Zpos m2) with (cond_Zopp false (Zpos m1 - Zpos m2)).
      apply Hround; nia.
Qed.

End AbsorbFacts.

(** X16. From magnitude 2^25 on the margin is lost altogether: on an
    equality row whose target is a normal double [m * 2^e] with
    [e >= -27], both bounds are the target itself, [l = u = t]. *)
Theorem equality_bounds_collapse (c : Spline1dConstraint) (i : nat)
    (l u : c_float) (s : bool) (m : positive) (e : Z) :
  lower_bounds c !! i = Some l ->
  upper_bounds c !! i = Some u ->
  rows (constraint_boundary (inequality_constraint c)) <= i ->
  coeff (constraint_boundary (equality_constraint c))
        (i - rows (constraint_boundary (inequality_constraint c))) 0 =
    S754_finite s m e ->
  valid_binary 53 1024 (S754_finite s m e) = true ->
  (-27 <= e)%Z ->
  l = S754_finite s m e /\ u = S754_finite s m e.
Proof.
  intros Hl Hu Hge Ht Hv He.
  destruct (bound_arrays_lookup_inv _ _ _ _ _ Hl Hu) as (Hi & -> & ->).
  unfold lower_entry, upper_entry. apply Nat.ltb_ge in Hge. rewrite Hge.
  rewrite kEpsilon_double, Ht.
  cbn [valid_binary] in Hv. unfold bounded, canonical_mantissa in Hv.
  apply andb_true_iff in Hv as [Hc Hmax].
  apply Z.eqb_eq in Hc. apply Z.leb_le in Hmax.
  rewrite fexp_64 in Hc.
  change (Z.pos (digits2_pos m)) with (Zdigits2 (Zpos m)) in Hc.
  destruct (Zdigits2_bounds (Zpos m) ltac:(lia)) as (H1 & Hlo & Hhi).
  assert (Zdigits2 (Zpos m) = 53%Z) as Hd by (unfold Rounding.fexp64 in Hc; lia).
  rewrite Hd in Hlo, Hhi. change (53 - 1)%Z with 52%Z in Hlo.
  destruct (add_sub_absorbed s m e (9007199 * 2 ^ 29) (-82)) as [Ha Hs];
    [lia|change (1024 - 53)%Z with 971%Z in Hmax; lia|lia| |].
  - assert (2 ^ 55 <= 2 ^ (e - -82))%Z by (apply pow2_le; lia).
    assert (4 * Z.pos (9007199 * 2 ^ 29) < 2 ^ 55)%Z by (vm_compute; reflexivity).
    lia.
  - split; [exact Hs|exact Ha].
Qed.

Lemma Solve_keeps_members_witness :
  let O := Scenario.answering OSQP_SOLVED [of_Z 1; of_Z 3] in
  let s := Scenario.fresh Scenario.kernel Scenario.constraint in
  let mu := Scenario.fresh_memory O in
  let w := @osqp_solve_workspace O
             (mkWork (assembled_problem s) (Some (@constructor_settings O))
                     (replicate 2 dzero) OSQP_UNSOLVED) in
  let s' := snd (solver_after_solve s mu w) in
  kernel_ s' = kernel_ s /\ constraint_ s' = constraint_ s /\
  settings_ s' = settings_ s /\ data_ s' = data_ s.
Proof.
  intros O s mu w s'.
  apply (@Solve_keeps_members _ _ O _ s mu (fst (solver_after_solve s mu w)) s'
           (memory_after_solve s mu 1 w)).
  vm_compute. reflexivity.
Defined.

Lemma Solve_false_only_witness :
  let O := Scenario.answering OSQP_SOLVED [of_Z 1; of_Z 3] in
  let s := Scenario.fresh Scenario.empty_kernel Scenario.constraint in
  let mu := Scenario.fresh_memory O in
  ((rows (kernel_matrix (kernel_ s)) = 0 \/
    rows (constraint_matrix (inequality_constraint (constraint_ s))) +
    rows (constraint_matrix (equality_constraint (constraint_ s))) = 0) /\
   s = s /\ mu = mu) \/
  (exists a w,
     work_ s = addr a /\ heap mu !! a = Some (BWorkspace w) /\
     fst (SetSplineSegs (spline_ s)
            (solved_params_of (rows (kernel_matrix (kernel_ s))) (solution_x w))
            (spline_order (spline_ s))) = false).
Proof.
  intros O s mu.
  apply (@Solve_false_only _ _ O _ s mu s mu).
  vm_compute. reflexivity.
Defined.

Lemma Solve_updates_counts_witness :
  let O := Scenario.answering OSQP_SOLVED [of_Z 1; of_Z 3] in
  let s := Scenario.fresh Scenario.kernel Scenario.constraint in
  let mu := Scenario.fresh_memory O in
  let w := @osqp_solve_workspace O
             (mkWork (assembled_problem s) (Some (@constructor_settings O))
                     (replicate 2 dzero) OSQP_UNSOLVED) in
  let s' := snd (solver_after_solve s mu w) in
  let mu' := memory_after_solve s mu 1 w in
  last_num_param_ s' = 2 /\
  last_num_constraint_ s' = 1 + 1 /\
  exists a w',
    work_ s' = addr a /\ heap mu' !! a = Some (BWorkspace w') /\
    spline_ s' =
      snd (SetSplineSegs (spline_ s) (solved_params_of 2 (solution_x w'))
             (spline_order (spline_ s))).
Proof.
  intros O s mu w s' mu'.
  apply (@Solve_updates_counts _ _ O _ s mu (fst (solver_after_solve s mu w)) s' mu').
  - vm_compute. reflexivity.
  - vm_compute. lia.
  - vm_compute. lia.
Defined.

Lemma Solve_null_workspace_faults_witness :
  let O := Scenario.rejecting in
  let s := Scenario.fresh Scenario.kernel Scenario.constraint in
  let mu := Scenario.fresh_memory O in
  @Solve _ _ O _ s mu =
  (Fault (bad_deref nullptr),
   mkMemory
     (<[1 := BData (assembled_data s (addr (brk mu)) (addr (brk mu + 1)))]>
        (<[brk mu + 1 := BCsc (qp_A (assembled_problem s))]>
           (<[brk mu := BCsc (qp_P (assembled_problem s))]> (heap mu))))
     (brk mu + 2)
     (trace mu ++ [ev_malloc (brk mu); ev_malloc (brk mu + 1);
                   ev_setup nullptr; ev_solve nullptr])).
Proof.
  intros O s mu.
  apply (@Solve_null_workspace_faults _ _ O _ s mu 1 0 unset_data
           (Some (@constructor_settings O))).
  - compute_done.
  - reflexivity.
  - reflexivity.
  - vm_compute. reflexivity.
  - vm_compute. reflexivity.
  - vm_compute. lia.
  - vm_compute. lia.
  - reflexivity.
Defined.

Lemma Solve_dangling_data_faults_witness :
  let O := Scenario.answering OSQP_SOLVED [of_Z 1; of_Z 3] in
  let s := Scenario.fresh Scenario.kernel Scenario.constraint in
  @Solve _ _ O _ s empty_memory = (Fault (bad_deref (addr 1)), empty_memory).
Proof.
  intros O s.
  apply (@Solve_dangling_data_faults _ _ O _ s empty_memory 1).
  - reflexivity.
  - reflexivity.
  - vm_compute. lia.
  - vm_compute. lia.
Defined.

Lemma single_Solve_lifetime_balanced_witness :
  let O := Scenario.answering OSQP_SOLVED [of_Z 1; of_Z 3] in
  @lifetime _ _ O _ Scenario.spline0 Scenario.kernel Scenario.constraint
            [call_Solve] empty_memory =
  (Ok tt,
   mkMemory ∅ 5
     [ev_malloc 0; ev_malloc 1; ev_malloc 2; ev_malloc 3;
      ev_setup (addr 4); ev_solve (addr 4); ev_cleanup (addr 4);
      ev_free (addr 3); ev_free (addr 2); ev_free (addr 1); ev_free (addr 0)]).
Proof.
  intros O.
  apply (@single_Solve_lifetime_balanced _ _ O _ Scenario.spline0 Scenario.kernel
           Scenario.constraint empty_memory
           (mkWork (assembled_problem
                      (Scenario.fresh Scenario.kernel Scenario.constraint))
                   (Some (@constructor_settings O)) (replicate 2 dzero) OSQP_UNSOLVED)).
  - compute_done.
  - vm_compute. lia.
  - vm_compute. lia.
  - reflexivity.
Defined.


Lemma CleanUp_twice_faults_witness :
  let O := Scenario.answering OSQP_SOLVED [of_Z 1; of_Z 3] in
  let s0 := Scenario.fresh Scenario.kernel Scenario.constraint in
  let mu0 := Scenario.fresh_memory O in
  let w := @osqp_solve_workspace O
             (mkWork (assembled_problem s0) (Some (@constructor_settings O))
                     (replicate 2 dzero) OSQP_UNSOLVED) in
  let s := snd (solver_after_solve s0 mu0 w) in
  let mu := memory_after_solve s0 mu0 1 w in
  exists mu1,
    CleanUp s mu = (Ok tt, mu1) /\
    fst (CleanUp s mu1) = Fault (bad_cleanup (addr 4)) /\
    exists s2 mu2,
      ResetOsqp s mu1 = (Ok s2, mu2) /\
      fst (CleanUp s2 mu2) = Fault (bad_cleanup (addr 4)).
Proof.
  intros O s0 mu0 w s mu.
  apply (CleanUp_twice_faults s mu 4 w 1
           (assembled_data s0 (addr 2) (addr 3))
           3 (qp_A (assembled_problem s0)) 2 (qp_P (assembled_problem s0))
           0 (Some (@constructor_settings O))).
  - compute_done.
  - reflexivity.
  - reflexivity.
  - reflexivity.
  - vm_compute. reflexivity.
  - vm_compute. reflexivity.
  - reflexivity.
  - reflexivity.
  - vm_compute. reflexivity.
  - vm_compute. reflexivity.
  - vm_compute. reflexivity.
  - lia.
Defined.

Lemma Solve_after_ResetOsqp_witness :
  let O := Scenario.answering OSQP_SOLVED [of_Z 1; of_Z 3] in
  let s := Scenario.fresh Scenario.kernel Scenario.constraint in
  let mu := Scenario.fresh_memory O in
  exists s1 mu1,
    ResetOsqp s mu = (Ok s1, mu1) /\
    settings_ s1 = addr (brk mu) /\
    heap mu1 !! brk mu = Some (BSettings None) /\
    (forall w0,
       @osqp_setup_workspace O (assembled_problem s) None = Some w0 ->
       @Solve _ _ O _ s1 mu1 =
       (Ok (solver_after_solve s1 mu1 (@osqp_solve_workspace O w0)),
        memory_after_solve s1 mu1 (brk mu + 1) (@osqp_solve_workspace O w0))).
Proof.
  intros O s mu.
  apply (@Solve_after_ResetOsqp _ _ O _ s mu).
  - compute_done.
  - vm_compute. lia.
  - vm_compute. lia.
Defined.

Lemma reuse_protocol_balanced_witness :
  let O := Scenario.answering OSQP_SOLVED [of_Z 1; of_Z 3] in
  @lifetime _ _ O _ Scenario.spline0 Scenario.kernel Scenario.constraint
            [call_Solve; call_CleanUp; call_ResetOsqp; call_Solve] empty_memory =
  (Ok tt,
   mkMemory ∅ 10
     [ev_malloc 0; ev_malloc 1; ev_malloc 2; ev_malloc 3;
      ev_setup (addr 4); ev_solve (addr 4); ev_cleanup (addr 4);
      ev_free (addr 3); ev_free (addr 2); ev_free (addr 1); ev_free (addr 0);
      ev_malloc 5; ev_malloc 6; ev_malloc 7; ev_malloc 8;
      ev_setup (addr 9); ev_solve (addr 9); ev_cleanup (addr 9);
      ev_free (addr 8); ev_free (addr 7); ev_free (addr 6); ev_free (addr 5)]).
Proof.
  intros O.
  apply (@reuse_protocol_balanced _ _ O _ Scenario.spline0 Scenario.kernel
           Scenario.constraint empty_memory
           (mkWork (assembled_problem
                      (Scenario.fresh Scenario.kernel Scenario.constraint))
                   (Some (@constructor_settings O)) (replicate 2 dzero) OSQP_UNSOLVED)
           (mkWork (assembled_problem
                      (Scenario.fresh Scenario.kernel Scenario.constraint))
                   None (replicate 2 dzero) OSQP_UNSOLVED)).
  - compute_done.
  - vm_compute. lia.
  - vm_compute. lia.
  - split; reflexivity.
Defined.

Lemma equality_bounds_enclose_target_witness :
  dleb (dsub (of_Z 3) (to_double kEpsilon)) (of_Z 3) = true /\
  dleb (of_Z 3) (dadd (of_Z 3) (to_double kEpsilon)) = true.
Proof.
  apply (equality_bounds_enclose_target Scenario.constraint 1).
  - vm_compute. reflexivity.
  - vm_compute. reflexivity.
  - simpl. lia.
  - vm_compute. reflexivity.
  - reflexivity.
Defined.


Lemma equality_bounds_collapse_witness :
  dsub (of_Z 67108864) (to_double kEpsilon) = S754_finite false 4503599627370496 (-26) /\
  dadd (of_Z 67108864) (to_double kEpsilon) = S754_finite false 4503599627370496 (-26).
Proof.
  apply (equality_bounds_collapse far_target_constraint 1).
  - vm_compute. reflexivity.
  - vm_compute. reflexivity.
  - simpl. lia.
  - vm_compute. reflexivity.
  - vm_compute. reflexivity.
  - lia.
Defined.
